(** * A shallow embedding of the runtime overloading engine of Surge.

    The repository carries two versions of the engine:
    - [src/overloader.js]      (prefix [ov_] below), and
    - [src/TaskProcessor.js]   (lines 168-659, prefix [tp_] below).
    The retry loop of the class [TaskProcessor] of the same file
    (lines 1-120) is modelled at the end of the definitions.
    Both consist of a bracket-aware splitter, a memoised type-expression
    parser [parseType], a structural matcher [matchesTypeRecursive], the
    arity check [matchesSignature] and the dispatcher [overloader].

    Modelling conventions.
    - JS strings are [string]: one [ascii] per code unit, so the code units
      0-255 are modelled.  The whitespace of [String.prototype.trim] and of
      the regex class [\s] among them is tab, LF, VT, FF, CR, space and
      the no-break space (160).
    - JS values are finite trees ([value]); numbers are finite rationals
      (a numerator over a positive denominator), which is exact for the
      decimal literals the parser produces.  A function value is modelled
      by what it does when called: it returns [Some v] or throws ([None]).
    - A JS object is an association list of its own enumerable string
      keys in enumeration order.
    - An exception is [None] in the matcher results. *)

From Stdlib Require Import String Ascii ZArith Bool.
From Stdlib Require Import Sorted.
From stdpp Require Import base list list_monad gmap strings.

Local Open Scope nat_scope.
Local Set Warnings "-register-all".

(* ------------------------------------------------------------------ *)
(** ** Characters and strings *)

(** [WhiteSpace] or [LineTerminator] among the code units 0-255. *)
Definition is_js_space (c : ascii) : bool :=
  let n := nat_of_ascii c in ((9 <=? n) && (n <=? 13)) || (n =? 32) || (n =? 160).

(** [.] of a JS regex without the [s] flag: any character but a line
    terminator. *)
Definition is_regex_dot (c : ascii) : bool :=
  negb ((nat_of_ascii c =? 10) || (nat_of_ascii c =? 13)).

Definition is_digit (c : ascii) : bool :=
  let n := nat_of_ascii c in (48 <=? n) && (n <=? 57).

Definition is_quote (c : ascii) : bool :=
  (c =? ascii_of_nat 34)%char || (c =? "'")%char.

Definition is_open (c : ascii) : bool :=
  (c =? "[")%char || (c =? "{")%char || (c =? "(")%char.

Definition is_close (c : ascii) : bool :=
  (c =? "]")%char || (c =? "}")%char || (c =? ")")%char.

Fixpoint drop_ws (l : list ascii) : list ascii :=
  match l with
  | c :: r => if is_js_space c then drop_ws r else l
  | [] => []
  end.

(** [String.prototype.trim]. *)
Definition trim (s : string) : string :=
  string_of_list_ascii
    (List.rev (drop_ws (List.rev (drop_ws (list_ascii_of_string s))))).

Definition starts_with_char (c : ascii) (s : string) : bool :=
  match s with String d _ => (d =? c)%char | EmptyString => false end.

Definition last_char (s : string) : option ascii :=
  List.last (map Some (list_ascii_of_string s)) None.

Definition ends_with_char (c : ascii) (s : string) : bool :=
  match last_char s with Some d => (d =? c)%char | None => false end.

(** [s.endsWith("[]")]. *)
Definition ends_with_brackets (s : string) : bool :=
  let n := String.length s in
  (2 <=? n) && String.eqb (substring (n - 2) 2 s) "[]".

(** [s.slice(1, -1)] and [s.slice(0, -2)]. *)
Definition slice_inner (s : string) : string :=
  substring 1 (String.length s - 2) s.

Definition slice_drop2 (s : string) : string :=
  substring 0 (String.length s - 2) s.

(** [s.includes(c)] for a one-character [c]. *)
Fixpoint includes_char (c : ascii) (s : string) : bool :=
  match s with
  | EmptyString => false
  | String d r => (d =? c)%char || includes_char c r
  end.

(** [s.split(sep)] for a one-character separator. *)
Fixpoint split_go (sep : ascii) (s : string) (cur : string) : list string :=
  match s with
  | EmptyString => [cur]
  | String d r =>
      if (d =? sep)%char then cur :: split_go sep r ""
      else split_go sep r (cur ++ String d "")
  end.

Definition js_split (sep : ascii) (s : string) : list string := split_go sep s "".

(** [parts.join(sep)]. *)
Fixpoint js_join (sep : string) (parts : list string) : string :=
  match parts with
  | [] => ""
  | [p] => p
  | p :: r => p ++ sep ++ js_join sep r
  end.

(** [s.replace("?", "|undefined")]: the first occurrence only. *)
Fixpoint replace_first_qmark (s : string) : string :=
  match s with
  | EmptyString => EmptyString
  | String d r =>
      if (d =? "?")%char then "|undefined" ++ r
      else String d (replace_first_qmark r)
  end.

(** [txt.replace(/[\r\n\s]/g, "")]. *)
Fixpoint strip_ws (s : string) : string :=
  match s with
  | EmptyString => EmptyString
  | String d r => if is_js_space d then strip_ws r else String d (strip_ws r)
  end.

(* ------------------------------------------------------------------ *)
(** ** JS numbers and values *)

(** A finite JS number: numerator over denominator. *)
Definition jsnum : Type := (Z * positive)%type.

Definition num_eqb (a b : jsnum) : bool :=
  (a.1 * Zpos b.2 =? b.1 * Zpos a.2)%Z.

Inductive value : Type :=
| VUndef
| VNull
| VBool (b : bool)
| VNum (n : jsnum)
| VStr (s : string)
| VFun (ret : option value)
| VArr (xs : list value)
| VObj (props : list (string * value)).

(** [myTypeof] of [src/overloader.js]. *)
Definition ov_myTypeof (v : value) : string :=
  match v with
  | VNull => "null"
  | VUndef => "undefined"
  | VArr _ => "[]"
  | VFun _ => "Function"
  | VObj _ => "{}"
  | VBool _ => "boolean"
  | VNum _ => "number"
  | VStr _ => "string"
  end.

(** [myTypeof] of [src/TaskProcessor.js]. *)
Definition tp_myTypeof (v : value) : string :=
  match v with
  | VNull => "null"
  | VUndef => "undefined"
  | VArr _ => "array"
  | VFun _ => "Function"
  | VObj _ => "object"
  | VBool _ => "boolean"
  | VNum _ => "number"
  | VStr _ => "string"
  end.

(** JS truthiness ([ToBoolean]). *)
Definition truthy (v : value) : bool :=
  match v with
  | VUndef | VNull => false
  | VBool b => b
  | VNum n => negb (n.1 =? 0)%Z
  | VStr s => negb (String.eqb s "")
  | _ => true
  end.

(* ------------------------------------------------------------------ *)
(** ** The regular expressions of the parser *)

(** [/^-?\d+(\.\d+)?$/.test(s)]. *)
Fixpoint split_at_dot (l : list ascii) : list ascii * option (list ascii) :=
  match l with
  | [] => ([], None)
  | c :: r =>
      if (c =? ".")%char then ([], Some r)
      else let '(a, b) := split_at_dot r in (c :: a, b)
  end.

Definition nullb {A} (l : list A) : bool :=
  match l with [] => true | _ => false end.

Definition digits1 (l : list ascii) : bool := negb (nullb l) && forallb is_digit l.

Definition num_body (l : list ascii) : bool :=
  let '(a, b) := split_at_dot l in
  digits1 a && match b with None => true | Some f => digits1 f end.

Definition is_num_lit (s : string) : bool :=
  match list_ascii_of_string s with
  | c :: r => if (c =? "-")%char then num_body r else num_body (c :: r)
  | [] => false
  end.

Definition digits_val (l : list ascii) : Z :=
  fold_left (fun acc c => acc * 10 + Z.of_nat (nat_of_ascii c - 48))%Z l 0%Z.

(** [Number(s)] on a string accepted by [is_num_lit]. *)
Definition js_Number_lit (s : string) : jsnum :=
  let l := list_ascii_of_string s in
  let '(neg, body) :=
    match l with
    | c :: r => if (c =? "-")%char then (true, r) else (false, l)
    | [] => (false, l)
    end in
  let '(a, b) := split_at_dot body in
  let f := match b with Some f => f | None => [] end in
  let n := digits_val (a ++ f) in
  ((if neg then - n else n)%Z, Z.to_pos (10 ^ Z.of_nat (length f))).

(** [/^['"].*['"]$/.test(s)]. *)
Definition is_quoted_lit (s : string) : bool :=
  match list_ascii_of_string s with
  | q :: r =>
      is_quote q &&
      match List.rev r with
      | q' :: mid => is_quote q' && forallb is_regex_dot mid
      | [] => false
      end
  | [] => false
  end.

(** Backtracking combinators, in continuation-passing style, for
    [/^\s*\[(.+?):\s*(.+?)\]\s*:\s*(.+)$/]: each one tries its
    alternatives in the order of the JS backtracking engine and hands the
    rest of the input to its continuation. *)
Section Regex.
Context {R : Type}.

(** [\s*], greedy. *)
Fixpoint rx_ws_star (k : list ascii -> option R) (l : list ascii) : option R :=
  match l with
  | c :: r =>
      if is_js_space c then
        match rx_ws_star k r with Some x => Some x | None => k l end
      else k l
  | [] => k l
  end.

(** A literal character. *)
Definition rx_char (c : ascii) (k : list ascii -> option R) (l : list ascii)
  : option R :=
  match l with d :: r => if (d =? c)%char then k r else None | [] => None end.

(** [(.+?)], lazy, capturing into the first argument of [k]. *)
Fixpoint rx_lazy_plus (acc : list ascii) (k : list ascii -> list ascii -> option R)
    (l : list ascii) : option R :=
  match l with
  | c :: r =>
      if is_regex_dot c then
        match k (acc ++ [c]) r with
        | Some x => Some x
        | None => rx_lazy_plus (acc ++ [c]) k r
        end
      else None
  | [] => None
  end.

(** [(.+)$], greedy and anchored at the end. *)
Definition rx_dot_plus_end (k : list ascii -> option R) (l : list ascii) : option R :=
  if negb (nullb l) && forallb is_regex_dot l then k l else None.
End Regex.

(** [content.match(/^\s*\[(.+?):\s*(.+?)\]\s*:\s*(.+)$/)]: the three
    groups of the first match. *)
Definition index_sig_match (content : string) : option (string * string * string) :=
  rx_ws_star
    (rx_char "["
      (rx_lazy_plus []
        (fun g1 =>
          rx_char ":"
            (rx_ws_star
              (rx_lazy_plus []
                (fun g2 =>
                  rx_char "]"
                    (rx_ws_star
                      (rx_char ":"
                        (rx_ws_star
                          (rx_dot_plus_end
                            (fun g3 => Some (string_of_list_ascii g1,
                                             string_of_list_ascii g2,
                                             string_of_list_ascii g3))))))))))))
    (list_ascii_of_string content).

(* ------------------------------------------------------------------ *)
(** ** The splitters *)

Definition cur_text (cur : list ascii) : string := trim (string_of_list_ascii (List.rev cur)).

(** Quote state after reading [c]; [Some q] means inside a [q]-quoted
    literal ([inQuotes]/[quoteChar] of the source). *)
Definition quote_step (q : option ascii) (c : ascii) : option ascii :=
  match q with
  | None => if is_quote c then Some c else None
  | Some qc => if (c =? qc)%char then None else q
  end.

(** [splitUnionTypes] / [splitArrayElements] of [src/overloader.js];
    [cur] is the reversed [current]. *)
Fixpoint ov_split_go (sep : ascii) (l : list ascii) (res : list string)
    (cur : list ascii) (depth : Z) (q : option ascii) : list string :=
  match l with
  | [] =>
      if String.eqb (cur_text cur) "" then List.rev res
      else List.rev (cur_text cur :: res)
  | c :: r =>
      let q' := quote_step q c in
      match q' with
      | None =>
          if is_open c then ov_split_go sep r res (c :: cur) (depth + 1)%Z q'
          else if is_close c then ov_split_go sep r res (c :: cur) (depth - 1)%Z q'
          else if (c =? sep)%char && (depth =? 0)%Z
          then ov_split_go sep r (cur_text cur :: res) [] depth q'
          else ov_split_go sep r res (c :: cur) depth q'
      | Some _ => ov_split_go sep r res (c :: cur) depth q'
      end
  end.

Definition ov_split (sep : ascii) (s : string) : list string :=
  ov_split_go sep (list_ascii_of_string s) [] [] 0%Z None.

Definition ov_splitUnionTypes : string -> list string := ov_split "|".
Definition ov_splitArrayElements : string -> list string := ov_split ",".

(** [splitAny(SYMBOL)] of [src/TaskProcessor.js]; [cur] is the reversed
    [str.slice(start, i)]. *)
Fixpoint tp_split_go (sym : ascii) (l : list ascii) (res : list string)
    (cur : list ascii) (depth : Z) (canSplit : bool) (q : option ascii) : list string :=
  match l with
  | [] => List.rev (cur_text cur :: res)
  | c :: r =>
      let '(canSplit', q') :=
        if is_quote c then
          match q with
          | Some qc => if (qc =? c)%char then (true, None) else (false, q)
          | None => (false, Some c)
          end
        else (canSplit, q) in
      if is_open c then tp_split_go sym r res (c :: cur) (depth + 1)%Z canSplit' q'
      else if is_close c then tp_split_go sym r res (c :: cur) (depth - 1)%Z canSplit' q'
      else if canSplit' && (c =? sym)%char && (depth =? 0)%Z
      then tp_split_go sym r (cur_text cur :: res) [] depth canSplit' q'
      else tp_split_go sym r res (c :: cur) depth canSplit' q'
  end.

Definition tp_splitAny (sym : ascii) (s : string) : list string :=
  tp_split_go sym (list_ascii_of_string s) [] [] 0%Z true None.

Definition tp_splitUnionTypes : string -> list string := tp_splitAny "|".
Definition tp_splitArrayElements : string -> list string := tp_splitAny ",".

(** [findPropertyColon] (identical in both files); [None] is [-1]. *)
Fixpoint find_colon_go (l : list ascii) (i : nat) (depth bdepth : Z) (q : option ascii)
    : option nat :=
  match l with
  | [] => None
  | c :: r =>
      let q' := quote_step q c in
      match q' with
      | Some _ => find_colon_go r (S i) depth bdepth q'
      | None =>
          if (c =? "{")%char || (c =? "(")%char then find_colon_go r (S i) (depth + 1)%Z bdepth q'
          else if (c =? "}")%char || (c =? ")")%char then find_colon_go r (S i) (depth - 1)%Z bdepth q'
          else if (c =? "[")%char then find_colon_go r (S i) depth (bdepth + 1)%Z q'
          else if (c =? "]")%char then find_colon_go r (S i) depth (bdepth - 1)%Z q'
          else if (c =? ":")%char && (depth =? 0)%Z && (bdepth =? 0)%Z then Some i
          else find_colon_go r (S i) depth bdepth q'
      end
  end.

Definition findPropertyColon (s : string) : option nat :=
  find_colon_go (list_ascii_of_string s) 0 0%Z 0%Z None.

(* ------------------------------------------------------------------ *)
(** ** JS objects used as dictionaries *)

Fixpoint assoc_get {A} (k : string) (l : list (string * A)) : option A :=
  match l with
  | [] => None
  | (k', v) :: r => if String.eqb k k' then Some v else assoc_get k r
  end.

(** [o[k] = v] on an object without a prototype: an existing key keeps its
    place, a new key goes last. *)
Fixpoint assoc_set {A} (k : string) (v : A) (l : list (string * A)) : list (string * A) :=
  match l with
  | [] => [(k, v)]
  | (k', v') :: r => if String.eqb k k' then (k, v) :: r else (k', v') :: assoc_set k v r
  end.

(** [o[k] = v] on an ordinary object ([{}]): ["__proto__"] sets the
    prototype instead of an own property. *)
Definition obj_set {A} (k : string) (v : A) (l : list (string * A)) : list (string * A) :=
  if String.eqb k "__proto__" then l else assoc_set k v l.

(** A canonical array index ["0"], ["1"], ... below [2^32 - 1]. *)
Definition is_array_index (k : string) : bool :=
  match list_ascii_of_string k with
  | [] => false
  | c :: r =>
      forallb is_digit (c :: r) && (negb (c =? "0")%char || nullb r)
      && (digits_val (c :: r) <? 4294967295)%Z
  end.

Definition index_val (k : string) : Z := digits_val (list_ascii_of_string k).

Fixpoint insert_by_index {A} (x : string * A) (l : list (string * A)) : list (string * A) :=
  match l with
  | [] => [x]
  | y :: r => if (index_val x.1 <? index_val y.1)%Z then x :: l else y :: insert_by_index x r
  end.

(** [OrdinaryOwnPropertyKeys]: array indices in ascending order, then the
    other string keys in creation order. *)
Definition js_own_keys_order {A} (l : list (string * A)) : list (string * A) :=
  fold_right insert_by_index [] (List.filter (fun kv => is_array_index kv.1) l)
  ++ List.filter (fun kv => negb (is_array_index kv.1)) l.

(* ------------------------------------------------------------------ *)
(** ** Type nodes and the parser [parseType] *)

Inductive lit : Type :=
| LNum (n : jsnum)
| LStr (s : string)
| LBool (b : bool).

(** The objects built by the rules of [parseType.parses]:
    [{kind:"union", types}], [{kind:"array", elementType, isHomogeneous:true}],
    [{kind:"array", elementTypes, isHomogeneous:false}],
    [{kind:"literalArray", values}], [{kind:"object", indexSignature}],
    [{kind:"object", properties}] (an ordinary object: key -> type and
    optional flag, in creation order), [{kind:"literal", value}] and
    [{kind:"primitive", type, optional}]. *)
Inductive tnode : Type :=
| TUnion (types : list tnode)
| TArrH (elementType : tnode)
| TArrX (elementTypes : list tnode)
| TLitArr (values : list lit)
| TObjIdx (keyType valueType : tnode)
| TObjProps (properties : list (string * (tnode * bool)))
| TLit (v : lit)
| TPrim (type : string) (optional : bool).

(** A rule of [parseType.parses] on the trimmed text: [None] when it
    returns [undefined], [Some r] when it returns a node; [rec] is the
    recursive [parseType]. *)
Definition rule : Type := string -> option (option tnode).

(** Union rule (both files; the splitter differs). *)
Definition rule_union (split : string -> list string) (rec : string -> option tnode) : rule :=
  fun t =>
    if negb (includes_char "|" t) then None
    else
      let parts := split t in
      if length parts <=? 1 then None
      else Some (TUnion <$> mapM rec parts).

(** Homogeneous array rule of [src/overloader.js]. *)
Definition ov_rule_array (rec : string -> option tnode) : rule :=
  fun t =>
    if negb (ends_with_brackets t) then None
    else
      let e := slice_drop2 t in
      let e := if starts_with_char "(" e && ends_with_char ")" e then slice_inner e else e in
      Some (TArrH <$> rec e).

(** Homogeneous array rule of [src/TaskProcessor.js]:
    [typeStr.slice(0, -2) || "array"]. *)
Definition tp_rule_array (rec : string -> option tnode) : rule :=
  fun t =>
    if negb (ends_with_brackets t) then None
    else
      let e := slice_drop2 t in
      let e := if String.eqb e "" then "array" else e in
      let e := if starts_with_char "(" e && ends_with_char ")" e then slice_inner e else e in
      Some (TArrH <$> rec e).

(** Parenthesis rule (only in [src/overloader.js]). *)
Definition ov_rule_paren (rec : string -> option tnode) : rule :=
  fun t =>
    if negb (starts_with_char "(" t && ends_with_char ")" t) then None
    else Some (rec (slice_inner t)).

Definition lit_of_element (el : string) : lit :=
  let tr := trim el in
  if is_num_lit tr then LNum (js_Number_lit tr)
  else if is_quoted_lit tr then LStr (slice_inner tr)
  else LStr tr.

(** Heterogeneous / literal array rule. *)
Definition rule_bracket (split : string -> list string) (rec : string -> option tnode) : rule :=
  fun t =>
    if negb (starts_with_char "[" t && ends_with_char "]" t) then None
    else
      let elements := split (slice_inner t) in
      let isLiteral :=
        forallb (fun el => is_num_lit (trim el) || is_quoted_lit (trim el)) elements in
      if isLiteral then Some (Some (TLitArr (map lit_of_element elements)))
      else Some (TArrX <$> mapM rec elements).

(** One property [prop] of [props.forEach] in the object rule. *)
Definition add_property (rec : string -> option tnode)
    (acc : option (list (string * (tnode * bool)))) (prop : string)
    : option (list (string * (tnode * bool))) :=
  match acc with
  | None => None
  | Some ps =>
      match findPropertyColon prop with
      | Some ci =>
          if 0 <? ci then
            let key := trim (substring 0 ci prop) in
            let ty := trim (substring (S ci) (String.length prop - S ci) prop) in
            let isOptional := ends_with_char "?" key in
            let cleanKey :=
              if isOptional then substring 0 (String.length key - 1) key else key in
            (fun tn => obj_set cleanKey (tn, isOptional) ps) <$> rec ty
          else Some ps
      | None => Some ps
      end
  end.

(** Object rule. *)
Definition rule_object (split : string -> list string) (rec : string -> option tnode) : rule :=
  fun t =>
    if negb (starts_with_char "{" t && ends_with_char "}" t) then None
    else
      let content := slice_inner t in
      match index_sig_match content with
      | Some (_, g2, g3) =>
          Some (match rec (trim g2), rec (trim g3) with
                | Some kt, Some vt => Some (TObjIdx kt vt)
                | _, _ => None
                end)
      | None =>
          Some (TObjProps <$> fold_left (add_property rec) (split content) (Some []))
      end.

(** Literal rule. *)
Definition rule_literal : rule :=
  fun t =>
    if is_num_lit t then Some (Some (TLit (LNum (js_Number_lit t))))
    else if is_quoted_lit t then Some (Some (TLit (LStr (slice_inner t))))
    else if String.eqb t "true" || String.eqb t "false"
    then Some (Some (TLit (LBool (String.eqb t "true"))))
    else None.

(** Primitive (fallback) rule. *)
Definition rule_primitive : rule :=
  fun t => Some (Some (TPrim t (ends_with_char "?" t))).

(** [for (const fn of parseType.parses) { const result = fn(typeStr.trim());
    if (result) return result; }]; [None] when no rule answers. *)
Fixpoint first_rule (rules : list rule) (t : string) : option tnode :=
  match rules with
  | [] => None
  | r :: rs => match r t with Some res => res | None => first_rule rs t end
  end.

(** [parseType] of [src/overloader.js], with a fuel bound on the depth of
    recursion ([None] once it runs out). *)
Fixpoint ov_parse_fuel (fuel : nat) (s : string) : option tnode :=
  match fuel with
  | 0 => None
  | S f =>
      let rec := ov_parse_fuel f in
      first_rule
        [rule_union ov_splitUnionTypes rec; ov_rule_array rec; ov_rule_paren rec;
         rule_bracket ov_splitArrayElements rec; rule_object ov_splitArrayElements rec;
         rule_literal; rule_primitive]
        (trim s)
  end.

(** [parseType] of [src/TaskProcessor.js] (no parenthesis rule). *)
Fixpoint tp_parse_fuel (fuel : nat) (s : string) : option tnode :=
  match fuel with
  | 0 => None
  | S f =>
      let rec := tp_parse_fuel f in
      first_rule
        [rule_union tp_splitUnionTypes rec; tp_rule_array rec;
         rule_bracket tp_splitArrayElements rec; rule_object tp_splitArrayElements rec;
         rule_literal; rule_primitive]
        (trim s)
  end.

(** Every recursive call of [parseType] is on a strictly shorter string
    (a piece of the trimmed text without its delimiters), except the
    ["array"] of the array rule of [src/TaskProcessor.js] on ["[]"], which
    the primitive rule answers without recursing; so the fuel
    [length s + 1] never runs out ([ov_parse_fuel_total],
    [tp_parse_fuel_total]). *)
Definition ov_parseType (s : string) : option tnode := ov_parse_fuel (S (String.length s)) s.
Definition tp_parseType (s : string) : option tnode := tp_parse_fuel (S (String.length s)) s.

(* ------------------------------------------------------------------ *)
(** ** Reading the actual values *)

(** Members of [Object.prototype], inherited by every ordinary object. *)
Definition object_prototype_names : list string :=
  ["constructor"; "__defineGetter__"; "__defineSetter__"; "hasOwnProperty";
   "__lookupGetter__"; "__lookupSetter__"; "isPrototypeOf";
   "propertyIsEnumerable"; "toString"; "valueOf"; "__proto__"; "toLocaleString"].

Definition is_proto_name (k : string) : bool :=
  existsb (String.eqb k) object_prototype_names.

(** [actual[key]] on a record: own property, else the inherited member
    ([Object.prototype] itself for ["__proto__"], a method otherwise), else
    [undefined]. *)
Definition get_prop (props : list (string * value)) (key : string) : value :=
  match assoc_get key props with
  | Some v => v
  | None =>
      if String.eqb key "__proto__" then VObj []
      else if is_proto_name key then VFun (Some VUndef)
      else VUndef
  end.

(** [actual.hasOwnProperty(key)]: the builtin unless the record has an own
    member of that name, which is then called (a [TypeError] if it is not
    callable); [None] when the call throws. *)
Definition js_hasOwnProperty (props : list (string * value)) (key : string) : option value :=
  match assoc_get "hasOwnProperty" props with
  | None => Some (VBool (match assoc_get key props with Some _ => true | None => false end))
  | Some (VFun r) => r
  | Some _ => None
  end.

(** [actual === value] against a literal. *)
Definition strict_eq_lit (v : value) (l : lit) : bool :=
  match v, l with
  | VNum a, LNum b => num_eqb a b
  | VStr a, LStr b => String.eqb a b
  | VBool a, LBool b => Bool.eqb a b
  | _, _ => false
  end.

(** [const types = type.split("|"); return types.includes("any") ||
    types.includes(actualType);] *)
Definition prim_check (actualType : string) (type : string) : bool :=
  let types := js_split "|" type in
  existsb (String.eqb "any") types || existsb (String.eqb actualType) types.

Definition has_substring (needle hay : string) : bool :=
  match String.index 0 needle hay with Some _ => true | None => false end.

(** [typeInfo.elementType.type] read as a string by [RegExp.prototype.test]:
    only primitive nodes have a [type] field, the others give [undefined]. *)
Definition element_type_text (e : tnode) : string :=
  match e with TPrim t _ => t | _ => "undefined" end.

(** [/array|any/.test(x)]. *)
Definition test_array_or_any (x : string) : bool :=
  has_substring "array" x || has_substring "any" x.

(* ------------------------------------------------------------------ *)
(** ** [matchesTypeRecursive] of [src/TaskProcessor.js]

    It writes nothing, so it is a function of the value and the node;
    [None] is a thrown [TypeError]. *)

Fixpoint tp_every (f : value -> option bool) (xs : list value) : option bool :=
  match xs with
  | [] => Some true
  | x :: r => match f x with Some true => tp_every f r | res => res end
  end.

Fixpoint tp_match (actual : value) (ti : tnode) {struct ti} : option bool :=
  match ti with
  | TUnion types =>
      (fix some_ (ts : list tnode) : option bool :=
         match ts with
         | [] => Some false
         | t :: r => match tp_match actual t with Some false => some_ r | res => res end
         end) types
  | TArrH e =>
      match actual with
      | VArr xs =>
          if nullb xs && negb (test_array_or_any (element_type_text e)) then Some false
          else tp_every (fun x => tp_match x e) xs
      | _ => Some false
      end
  | TArrX ts =>
      match actual with
      | VArr xs =>
          (* [typeInfo.elementType] is undefined here: reading its [type]
             field throws when the array is empty *)
          if nullb xs then None
          else if negb (length xs =? length ts) then Some false
          else
            (fix every2 (ts : list tnode) (xs : list value) {struct ts} : option bool :=
               match ts, xs with
               | t :: tr, x :: xr =>
                   match tp_match x t with Some true => every2 tr xr | res => res end
               | _, _ => Some true
               end) ts xs
      | _ => Some false
      end
  | TLitArr vs =>
      match actual with
      | VArr xs =>
          if negb (length xs =? length vs) then Some false
          else Some (forallb (fun xv => strict_eq_lit xv.1 xv.2) (zip xs vs))
      | _ => Some false
      end
  | TLit l => Some (strict_eq_lit actual l)
  | TObjIdx kt vt =>
      match actual with
      | VObj props =>
          (fix every_entry (es : list (string * value)) : option bool :=
             match es with
             | [] => Some true
             | (k, v) :: r =>
                 match tp_match (VStr k) kt with
                 | None => None
                 | Some km =>
                     match tp_match v vt with
                     | None => None
                     | Some vm => if km && vm then every_entry r else Some false
                     end
                 end
             end) props
      | _ => Some false
      end
  | TObjProps ps =>
      match actual with
      | VObj props =>
          let checks :=
            (fix closures (ps : list (string * (tnode * bool)))
               : list (string * (bool * (value -> option bool))) :=
               match ps with
               | [] => []
               | (k, (t, opt)) :: r => (k, (opt, fun v => tp_match v t)) :: closures r
               end) ps in
          (fix every_key (cs : list (string * (bool * (value -> option bool)))) : option bool :=
             match cs with
             | [] => Some true
             | (key, (opt, chk)) :: r =>
                 match js_hasOwnProperty props key with
                 | None => None
                 | Some hp =>
                     if opt && negb (truthy hp) then every_key r
                     else if negb (truthy hp) then Some false
                     else match chk (get_prop props key) with
                          | Some true => every_key r
                          | res => res
                          end
                 end
             end) (js_own_keys_order checks)
      | _ => Some false
      end
  | TPrim type opt =>
      let type := if opt then trim (replace_first_qmark type) else type in
      Some (prim_check (tp_myTypeof actual) type)
  end.

(* ------------------------------------------------------------------ *)
(** ** [matchesTypeRecursive] of [src/overloader.js]

    This version writes into its arguments: [actual.push(undefined)] on
    an empty array tested against a homogeneous array node, and
    [typeInfo.type = typeInfo.type.replace("?", "|undefined").trim()] on an
    optional primitive node.  A node is addressed by its path from the
    root of its tree (child indices, innermost first); the [muts] map holds
    the current [type] of the primitive nodes written so far, the node
    itself the parsed one.  The value is returned with the pushes it
    received (values are trees: no sub-array is shared). *)

Abbreviation muts := (gmap (list nat) string).

Fixpoint ov_every (f : value -> muts -> option bool * value * muts) (xs : list value)
    (mu : muts) : option bool * list value * muts :=
  match xs with
  | [] => (Some true, [], mu)
  | x :: r =>
      let '(res, x', mu1) := f x mu in
      match res with
      | Some true => let '(res2, r', mu2) := ov_every f r mu1 in (res2, x' :: r', mu2)
      | _ => (res, x' :: r, mu1)
      end
  end.

Fixpoint ov_match (ti : tnode) (path : list nat) (actual : value) (mu : muts)
    {struct ti} : option bool * value * muts :=
  match ti with
  | TUnion types =>
      (fix some_ (ts : list tnode) (i : nat) (actual : value) (mu : muts)
         : option bool * value * muts :=
         match ts with
         | [] => (Some false, actual, mu)
         | t :: r =>
             let '(res, actual', mu') := ov_match t (i :: path) actual mu in
             match res with
             | Some false => some_ r (S i) actual' mu'
             | _ => (res, actual', mu')
             end
         end) types 0 actual mu
  | TArrH e =>
      match actual with
      | VArr xs =>
          let xs := if nullb xs then [VUndef] else xs in
          let '(res, xs', mu') := ov_every (fun x mu => ov_match e (0 :: path) x mu) xs mu in
          (res, VArr xs', mu')
      | _ => (Some false, actual, mu)
      end
  | TArrX ts =>
      match actual with
      | VArr xs =>
          if negb (length xs =? length ts) then (Some false, actual, mu)
          else
            let '(res, xs', mu') :=
              (fix every2 (ts : list tnode) (i : nat) (xs : list value) (mu : muts)
                 {struct ts} : option bool * list value * muts :=
                 match ts, xs with
                 | t :: tr, x :: xr =>
                     let '(res, x', mu1) := ov_match t (i :: path) x mu in
                     match res with
                     | Some true =>
                         let '(res2, xr', mu2) := every2 tr (S i) xr mu1 in
                         (res2, x' :: xr', mu2)
                     | _ => (res, x' :: xr, mu1)
                     end
                 | _, _ => (Some true, xs, mu)
                 end) ts 0 xs mu in
            (res, VArr xs', mu')
      | _ => (Some false, actual, mu)
      end
  | TLitArr vs =>
      match actual with
      | VArr xs =>
          if negb (length xs =? length vs) then (Some false, actual, mu)
          else (Some (forallb (fun xv => strict_eq_lit xv.1 xv.2) (zip xs vs)), actual, mu)
      | _ => (Some false, actual, mu)
      end
  | TLit l => (Some (strict_eq_lit actual l), actual, mu)
  | TObjIdx kt vt =>
      match actual with
      | VObj props =>
          let '(res, props', mu') :=
            (fix every_entry (es : list (string * value)) (mu : muts)
               : option bool * list (string * value) * muts :=
               match es with
               | [] => (Some true, [], mu)
               | (k, v) :: r =>
                   let '(km, _, mu1) := ov_match kt (0 :: path) (VStr k) mu in
                   match km with
                   | None => (None, es, mu1)
                   | Some km =>
                       let '(vm, v', mu2) := ov_match vt (1 :: path) v mu1 in
                       match vm with
                       | None => (None, (k, v') :: r, mu2)
                       | Some vm =>
                           if km && vm then
                             let '(res, r', mu3) := every_entry r mu2 in
                             (res, (k, v') :: r', mu3)
                           else (Some false, (k, v') :: r, mu2)
                       end
                   end
               end) props mu in
          (res, VObj props', mu')
      | _ => (Some false, actual, mu)
      end
  | TObjProps ps =>
      match actual with
      | VObj props =>
          let checks :=
            (fix closures (ps : list (string * (tnode * bool))) (i : nat)
               : list (string * (bool * (value -> muts -> option bool * value * muts))) :=
               match ps with
               | [] => []
               | (k, (t, opt)) :: r =>
                   (k, (opt, fun v mu => ov_match t (i :: path) v mu)) :: closures r (S i)
               end) ps 0 in
          let '(res, props', mu') :=
            (fix every_key
               (cs : list (string * (bool * (value -> muts -> option bool * value * muts))))
               (props : list (string * value)) (mu : muts)
               : option bool * list (string * value) * muts :=
               match cs with
               | [] => (Some true, props, mu)
               | (key, (opt, chk)) :: r =>
                   match js_hasOwnProperty props key with
                   | None => (None, props, mu)
                   | Some hp =>
                       if opt && negb (truthy hp) then every_key r props mu
                       else if negb (truthy hp) then (Some false, props, mu)
                       else
                         let '(res, v', mu1) := chk (get_prop props key) mu in
                         let props1 :=
                           match assoc_get key props with
                           | Some _ => assoc_set key v' props
                           | None => props
                           end in
                         match res with
                         | Some true => every_key r props1 mu1
                         | _ => (res, props1, mu1)
                         end
                   end
               end) (js_own_keys_order checks) props mu in
          (res, VObj props', mu')
      | _ => (Some false, actual, mu)
      end
  | TPrim type opt =>
      let cur := match mu !! path with Some t => t | None => type end in
      if opt then
        let t' := trim (replace_first_qmark cur) in
        (Some (prim_check (ov_myTypeof actual) t'), actual, <[path := t']> mu)
      else (Some (prim_check (ov_myTypeof actual) cur), actual, mu)
  end.

(* ------------------------------------------------------------------ *)
(** ** [parseType.cached] and [matchesType]

    [parseType.cache] is an ordinary object ([{}]): a pattern is first
    looked up among its own properties (the trees stored so far), then
    along its prototype, [Object.prototype]; the stored tree is returned
    when the lookup is truthy. *)

(** What [matchesType] returns: a boolean, [undefined], or an exception. *)
Inductive mres : Type :=
| RBool (b : bool)
| RUndef
| RThrow.

Definition mres_of (r : option bool) : mres :=
  match r with Some b => RBool b | None => RThrow end.

(** What [parseType.cached(typePattern)] returns: a tree, an inherited
    member of [Object.prototype] (a function, or [Object.prototype] itself
    for ["__proto__"]), or [undefined] (a parse that produced nothing). *)
Inductive cached_result (A : Type) : Type :=
| CNode (t : A)
| CInherited (name : string)
| CUndefined.
Arguments CNode {A} t.
Arguments CInherited {A} name.
Arguments CUndefined {A}.

(** The cache of [src/TaskProcessor.js]: pattern -> tree. *)
Abbreviation tp_cache := (gmap string tnode).

(** [const cache = parseType.cache[typePattern]; if (cache) return cache;
    const parsed = parseType(typePattern); parseType.cache[typePattern] =
    parsed; return parsed;] *)
Definition tp_cached (c : tp_cache) (p : string) : cached_result tnode * tp_cache :=
  match c !! p with
  | Some t => (CNode t, c)
  | None =>
      if is_proto_name p then (CInherited p, c)
      else match tp_parseType p with
           | Some t => (CNode t, <[p := t]> c)
           | None => (CUndefined, c)
           end
  end.

(** [matchesType(actual, typePattern)]: a prototype member has no [kind],
    so [matchesTypeRecursive] returns [undefined] for it; an [undefined]
    parse result would make it read [undefined.kind] (a [TypeError]). *)
Definition tp_matchesType (c : tp_cache) (actual : value) (p : string) : mres * tp_cache :=
  let '(ti, c') := tp_cached c p in
  match ti with
  | CNode t => (mres_of (tp_match actual t), c')
  | CInherited _ => (RUndef, c')
  | CUndefined => (RThrow, c')
  end.

(** The cache of [src/overloader.js]: pattern -> tree and the writes the
    matcher made into that tree. *)
Abbreviation ov_cache := (gmap string (tnode * muts)).

Definition ov_cached (c : ov_cache) (p : string) : cached_result (tnode * muts) * ov_cache :=
  match c !! p with
  | Some tm => (CNode tm, c)
  | None =>
      if is_proto_name p then (CInherited p, c)
      else match ov_parseType p with
           | Some t => (CNode (t, ∅), <[p := (t, ∅)]> c)
           | None => (CUndefined, c)
           end
  end.

(** The writes of [matchesTypeRecursive] go into the cached tree. *)
Definition ov_matchesType (c : ov_cache) (actual : value) (p : string)
    : mres * value * ov_cache :=
  let '(ti, c') := ov_cached c p in
  match ti with
  | CNode (t, mu) =>
      let '(r, actual', mu') := ov_match t [] actual mu in
      (mres_of r, actual', <[p := (t, mu')]> c')
  | CInherited _ => (RUndef, actual, c')
  | CUndefined => (RThrow, actual, c')
  end.

(* ------------------------------------------------------------------ *)
(** ** [matchesSignature] (same text in both files) *)

Definition requiredCount (typePatterns : list string) : nat :=
  length (List.filter (fun p => negb (includes_char "?" p)) typePatterns).

(** The loop [for (let i = 0; i < actuals.length; i++) if (!matchesType(...))
    return false;]; the arity check before it guarantees a pattern for
    every argument. *)
Fixpoint tp_sig_loop (c : tp_cache) (actuals : list value) (typePatterns : list string)
    : option bool * tp_cache :=
  match actuals, typePatterns with
  | a :: ar, p :: pr =>
      let '(r, c1) := tp_matchesType c a p in
      match r with
      | RThrow => (None, c1)
      | RBool true => tp_sig_loop c1 ar pr
      | _ => (Some false, c1)
      end
  | _, _ => (Some true, c)
  end.

Definition tp_matchesSignature (c : tp_cache) (actuals : list value)
    (typePatterns : list string) : option bool * tp_cache :=
  if length actuals <? requiredCount typePatterns then (Some false, c)
  else if length typePatterns <? length actuals then (Some false, c)
  else tp_sig_loop c actuals typePatterns.

Fixpoint ov_sig_loop (c : ov_cache) (actuals : list value) (typePatterns : list string)
    : option bool * list value * ov_cache :=
  match actuals, typePatterns with
  | a :: ar, p :: pr =>
      let '(r, a', c1) := ov_matchesType c a p in
      match r with
      | RThrow => (None, a' :: ar, c1)
      | RBool true => let '(res, ar', c2) := ov_sig_loop c1 ar pr in (res, a' :: ar', c2)
      | _ => (Some false, a' :: ar, c1)
      end
  | _, _ => (Some true, actuals, c)
  end.

Definition ov_matchesSignature (c : ov_cache) (actuals : list value)
    (typePatterns : list string) : option bool * list value * ov_cache :=
  if length actuals <? requiredCount typePatterns then (Some false, actuals, c)
  else if length typePatterns <? length actuals then (Some false, actuals, c)
  else ov_sig_loop c actuals typePatterns.

(* ------------------------------------------------------------------ *)
(** ** The dispatcher [overloader()]

    An implementation is named by a number; [Invoked f args] stands for
    [return fn(...args)], whatever that call then returns or throws. *)

Inductive js_error : Type :=
| ETypeError
(** [new Error(`... '${JSON.stringify(args)}' ...`)]: the message is a fixed
    text around the serialised argument list, which is kept here. *)
| ENoMatch (serialized : string).

Inductive outcome : Type :=
| Invoked (f : nat) (args : list value)
| Raised (e : js_error).

(** [overloade.signatures] of [src/overloader.js]: a [Set] of fresh
    [[key, fn]] arrays, so a list in insertion order that keeps duplicates. *)
Definition ov_registry : Type := list (string * nat).

(** [add(...args)]: [key = args.join("-")]. *)
Definition ov_add (patterns : list string) (f : nat) (r : ov_registry) : ov_registry :=
  r ++ [(js_join "-" patterns, f)].

(** [overloade.signatures] of [src/TaskProcessor.js]: an [Object.create(null)]
    dictionary in creation order. *)
Definition tp_registry : Type := list (string * nat).

(** [add(...args)]: whitespace is removed from every pattern, the key
    [this.signatures[key] = fn] is overwritten in place. *)
Definition tp_add (patterns : list string) (f : nat) (r : tp_registry) : tp_registry :=
  assoc_set (js_join "-" (map strip_ws patterns)) f r.

Section Dispatch.
(** [JSON.stringify] on the argument list ([None] when it throws). *)
Variable JSON_stringify : list value -> option string.

Definition no_match (args : list value) : outcome :=
  match JSON_stringify args with
  | Some s => Raised (ENoMatch s)
  | None => Raised ETypeError
  end.

(** [for (const [signature, fn] of overloade.signatures) { ...
    if (signature === "any" || matchesSignature(args, typePatterns))
    return fn(...args); } throw ...] *)
Fixpoint ov_call_loop (sigs : ov_registry) (c : ov_cache) (args : list value)
    : outcome * ov_cache :=
  match sigs with
  | [] => (no_match args, c)
  | (signature, f) :: r =>
      if String.eqb signature "any" then (Invoked f args, c)
      else
        let '(res, args', c') := ov_matchesSignature c args (js_split "-" signature) in
        match res with
        | None => (Raised ETypeError, c')
        | Some true => (Invoked f args', c')
        | Some false => ov_call_loop r c' args'
        end
  end.

Definition ov_call (sigs : ov_registry) (c : ov_cache) (args : list value)
    : outcome * ov_cache :=
  ov_call_loop sigs c args.

(** [for (const [signature, fn] of Object.entries(signatures)) ...;
    if (any) return any(...args); throw ...] *)
Fixpoint tp_call_loop (entries : list (string * nat)) (any : option nat)
    (c : tp_cache) (args : list value) : outcome * tp_cache :=
  match entries with
  | [] =>
      match any with
      | Some f => (Invoked f args, c)
      | None => (no_match args, c)
      end
  | (signature, f) :: r =>
      let '(res, c') := tp_matchesSignature c args (js_split "-" signature) in
      match res with
      | None => (Raised ETypeError, c')
      | Some true => (Invoked f args, c')
      | Some false => tp_call_loop r any c' args
      end
  end.

(** [const { any, ...signatures } = overloade.signatures;]: the rest
    object keeps the own keys in [OrdinaryOwnPropertyKeys] order. *)
Definition tp_call (sigs : tp_registry) (c : tp_cache) (args : list value)
    : outcome * tp_cache :=
  tp_call_loop (List.filter (fun kv => negb (String.eqb kv.1 "any")) (js_own_keys_order sigs))
    (assoc_get "any" sigs) c args.
End Dispatch.

(* ================================================================== *)
(** * Auxiliary definitions for the statements *)

(** A numeric argument. *)
Definition num (z : Z) : value := VNum (z, 1%positive).

(** Values that are neither arrays nor records: [matchesTypeRecursive]
    of [src/overloader.js] has nothing to write into them. *)
Definition scalar (v : value) : bool :=
  match v with VArr _ | VObj _ => false | _ => true end.

(** [matchesType] on a fresh process ([parseType.cache] still empty). *)
Definition tp_matchesType_fresh (actual : value) (p : string) : mres :=
  (tp_matchesType ∅ actual p).1.

(** What the cache of [src/TaskProcessor.js] can hold: for every own key,
    the tree [parseType] builds for it; prototype names are never own keys. *)
Definition tp_cache_ok (c : tp_cache) : Prop :=
  forall k t, c !! k = Some t -> is_proto_name k = false /\ tp_parseType k = Some t.

(** The cache states of a running process: the empty cache, and whatever a
    [matchesType] call leaves (the only writer of the cache). *)
Inductive tp_reachable : tp_cache -> Prop :=
| tp_reach_empty : tp_reachable ∅
| tp_reach_step c a p : tp_reachable c -> tp_reachable (tp_matchesType c a p).2.

Inductive ov_reachable : ov_cache -> Prop :=
| ov_reach_empty : ov_reachable ∅
| ov_reach_step c a p : ov_reachable c -> ov_reachable (ov_matchesType c a p).2.

(** The entry of ["any"] in a cache of [src/overloader.js], when present, is
    the primitive node [any] with no writes. *)
Definition ov_any_ok (c : ov_cache) : Prop :=
  forall e, c !! "any" = Some e -> e = (TPrim "any" false, ∅).

(** [matchesType] answered [true] for each argument in turn, each call in
    the cache and on the argument left by the calls before it. *)
Inductive ov_all_match : ov_cache -> list value -> list string -> Prop :=
| ov_all_nil c ps : ov_all_match c [] ps
| ov_all_cons c a ar p pr a' c1 :
    ov_matchesType c a p = (RBool true, a', c1) ->
    ov_all_match c1 ar pr -> ov_all_match c (a :: ar) (p :: pr).






(** Induction over type nodes, with the children held in lists. *)
Section tnode_ind'.
Variable P : tnode -> Prop.
Hypothesis HUnion : forall ts, Forall P ts -> P (TUnion ts).
Hypothesis HArrH : forall e, P e -> P (TArrH e).
Hypothesis HArrX : forall ts, Forall P ts -> P (TArrX ts).
Hypothesis HLitArr : forall vs, P (TLitArr vs).
Hypothesis HObjIdx : forall k v, P k -> P v -> P (TObjIdx k v).
Hypothesis HObjProps : forall ps, Forall (fun kv => P kv.2.1) ps -> P (TObjProps ps).
Hypothesis HLit : forall l, P (TLit l).
Hypothesis HPrim : forall t o, P (TPrim t o).

Fixpoint tnode_ind' (t : tnode) : P t :=
  match t with
  | TUnion ts =>
      HUnion ts ((fix go (l : list tnode) : Forall P l :=
                    match l with
                    | [] => @List.Forall_nil tnode P
                    | x :: r => @List.Forall_cons tnode P x r (tnode_ind' x) (go r)
                    end) ts)
  | TArrH e => HArrH e (tnode_ind' e)
  | TArrX ts =>
      HArrX ts ((fix go (l : list tnode) : Forall P l :=
                   match l with
                   | [] => @List.Forall_nil tnode P
                   | x :: r => @List.Forall_cons tnode P x r (tnode_ind' x) (go r)
                   end) ts)
  | TLitArr vs => HLitArr vs
  | TObjIdx k v => HObjIdx k v (tnode_ind' k) (tnode_ind' v)
  | TObjProps ps =>
      HObjProps ps ((fix go (l : list (string * (tnode * bool)))
                       : Forall (fun kv => P kv.2.1) l :=
                       match l with
                       | [] => @List.Forall_nil _ (fun kv => P kv.2.1)
                       | x :: r =>
                           @List.Forall_cons _ (fun kv => P kv.2.1) x r (tnode_ind' x.2.1) (go r)
                       end) ps)
  | TLit l => HLit l
  | TPrim t o => HPrim t o
  end.
End tnode_ind'.

(* ------------------------------------------------------------------ *)
(** ** Auxiliary definitions for the further properties *)

(** An ASCII letter. *)
Definition is_letter (c : ascii) : bool :=
  let n := nat_of_ascii c in ((65 <=? n) && (n <=? 90)) || ((97 <=? n) && (n <=? 122)).

(** A plain type name: a non-empty word of letters other than the
    boolean literals. *)
Definition type_name (p : string) : bool :=
  negb (String.eqb p "") && forallb is_letter (list_ascii_of_string p)
  && negb (String.eqb p "true") && negb (String.eqb p "false").

(** The characters a numeric literal can contain. *)
Definition num_char (c : ascii) : bool := is_digit c || (c =? "-")%char || (c =? ".")%char.

(** A piece the splitters pass over in one go: no separator, quote or
    bracket, and already trimmed. *)
Definition plain_char (sym c : ascii) : bool :=
  negb ((c =? sym)%char || is_quote c || is_open c || is_close c).

Definition plain_piece (sym : ascii) (p : string) : bool :=
  forallb (plain_char sym) (list_ascii_of_string p) && String.eqb (trim p) p.

(** Whether a union of names accepts the type name [ty]. *)
Definition names_answer (ty : string) (ps : list string) : bool :=
  existsb (fun p => String.eqb "any" p || String.eqb ty p) ps.

(** The writes a cached tree of [src/overloader.js] can carry: none, and
    whatever a match of the whole tree leaves. *)
Inductive ov_mu_reach (t : tnode) : muts -> Prop :=
| ov_mu_empty : ov_mu_reach t ∅
| ov_mu_step mu a : ov_mu_reach t mu -> ov_mu_reach t (ov_match t [] a mu).2.

Definition ov_cache_ok (c : ov_cache) : Prop :=
  forall k t mu, c !! k = Some (t, mu) ->
    is_proto_name k = false /\ ov_parseType k = Some t /\ ov_mu_reach t mu.

(** [x - 1] on an integer-valued double [x]: the exact difference rounded
    to the nearest double, ties to an even significand.  A double of
    magnitude in [[2^k, 2^(k+1))] with [k >= 53] is a multiple of
    [2^(k-52)]; below [2^53] every integer is a double. *)
Definition js_round_int (y : Z) : Z :=
  let e := Z.max 0 (Z.log2 (Z.abs y) - 52) in
  if (e =? 0)%Z then y
  else
    let d := (2 ^ e)%Z in
    let q := (y / d)%Z in
    let r := (y mod d)%Z in
    if (2 * r <? d)%Z then (q * d)%Z
    else if (d <? 2 * r)%Z then ((q + 1) * d)%Z
    else if Z.even q then (q * d)%Z else ((q + 1) * d)%Z.

Definition js_decrement (x : Z) : Z := js_round_int (x - 1).

(** The retry loop of [TaskProcessor.runTasks]: a trace of the rounds
    ([executeTasksWithLimit]) and of the waits ([delay(waitTime)]).  A round
    is a parameter: [Some (isFulfilled, s')] when its promise settles with
    the new private state [s'], [None] when it never settles.  [maxRetry]
    is an integer-valued double, held as the integer it denotes;
    [maxRetry--] is the double decrement.  [None] is a loop that has not
    ended, within the fuel or because a round never settles. *)
Inductive run_event : Type :=
| ERound
| EDelay (seconds : Z).

Section RunTasks.
Context {Task R E : Type}.

Record tp_state : Type := mkState {
  fulfilledData : list (nat * R);
  pendingData : list (nat * E);
  failedIndexes : list nat;
  shouldStopAll : bool
}.

Variable executeTasksWithLimit : tp_state -> option (bool * tp_state).

Definition initializeState : tp_state := mkState [] [] [] false.

Fixpoint retry_loop (fuel : nat) (maxRetry waitTime : Z) (s : tp_state)
    : option (list run_event * tp_state) :=
  match fuel with
  | O => None
  | S f =>
      if negb (maxRetry =? 0)%Z && negb (shouldStopAll s) then
        match executeTasksWithLimit s with
        | None => None
        | Some (isFulfilled, s1) =>
            if isFulfilled then Some ([ERound], s1)
            else
              let m := js_decrement maxRetry in
              let d := if negb (m =? 0)%Z then [EDelay waitTime] else [] in
              match retry_loop f m waitTime s1 with
              | Some (tr, s2) => Some (ERound :: d ++ tr, s2)
              | None => None
              end
        end
      else Some ([], s)
  end.

Inductive run_result : Type :=
| RunEmpty
| RunDone (fulfilled : list R) (rejected : list E).

Definition resolvePromises (s : tp_state) : run_result :=
  RunDone (map snd (fulfilledData s)) (map snd (pendingData s)).

Definition runTasks (fuel : nat) (tasks : list Task) (maxRetry waitTime : Z)
    : option (list run_event * run_result) :=
  if nullb tasks then Some ([], RunEmpty)
  else match retry_loop fuel maxRetry waitTime initializeState with
       | Some (tr, s) => Some (tr, resolvePromises s)
       | None => None
       end.
End RunTasks.

(** The number of rounds in a trace. *)
Definition count_rounds (tr : list run_event) : nat :=
  length (List.filter (fun e => match e with ERound => true | EDelay _ => false end) tr).

(** The characters of a tuple of numeric literals. *)
Definition tuple_char (c : ascii) : bool :=
  num_char c || (c =? ",")%char || (c =? "[")%char || (c =? "]")%char.

(* ================================================================== *)
(** Two caches of [src/overloader.js] that agree on every pattern but the
    empty one. *)
Definition ov_sim (c1 c2 : ov_cache) : Prop :=
  forall k, k <> ""%string -> c1 !! k = c2 !! k.

(** * Lemmas *)

(** ** The matcher of [src/overloader.js] on scalar values *)

Lemma ov_match_scalar t :
  forall path v mu, scalar v = true -> (ov_match t path v mu).1.2 = v.
Proof.
  induction t using tnode_ind'; intros path v mu Hs;
    try (destruct v; try discriminate; reflexivity).
  - simpl. generalize 0 as i. revert mu.
    induction H as [|t ts Ht Hts IH]; intros mu i; [reflexivity|].
    simpl. destruct (ov_match t (i :: path) v mu) as [[res a'] mu'] eqn:E.
    pose proof (Ht (i :: path) v mu Hs) as Ha. rewrite E in Ha. simpl in Ha. subst a'.
    destruct res as [[|]|]; simpl; auto.
  - simpl. destruct o; reflexivity.
Qed.

(** An empty array tested against [T[]] becomes [[undefined]], and the
    answer is the one of [undefined] against [T]. *)
Lemma ov_match_empty_arrH e path mu :
  (ov_match (TArrH e) path (VArr []) mu).1.1 = (ov_match e (0 :: path) VUndef mu).1.1
  /\ (ov_match (TArrH e) path (VArr []) mu).2 = (ov_match e (0 :: path) VUndef mu).2
  /\ (ov_match (TArrH e) path (VArr []) mu).1.2 = VArr [VUndef].
Proof.
  simpl. destruct (ov_match e (0 :: path) VUndef mu) as [[r a] mu'] eqn:E.
  pose proof (ov_match_scalar e (0 :: path) VUndef mu eq_refl) as Hs.
  rewrite E in Hs. simpl in Hs. subst a.
  destruct r as [[|]|]; simpl; auto.
Qed.

(** ** The cache of [src/TaskProcessor.js] *)

Lemma tp_cache_ok_empty : tp_cache_ok ∅.
Proof. intros k t H. rewrite lookup_empty in H. discriminate. Qed.

Lemma tp_cached_ok c p :
  tp_cache_ok c -> (tp_cached c p).1 = (tp_cached ∅ p).1 /\ tp_cache_ok (tp_cached c p).2.
Proof.
  intros Hok. unfold tp_cached. rewrite lookup_empty.
  destruct (c !! p) as [t|] eqn:E.
  - destruct (Hok _ _ E) as [Hp Hparse]. rewrite Hp, Hparse. simpl. auto.
  - destruct (is_proto_name p) eqn:Hp; simpl; [auto|].
    destruct (tp_parseType p) as [t|] eqn:Hparse; simpl; split; auto.
    intros k t' Hk. apply lookup_insert_Some in Hk as [[<- <-]|[_ Hk]]; auto.
Qed.

Lemma tp_matchesType_ok c a p :
  tp_cache_ok c ->
  (tp_matchesType c a p).1 = tp_matchesType_fresh a p /\ tp_cache_ok (tp_matchesType c a p).2.
Proof.
  intros Hok. unfold tp_matchesType_fresh, tp_matchesType.
  destruct (tp_cached_ok c p Hok) as [H1 H2].
  destruct (tp_cached c p) as [r c'], (tp_cached ∅ p) as [r0 c0]. simpl in *. subst r0.
  destruct r; simpl; auto.
Qed.

Lemma tp_reachable_ok c : tp_reachable c -> tp_cache_ok c.
Proof.
  induction 1; [apply tp_cache_ok_empty|]. apply tp_matchesType_ok; auto.
Qed.

Lemma tp_matchesType_fresh_parsed a p t :
  is_proto_name p = false -> tp_parseType p = Some t ->
  tp_matchesType_fresh a p = mres_of (tp_match a t).
Proof.
  intros Hp Ht. unfold tp_matchesType_fresh, tp_matchesType, tp_cached.
  rewrite lookup_empty, Hp, Ht. reflexivity.
Qed.

(** A [matchesType] call writes at most the tree of its own pattern. *)
Lemma tp_matchesType_cache c a p :
  (tp_matchesType c a p).2 = c
  \/ (c !! p = None /\ exists t, tp_parseType p = Some t /\ (tp_matchesType c a p).2 = <[p := t]> c).
Proof.
  unfold tp_matchesType, tp_cached.
  destruct (c !! p) eqn:E; simpl; auto.
  destruct (is_proto_name p); simpl; auto.
  destruct (tp_parseType p) eqn:Ht; simpl; eauto.
Qed.

Lemma tp_sig_loop_indep c c' args ps :
  tp_cache_ok c -> tp_cache_ok c' ->
  (tp_sig_loop c args ps).1 = (tp_sig_loop c' args ps).1 /\ tp_cache_ok (tp_sig_loop c args ps).2.
Proof.
  revert c c' ps. induction args as [|a ar IH]; intros c c' [|p pr] Hc Hc'; simpl; auto.
  destruct (tp_matchesType_ok c a p Hc) as [E1 O1].
  destruct (tp_matchesType_ok c' a p Hc') as [E2 O2].
  destruct (tp_matchesType c a p) as [r c1], (tp_matchesType c' a p) as [r' c1'].
  simpl in *. subst r r'.
  destruct (tp_matchesType_fresh a p) as [[|]| |]; simpl; auto.
Qed.

Lemma tp_matchesSignature_indep c c' args ps :
  tp_cache_ok c -> tp_cache_ok c' ->
  (tp_matchesSignature c args ps).1 = (tp_matchesSignature c' args ps).1
  /\ tp_cache_ok (tp_matchesSignature c args ps).2.
Proof.
  intros Hc Hc'. unfold tp_matchesSignature.
  destruct (length args <? requiredCount ps); simpl; auto.
  destruct (length ps <? length args); simpl; auto.
  apply tp_sig_loop_indep; auto.
Qed.

Lemma tp_call_loop_indep J es any c c' args :
  tp_cache_ok c -> tp_cache_ok c' ->
  (tp_call_loop J es any c args).1 = (tp_call_loop J es any c' args).1.
Proof.
  revert c c'. induction es as [|[k f] r IH]; intros c c' Hc Hc'; simpl.
  - destruct any; reflexivity.
  - destruct (tp_matchesSignature_indep c c' args (js_split "-" k) Hc Hc') as [E O].
    destruct (tp_matchesSignature_indep c' c args (js_split "-" k) Hc' Hc) as [_ O'].
    destruct (tp_matchesSignature c args (js_split "-" k)) as [res c1],
      (tp_matchesSignature c' args (js_split "-" k)) as [res' c1'].
    simpl in *. subst res'. destruct res as [[|]|]; simpl; auto.
Qed.

(** The outcome of a dispatch does not depend on the cache state. *)
Lemma tp_call_indep J sigs c args :
  tp_cache_ok c -> (tp_call J sigs c args).1 = (tp_call J sigs ∅ args).1.
Proof. intros Hc. apply tp_call_loop_indep; auto using tp_cache_ok_empty. Qed.

Lemma tp_call_reachable J sigs c args :
  tp_reachable c -> (tp_call J sigs c args).1 = (tp_call J sigs ∅ args).1.
Proof. intros Hc. apply tp_call_indep, tp_reachable_ok; auto. Qed.

(** ** [matchesSignature] *)

Lemma tp_matchesSignature_arity c args ps :
  length args < requiredCount ps \/ length ps < length args ->
  tp_matchesSignature c args ps = (Some false, c).
Proof.
  unfold tp_matchesSignature. intros [H|H].
  - rewrite (proj2 (Nat.ltb_lt _ _) H). reflexivity.
  - destruct (length args <? requiredCount ps); [reflexivity|].
    rewrite (proj2 (Nat.ltb_lt _ _) H). reflexivity.
Qed.

Lemma tp_matchesSignature_loop c args ps :
  requiredCount ps <= length args <= length ps ->
  tp_matchesSignature c args ps = tp_sig_loop c args ps.
Proof.
  unfold tp_matchesSignature. intros [H1 H2].
  rewrite (proj2 (Nat.ltb_ge _ _) H1), (proj2 (Nat.ltb_ge _ _) H2). reflexivity.
Qed.

Lemma tp_sig_loop_iff c args ps :
  tp_cache_ok c -> length args <= length ps ->
  ((tp_sig_loop c args ps).1 = Some true <->
   forall i a p, args !! i = Some a -> ps !! i = Some p -> tp_matchesType_fresh a p = RBool true).
Proof.
  revert c ps. induction args as [|a ar IH]; intros c ps Hc Hlen.
  - simpl. split; auto. intros _ i a p Ha. rewrite lookup_nil in Ha. discriminate.
  - destruct ps as [|p pr]; [simpl in Hlen; lia|].
    simpl. destruct (tp_matchesType_ok c a p Hc) as [E O].
    destruct (tp_matchesType c a p) as [r c1]. simpl in *. subst r.
    destruct (tp_matchesType_fresh a p) as [[|]| |] eqn:F; simpl.
    + rewrite IH by (auto; lia). split.
      * intros H [|i] a' p' Ha Hp; simpl in *; [congruence|eauto].
      * intros H i a' p' Ha Hp. apply (H (S i)); auto.
    + split; [discriminate|]. intros H. specialize (H 0 a p eq_refl eq_refl). congruence.
    + split; [discriminate|]. intros H. specialize (H 0 a p eq_refl eq_refl). congruence.
    + split; [discriminate|]. intros H. specialize (H 0 a p eq_refl eq_refl). congruence.
Qed.

Lemma ov_matchesSignature_arity c args ps :
  length args < requiredCount ps \/ length ps < length args ->
  ov_matchesSignature c args ps = (Some false, args, c).
Proof.
  unfold ov_matchesSignature. intros [H|H].
  - rewrite (proj2 (Nat.ltb_lt _ _) H). reflexivity.
  - destruct (length args <? requiredCount ps); [reflexivity|].
    rewrite (proj2 (Nat.ltb_lt _ _) H). reflexivity.
Qed.

Lemma ov_matchesSignature_loop c args ps :
  requiredCount ps <= length args <= length ps ->
  ov_matchesSignature c args ps = ov_sig_loop c args ps.
Proof.
  unfold ov_matchesSignature. intros [H1 H2].
  rewrite (proj2 (Nat.ltb_ge _ _) H1), (proj2 (Nat.ltb_ge _ _) H2). reflexivity.
Qed.

Lemma ov_sig_loop_iff c args ps :
  length args <= length ps ->
  ((ov_sig_loop c args ps).1.1 = Some true <-> ov_all_match c args ps).
Proof.
  revert c ps. induction args as [|a ar IH]; intros c ps Hlen.
  - simpl. split; auto. intros _. constructor.
  - destruct ps as [|p pr]; [simpl in Hlen; lia|].
    simpl. destruct (ov_matchesType c a p) as [[r a'] c1] eqn:E.
    destruct r as [[|]| |]; simpl.
    + destruct (ov_sig_loop c1 ar pr) as [[res ar'] c2] eqn:E2. simpl. split.
      * intros H. econstructor; [exact E|]. apply IH; [simpl in Hlen; lia|]. rewrite E2. auto.
      * intros H. inversion H as [|? ? ? ? ? a'' c1' Hm Hrest]; subst.
        rewrite E in Hm. injection Hm as <- <-.
        apply IH in Hrest; [|simpl in Hlen; lia]. rewrite E2 in Hrest. auto.
    + split; [discriminate|]. intros H. inversion H as [|? ? ? ? ? a'' c1' Hm]; subst. congruence.
    + split; [discriminate|]. intros H. inversion H as [|? ? ? ? ? a'' c1' Hm]; subst. congruence.
    + split; [discriminate|]. intros H. inversion H as [|? ? ? ? ? a'' c1' Hm]; subst. congruence.
Qed.

Lemma requiredCount_all_optional ps :
  Forall (fun p => includes_char "?" p = true) ps -> requiredCount ps = 0.
Proof.
  unfold requiredCount. induction 1 as [|p ps Hp _ IH]; simpl; auto.
  rewrite Hp. simpl. exact IH.
Qed.

Lemma tp_matchesSignature_no_args c ps :
  requiredCount ps = 0 -> tp_matchesSignature c [] ps = (Some true, c).
Proof. intros H. unfold tp_matchesSignature. rewrite H. reflexivity. Qed.

Lemma ov_matchesSignature_no_args c ps :
  requiredCount ps = 0 -> ov_matchesSignature c [] ps = (Some true, [], c).
Proof. intros H. unfold ov_matchesSignature. rewrite H. reflexivity. Qed.

(** ** The registries and the dispatch loops *)




Lemma assoc_set_twice {A} k (v1 v2 : A) l :
  assoc_set k v2 (assoc_set k v1 l) = assoc_set k v2 l.
Proof.
  induction l as [|[k' v'] r IH]; simpl.
  - rewrite String.eqb_refl. reflexivity.
  - destruct (String.eqb k k') eqn:E; simpl.
    + rewrite String.eqb_refl. reflexivity.
    + rewrite E, IH. reflexivity.
Qed.

Lemma assoc_get_set {A} k (v : A) l : assoc_get k (assoc_set k v l) = Some v.
Proof.
  induction l as [|[k' v'] r IH]; simpl.
  - rewrite String.eqb_refl. reflexivity.
  - destruct (String.eqb k k') eqn:E; simpl.
    + rewrite String.eqb_refl. reflexivity.
    + rewrite E. exact IH.
Qed.

Lemma tp_call_loop_args J es any c args f args' :
  (tp_call_loop J es any c args).1 = Invoked f args' -> args' = args.
Proof.
  revert c. induction es as [|[k g] r IH]; intros c; simpl.
  - destruct any; simpl; [congruence|]. unfold no_match. destruct (J args); discriminate.
  - destruct (tp_matchesSignature c args (js_split "-" k)) as [[[|]|] c']; simpl;
      [congruence|eauto|discriminate].
Qed.

Lemma tp_call_loop_nomatch J es any c args s :
  (tp_call_loop J es any c args).1 = Raised (ENoMatch s) -> any = None /\ J args = Some s.
Proof.
  revert c. induction es as [|[k g] r IH]; intros c; simpl.
  - destruct any; simpl; [discriminate|]. unfold no_match.
    destruct (J args); simpl; intros H; inversion H; auto.
  - destruct (tp_matchesSignature c args (js_split "-" k)) as [[[|]|] c']; simpl;
      [discriminate|eauto|discriminate].
Qed.

Lemma ov_call_loop_nomatch J sigs c args s :
  (ov_call_loop J sigs c args).1 = Raised (ENoMatch s) -> Forall (fun kv => kv.1 <> "any") sigs.
Proof.
  revert c args. induction sigs as [|[k g] r IH]; intros c args; simpl; [constructor|].
  destruct (String.eqb k "any") eqn:E; [discriminate|]. apply String.eqb_neq in E.
  destruct (ov_matchesSignature c args (js_split "-" k)) as [[[[|]|] a'] c']; simpl;
    try discriminate; intros H; constructor; eauto.
Qed.

(** ** The ["any"] pattern *)

Lemma ov_parseType_any : ov_parseType "any" = Some (TPrim "any" false).
Proof. reflexivity. Qed.

Lemma ov_reachable_any c : ov_reachable c -> ov_any_ok c.
Proof.
  induction 1 as [|c a p _ IH].
  - intros e He. rewrite lookup_empty in He. discriminate.
  - unfold ov_matchesType, ov_cached. destruct (c !! p) as [[t mu]|] eqn:E.
    + destruct (ov_match t [] a mu) as [[r a'] mu'] eqn:M. simpl.
      intros e He. apply lookup_insert_Some in He as [[Hp <-]|[_ He]]; auto.
      subst p. injection (IH _ E) as -> ->. simpl in M. inversion M; subst. auto.
    + destruct (is_proto_name p); simpl; auto.
      destruct (ov_parseType p) as [t|] eqn:P; simpl; auto.
      destruct (ov_match t [] a ∅) as [[r a'] mu'] eqn:M; simpl.
      intros e He. apply lookup_insert_Some in He as [[Hp <-]|[Hne He]].
      * subst p. rewrite ov_parseType_any in P. injection P as <-. simpl in M. inversion M; subst. auto.
      * apply lookup_insert_Some in He as [[? _]|[_ He]]; [congruence|auto].
Qed.

(** ** Empty arrays in [src/TaskProcessor.js] *)


(** ** The cache lookup of [src/TaskProcessor.js] returns what it stored *)

Lemma tp_cached_again c p t c' :
  tp_cached c p = (CNode t, c') -> tp_cached c' p = (CNode t, c').
Proof.
  unfold tp_cached. destruct (c !! p) as [t0|] eqn:E.
  - intros H. inversion H; subst. rewrite E. reflexivity.
  - destruct (is_proto_name p); [discriminate|].
    destruct (tp_parseType p); [|discriminate].
    intros H. inversion H; subst. rewrite lookup_insert_eq. reflexivity.
Qed.

(** ** [parseType] always answers: the fuel [length s + 1] is enough *)

Lemma length_string_of_list_ascii l : String.length (string_of_list_ascii l) = length l.
Proof. induction l; simpl; auto. Qed.

Lemma length_list_ascii_of_string s : length (list_ascii_of_string s) = String.length s.
Proof. induction s; simpl; auto. Qed.

Lemma drop_ws_length l : length (drop_ws l) <= length l.
Proof. induction l as [|c r IH]; simpl; auto. destruct (is_js_space c); simpl; lia. Qed.

Lemma trim_length s : String.length (trim s) <= String.length s.
Proof.
  unfold trim. rewrite length_string_of_list_ascii, length_rev.
  etrans; [apply drop_ws_length|]. rewrite length_rev.
  etrans; [apply drop_ws_length|]. rewrite length_list_ascii_of_string. lia.
Qed.

Lemma substring_length n m s : String.length (substring n m s) <= m.
Proof.
  revert n m. induction s as [|c s IH]; intros [|n] [|m]; simpl; auto; try lia.
  specialize (IH 0 m). lia.
Qed.

Lemma cur_text_length cur : String.length (cur_text cur) <= length cur.
Proof.
  unfold cur_text. etrans; [apply trim_length|].
  rewrite length_string_of_list_ascii, length_rev. lia.
Qed.

Lemma ov_split_go_length sep N l res cur d q :
  length cur + length l + (if nullb res then 0 else 1) <= N ->
  (forall p, In p res -> String.length p < N) ->
  (forall p, In p (ov_split_go sep l res cur d q) -> String.length p <= N)
  /\ (2 <= length (ov_split_go sep l res cur d q) ->
      forall p, In p (ov_split_go sep l res cur d q) -> String.length p < N).
Proof.
  revert res cur d q. induction l as [|c r IH]; intros res cur d q Hn Hres; simpl.
  - pose proof (cur_text_length cur) as Hc.
    assert (Hr : forall p, In p (List.rev res) -> String.length p < N)
      by (intros p Hp; apply Hres, in_rev, Hp).
    destruct (String.eqb (cur_text cur) "").
    + split; intros; [apply Nat.lt_le_incl|]; apply Hr; auto.
    + destruct res as [|x res'].
      * simpl in *. split; [intros p [<-|[]]; lia | intros H; lia].
      * simpl in Hn.
        assert (Hr' : forall p, In p (List.rev (cur_text cur :: x :: res')) -> String.length p < N).
        { intros p Hp. apply in_rev in Hp. destruct Hp as [<-|Hp]; [lia|apply Hres; auto]. }
        split; intros; [apply Nat.lt_le_incl|]; apply Hr'; auto.
  - simpl in Hn.
    assert (Hpush : forall p, In p (cur_text cur :: res) -> String.length p < N).
    { intros p [<-|Hp]; [pose proof (cur_text_length cur); destruct (nullb res); lia|auto]. }
    destruct (quote_step q c);
      [|destruct (is_open c); [|destruct (is_close c); [|destruct ((c =? sep)%char && (d =? 0)%Z)]]];
      apply IH; simpl; auto; destruct (nullb res); lia.
Qed.

Lemma tp_split_go_length sym N l res cur d cs q :
  length cur + length l + (if nullb res then 0 else 1) <= N ->
  (forall p, In p res -> String.length p < N) ->
  (forall p, In p (tp_split_go sym l res cur d cs q) -> String.length p <= N)
  /\ (2 <= length (tp_split_go sym l res cur d cs q) ->
      forall p, In p (tp_split_go sym l res cur d cs q) -> String.length p < N).
Proof.
  revert res cur d cs q. induction l as [|c r IH]; intros res cur d cs q Hn Hres; simpl.
  - pose proof (cur_text_length cur) as Hc.
    destruct res as [|x res'].
    + simpl in *. split; [intros p [<-|[]]; lia | intros H; lia].
    + simpl in Hn.
      assert (Hr' : forall p, In p (List.rev (cur_text cur :: x :: res')) -> String.length p < N).
      { intros p Hp. apply in_rev in Hp. destruct Hp as [<-|Hp]; [lia|apply Hres; auto]. }
      split; intros; [apply Nat.lt_le_incl|]; apply Hr'; auto.
  - simpl in Hn.
    assert (Hpush : forall p, In p (cur_text cur :: res) -> String.length p < N).
    { intros p [<-|Hp]; [pose proof (cur_text_length cur); destruct (nullb res); lia|auto]. }
    destruct (if is_quote c then _ else _) as [cs' q'].
    destruct (is_open c); [|destruct (is_close c); [|destruct (cs' && (c =? sym)%char && (d =? 0)%Z)]];
      apply IH; simpl; auto; destruct (nullb res); lia.
Qed.

Lemma ov_split_lt sep t :
  2 <= length (ov_split sep t) -> forall p, In p (ov_split sep t) -> String.length p < String.length t.
Proof.
  unfold ov_split. apply ov_split_go_length; [rewrite length_list_ascii_of_string; simpl; lia|intros _ []].
Qed.

Lemma ov_split_le sep t :
  forall p, In p (ov_split sep t) -> String.length p <= String.length t.
Proof.
  unfold ov_split. apply ov_split_go_length; [rewrite length_list_ascii_of_string; simpl; lia|intros _ []].
Qed.

Lemma tp_split_lt sym t :
  2 <= length (tp_splitAny sym t) -> forall p, In p (tp_splitAny sym t) -> String.length p < String.length t.
Proof.
  unfold tp_splitAny. apply tp_split_go_length; [rewrite length_list_ascii_of_string; simpl; lia|intros _ []].
Qed.

Lemma tp_split_le sym t :
  forall p, In p (tp_splitAny sym t) -> String.length p <= String.length t.
Proof.
  unfold tp_splitAny. apply tp_split_go_length; [rewrite length_list_ascii_of_string; simpl; lia|intros _ []].
Qed.

Lemma rx_ws_star_spec {R} (k : list ascii -> option R) l x :
  rx_ws_star k l = Some x -> exists l', length l' <= length l /\ k l' = Some x.
Proof.
  induction l as [|c r IH]; simpl.
  - intros H. exists []. auto.
  - destruct (is_js_space c).
    + destruct (rx_ws_star k r) as [y|] eqn:E; intros H.
      * injection H as ->. destruct (IH eq_refl) as [l' [Hl Hk]]. exists l'. simpl. split; [lia|auto].
      * exists (c :: r). auto.
    + intros H. exists (c :: r). auto.
Qed.

Lemma rx_char_spec {R} c (k : list ascii -> option R) l x :
  rx_char c k l = Some x -> exists l', length l' < length l /\ k l' = Some x.
Proof.
  destruct l as [|d r]; simpl; [discriminate|].
  destruct (d =? c)%char; [|discriminate]. intros H. exists r. simpl. split; [lia|auto].
Qed.

Lemma rx_lazy_plus_spec {R} (k : list ascii -> list ascii -> option R) l acc x :
  rx_lazy_plus acc k l = Some x ->
  exists g l', length g + length l' <= length acc + length l /\ k g l' = Some x.
Proof.
  revert acc. induction l as [|c r IH]; intros acc; simpl; [discriminate|].
  destruct (is_regex_dot c); [|discriminate].
  destruct (k (acc ++ [c]) r) as [y|] eqn:E; intros H.
  - injection H as ->. exists (acc ++ [c]), r. rewrite length_app. simpl. split; [lia|auto].
  - destruct (IH _ H) as [g [l' [Hl Hk]]]. exists g, l'. rewrite length_app in Hl. simpl in *. split; [lia|auto].
Qed.

Lemma rx_dot_plus_end_spec {R} (k : list ascii -> option R) l x :
  rx_dot_plus_end k l = Some x -> k l = Some x.
Proof. unfold rx_dot_plus_end. destruct (_ && _); [auto|discriminate]. Qed.

Lemma index_sig_match_length content g1 g2 g3 :
  index_sig_match content = Some (g1, g2, g3) ->
  String.length g2 <= String.length content /\ String.length g3 <= String.length content.
Proof.
  unfold index_sig_match. intros H.
  apply rx_ws_star_spec in H as [l1 [H1 H]].
  apply rx_char_spec in H as [l2 [H2 H]].
  apply rx_lazy_plus_spec in H as [a [l3 [H3 H]]]. cbv beta in H.
  apply rx_char_spec in H as [l4 [H4 H]].
  apply rx_ws_star_spec in H as [l5 [H5 H]].
  apply rx_lazy_plus_spec in H as [b [l6 [H6 H]]]. cbv beta in H.
  apply rx_char_spec in H as [l7 [H7 H]].
  apply rx_ws_star_spec in H as [l8 [H8 H]].
  apply rx_char_spec in H as [l9 [H9 H]].
  apply rx_ws_star_spec in H as [l10 [H10 H]].
  apply rx_dot_plus_end_spec in H. injection H as <- <- <-.
  rewrite !length_string_of_list_ascii. rewrite length_list_ascii_of_string in H1.
  simpl in *. lia.
Qed.

Lemma ends_with_brackets_length t : ends_with_brackets t = true -> 2 <= String.length t.
Proof. unfold ends_with_brackets. intros H. apply andb_prop in H as [H _]. apply Nat.leb_le, H. Qed.

Lemma starts_with_char_length c t : starts_with_char c t = true -> 1 <= String.length t.
Proof. destruct t; simpl; [discriminate|lia]. Qed.

Lemma slice_inner_length t : 1 <= String.length t -> String.length (slice_inner t) < String.length t.
Proof. unfold slice_inner. pose proof (substring_length 1 (String.length t - 2) t). lia. Qed.

Lemma mapM_some_all (rec : string -> option tnode) parts :
  (forall p, In p parts -> is_Some (rec p)) -> is_Some (mapM rec parts).
Proof.
  intros H. apply mapM_is_Some_2, Forall_forall. intros p Hp. apply H, list_elem_of_In, Hp.
Qed.

Lemma rule_union_total split rec t :
  (2 <= length (split t) -> forall p, In p (split t) -> String.length p < String.length t) ->
  (forall r, String.length r < String.length t -> is_Some (rec r)) ->
  rule_union split rec t <> Some None.
Proof.
  intros Hsplit Hrec. unfold rule_union.
  destruct (negb (includes_char "|" t)); [discriminate|].
  destruct (length (split t) <=? 1) eqn:E; [discriminate|]. apply Nat.leb_gt in E.
  destruct (mapM_some_all rec (split t)) as [y Hy].
  { intros p Hp. apply Hrec, Hsplit; auto; lia. }
  rewrite Hy. discriminate.
Qed.

Lemma ov_rule_array_total rec t :
  (forall r, String.length r < String.length t -> is_Some (rec r)) ->
  ov_rule_array rec t <> Some None.
Proof.
  intros Hrec. unfold ov_rule_array.
  destruct (ends_with_brackets t) eqn:Eb; simpl; [|discriminate].
  apply ends_with_brackets_length in Eb.
  assert (He : String.length (slice_drop2 t) < String.length t)
    by (pose proof (substring_length 0 (String.length t - 2) t); unfold slice_drop2; lia).
  destruct (starts_with_char "(" (slice_drop2 t) && ends_with_char ")" (slice_drop2 t)) eqn:Ep.
  - apply andb_prop in Ep as [Ep _]. apply starts_with_char_length in Ep.
    pose proof (slice_inner_length _ Ep).
    destruct (Hrec (slice_inner (slice_drop2 t))) as [y Hy]; [lia|]. rewrite Hy. discriminate.
  - destruct (Hrec (slice_drop2 t)) as [y Hy]; [lia|]. rewrite Hy. discriminate.
Qed.

Lemma tp_rule_array_total rec t :
  (forall r, String.length r < String.length t -> is_Some (rec r)) ->
  (ends_with_brackets t = true -> is_Some (rec "array")) ->
  tp_rule_array rec t <> Some None.
Proof.
  intros Hrec Harr. unfold tp_rule_array.
  destruct (ends_with_brackets t) eqn:Eb; simpl; [|discriminate].
  specialize (Harr eq_refl). apply ends_with_brackets_length in Eb.
  assert (He : String.length (slice_drop2 t) < String.length t)
    by (pose proof (substring_length 0 (String.length t - 2) t); unfold slice_drop2; lia).
  destruct (String.eqb (slice_drop2 t) "") eqn:E0.
  - simpl. destruct Harr as [y Hy]. rewrite Hy. discriminate.
  - destruct (starts_with_char "(" (slice_drop2 t) && ends_with_char ")" (slice_drop2 t)) eqn:Ep.
    + apply andb_prop in Ep as [Ep _]. apply starts_with_char_length in Ep.
      pose proof (slice_inner_length _ Ep).
      destruct (Hrec (slice_inner (slice_drop2 t))) as [y Hy]; [lia|]. rewrite Hy. discriminate.
    + destruct (Hrec (slice_drop2 t)) as [y Hy]; [lia|]. rewrite Hy. discriminate.
Qed.

Lemma ov_rule_paren_total rec t :
  (forall r, String.length r < String.length t -> is_Some (rec r)) ->
  ov_rule_paren rec t <> Some None.
Proof.
  intros Hrec. unfold ov_rule_paren.
  destruct (starts_with_char "(" t && ends_with_char ")" t) eqn:Ep; simpl; [|discriminate].
  apply andb_prop in Ep as [Ep _]. apply starts_with_char_length in Ep.
  destruct (Hrec (slice_inner t)) as [y Hy]; [apply slice_inner_length; auto|].
  rewrite Hy. discriminate.
Qed.

Lemma rule_bracket_total split rec t :
  (forall u p, In p (split u) -> String.length p <= String.length u) ->
  (forall r, String.length r < String.length t -> is_Some (rec r)) ->
  rule_bracket split rec t <> Some None.
Proof.
  intros Hsplit Hrec. unfold rule_bracket.
  destruct (starts_with_char "[" t && ends_with_char "]" t) eqn:Ep; simpl; [|discriminate].
  apply andb_prop in Ep as [Ep _]. apply starts_with_char_length, slice_inner_length in Ep.
  destruct (forallb _ _); [discriminate|].
  destruct (mapM_some_all rec (split (slice_inner t))) as [y Hy].
  { intros p Hp. apply Hrec. pose proof (Hsplit _ _ Hp). lia. }
  rewrite Hy. discriminate.
Qed.

Lemma add_property_total rec ps prop :
  (forall r, String.length r <= String.length prop -> is_Some (rec r)) ->
  exists ps', add_property rec (Some ps) prop = Some ps'.
Proof.
  intros Hrec. unfold add_property.
  destruct (findPropertyColon prop) as [ci|]; [|eauto].
  destruct (0 <? ci); [|eauto]. cbv zeta.
  destruct (Hrec (trim (substring (S ci) (String.length prop - S ci) prop))) as [tn Htn].
  { etrans; [apply trim_length|]. etrans; [apply substring_length|]. lia. }
  rewrite Htn. simpl. eauto.
Qed.

Lemma fold_add_property_total rec L parts ps :
  (forall r, String.length r < L -> is_Some (rec r)) ->
  (forall p, In p parts -> String.length p < L) ->
  is_Some (fold_left (add_property rec) parts (Some ps)).
Proof.
  intros Hrec. revert ps. induction parts as [|p parts IH]; intros ps Hparts; cbn [fold_left]; [eauto|].
  destruct (add_property_total rec ps p) as [ps' ->].
  { intros r Hr. apply Hrec. pose proof (Hparts p (or_introl eq_refl)). lia. }
  apply IH. intros q Hq. apply Hparts. right. exact Hq.
Qed.

Lemma rule_object_total split rec t :
  (forall u p, In p (split u) -> String.length p <= String.length u) ->
  (forall r, String.length r < String.length t -> is_Some (rec r)) ->
  rule_object split rec t <> Some None.
Proof.
  intros Hsplit Hrec. unfold rule_object.
  destruct (starts_with_char "{" t && ends_with_char "}" t) eqn:Ep; simpl; [|discriminate].
  apply andb_prop in Ep as [Ep _]. apply starts_with_char_length, slice_inner_length in Ep.
  destruct (index_sig_match (slice_inner t)) as [[[g1 g2] g3]|] eqn:Em.
  - apply index_sig_match_length in Em as [E2 E3].
    destruct (Hrec (trim g2)) as [kt Hk]; [pose proof (trim_length g2); lia|].
    destruct (Hrec (trim g3)) as [vt Hv]; [pose proof (trim_length g3); lia|].
    rewrite Hk, Hv. discriminate.
  - destruct (fold_add_property_total rec (String.length t) (split (slice_inner t)) []) as [y Hy]; auto.
    { intros p Hp. pose proof (Hsplit _ _ Hp). lia. }
    rewrite Hy. discriminate.
Qed.

Lemma rule_literal_total t : rule_literal t <> Some None.
Proof.
  unfold rule_literal.
  destruct (is_num_lit t); [discriminate|]. destruct (is_quoted_lit t); [discriminate|].
  destruct (_ || _); discriminate.
Qed.

Lemma first_rule_total rules t :
  Forall (fun r : rule => r t <> Some None) rules ->
  is_Some (first_rule (rules ++ [rule_primitive]) t).
Proof.
  induction 1 as [|r rs Hr _ IH]; simpl; [eauto|].
  destruct (r t) as [[x|]|]; [eauto|congruence|exact IH].
Qed.

Lemma ov_parse_fuel_total n s : String.length s < n -> is_Some (ov_parse_fuel n s).
Proof.
  revert s. induction n as [|n IH]; intros s Hs; [lia|]. simpl.
  pose proof (trim_length s) as Ht.
  assert (Hrec : forall r, String.length r < String.length (trim s) -> is_Some (ov_parse_fuel n r))
    by (intros r Hr; apply IH; lia).
  apply (first_rule_total
    [rule_union ov_splitUnionTypes (ov_parse_fuel n); ov_rule_array (ov_parse_fuel n);
     ov_rule_paren (ov_parse_fuel n); rule_bracket ov_splitArrayElements (ov_parse_fuel n);
     rule_object ov_splitArrayElements (ov_parse_fuel n); rule_literal]).
  repeat apply List.Forall_cons; try apply List.Forall_nil.
  - apply rule_union_total; [apply ov_split_lt|exact Hrec].
  - apply ov_rule_array_total, Hrec.
  - apply ov_rule_paren_total, Hrec.
  - apply rule_bracket_total; [apply ov_split_le|exact Hrec].
  - apply rule_object_total; [apply ov_split_le|exact Hrec].
  - apply rule_literal_total.
Qed.

Lemma tp_parse_fuel_total n s : String.length s < n -> is_Some (tp_parse_fuel n s).
Proof.
  revert s. induction n as [|n IH]; intros s Hs; [lia|]. simpl.
  pose proof (trim_length s) as Ht.
  assert (Hrec : forall r, String.length r < String.length (trim s) -> is_Some (tp_parse_fuel n r))
    by (intros r Hr; apply IH; lia).
  assert (Harr : ends_with_brackets (trim s) = true -> is_Some (tp_parse_fuel n "array")).
  { intros Eb. apply ends_with_brackets_length in Eb.
    destruct n as [|n]; [lia|]. eexists. reflexivity. }
  apply (first_rule_total
    [rule_union tp_splitUnionTypes (tp_parse_fuel n); tp_rule_array (tp_parse_fuel n);
     rule_bracket tp_splitArrayElements (tp_parse_fuel n);
     rule_object tp_splitArrayElements (tp_parse_fuel n); rule_literal]).
  repeat apply List.Forall_cons; try apply List.Forall_nil.
  - apply rule_union_total; [apply tp_split_lt|exact Hrec].
  - apply tp_rule_array_total; [exact Hrec|exact Harr].
  - apply rule_bracket_total; [apply tp_split_le|exact Hrec].
  - apply rule_object_total; [apply tp_split_le|exact Hrec].
  - apply rule_literal_total.
Qed.








Lemma assoc_set_in_place {A} k (v v' : A) r1 r2 :
  ~ In k (map fst r1) -> assoc_set k v' (r1 ++ (k, v) :: r2) = r1 ++ (k, v') :: r2.
Proof.
  induction r1 as [|[k1 w] r IH]; intros H; simpl.
  - rewrite String.eqb_refl. reflexivity.
  - simpl in H. destruct (String.eqb_spec k k1) as [->|Hk]; [tauto|].
    rewrite IH by tauto. reflexivity.
Qed.

(* ================================================================== *)
(** * The claims *)

(** ** Dispatch order *)




(** ** Re-registration *)

(** C2 (counterexample): [src/overloader.js] keeps both registrations of the
    key ["number"] and the earlier one answers: after [add("number", f1)] and
    [add("number", f4)], a call with one number invokes [f1]. *)
Lemma C2_counterexample :
  (ov_call (fun _ => None) (ov_add ["number"] 4 (ov_add ["number"] 1 [])) ∅ [num 5]).1
  = Invoked 1 [num 5].
Proof. vm_compute. reflexivity. Qed.

(** C2: in [src/TaskProcessor.js] a second [add] with the same key (after
    whitespace removal) replaces the implementation in place: the registry
    is the one the second registration alone gives, and the key is bound to
    the new implementation, and the entry keeps its position (the entries
    before it and after it are unchanged); after [add("number", f1)] and
    [add("number", f4)] a call with one number invokes [f4] in every cache
    state.  In [src/overloader.js] both entries stay, in registration
    order. *)
Theorem C2_reregistration :
  (forall ps f1 f4 r, tp_add ps f4 (tp_add ps f1 r) = tp_add ps f4 r)
  /\ (forall ps f r, assoc_get (js_join "-" (map strip_ws ps)) (tp_add ps f r) = Some f)
  /\ (forall J c, tp_reachable c ->
        (tp_call J (tp_add ["number"] 4 (tp_add ["number"] 1 [])) c [num 5]).1
        = Invoked 4 [num 5])
  /\ (forall ps f1 f4 r,
        ov_add ps f4 (ov_add ps f1 r) = r ++ [(js_join "-" ps, f1); (js_join "-" ps, f4)])
  /\ (forall ps f f' r1 r2,
        ~ In (js_join "-" (map strip_ws ps)) (map fst r1) ->
        tp_add ps f' (r1 ++ (js_join "-" (map strip_ws ps), f) :: r2)
        = r1 ++ (js_join "-" (map strip_ws ps), f') :: r2).
Proof.
  split; [|split; [|split; [|split]]].
  - intros. apply assoc_set_twice.
  - intros. apply assoc_get_set.
  - intros J c Hc. rewrite (tp_call_reachable J _ c) by exact Hc. vm_compute. reflexivity.
  - intros. unfold ov_add. rewrite <- app_assoc. reflexivity.
  - intros ps f f' r1 r2 H. unfold tp_add. apply assoc_set_in_place, H.
Qed.

Lemma C2_witness :
  (tp_call (fun _ => None) (tp_add ["number"] 4 (tp_add ["number"] 1 [])) ∅ [num 5]).1
  = Invoked 4 [num 5].
Proof. apply (proj1 (proj2 (proj2 C2_reregistration)) (fun _ => None) ∅). constructor. Defined.

(** ** Empty arrays against [T[]] *)




(** ** Exceptions of [matchesType] *)

(** C4: [matchesType] of [src/TaskProcessor.js] throws a [TypeError] for the
    empty array against ["[number,string]"] (it reads the [type] field of
    the missing [elementType]), in every cache state, where
    [src/overloader.js] answers [false].  Both files answer [undefined]
    for a pattern named like a member of [Object.prototype]
    (["constructor"]), and throw for a record whose own [hasOwnProperty]
    is not callable, tested against an object pattern. *)
Theorem C4_matchesType_raises :
  (forall c, tp_reachable c -> (tp_matchesType c (VArr []) "[number,string]").1 = RThrow)
  /\ (ov_matchesType ∅ (VArr []) "[number,string]").1.1 = RBool false
  /\ (forall c, tp_reachable c -> (tp_matchesType c VNull "constructor").1 = RUndef)
  /\ (ov_matchesType ∅ VNull "constructor").1.1 = RUndef
  /\ (forall c, tp_reachable c ->
        (tp_matchesType c (VObj [("hasOwnProperty", num 1)]) "{a:number}").1 = RThrow)
  /\ (ov_matchesType ∅ (VObj [("hasOwnProperty", num 1)]) "{a:number}").1.1 = RThrow.
Proof.
  split; [|split; [|split; [|split; [|split]]]];
    try (intros c Hc; rewrite (proj1 (tp_matchesType_ok c _ _ (tp_reachable_ok c Hc))));
    vm_compute; reflexivity.
Qed.

Lemma C4_witness :
  (tp_matchesType ∅ (VArr []) "[number,string]").1 = RThrow.
Proof. apply (proj1 C4_matchesType_raises). constructor. Defined.

(** ** What matching writes *)

(** C5 (counterexample): [matchesType] of [src/overloader.js] pushes
    [undefined] into an empty array tested against ["string[]"]. *)
Lemma C5_counterexample :
  (ov_matchesType ∅ (VArr []) "string[]").1 = (RBool false, VArr [VUndef]).
Proof. vm_compute. reflexivity. Qed.

(** C5: in [src/TaskProcessor.js] a [matchesType] call writes nothing but
    the tree of its own pattern, inserted into the cache when absent, and a
    dispatch passes the arguments on unchanged.  In [src/overloader.js] a
    value that is neither an array nor a record comes back unchanged, and
    an empty array tested against [T[]] comes back as [[undefined]]. *)
Theorem C5_frame :
  (forall c a p,
     (tp_matchesType c a p).2 = c
     \/ (c !! p = None /\ exists t, tp_parseType p = Some t /\ (tp_matchesType c a p).2 = <[p := t]> c))
  /\ (forall J sigs c args f args', (tp_call J sigs c args).1 = Invoked f args' -> args' = args)
  /\ (forall t path v mu, scalar v = true -> (ov_match t path v mu).1.2 = v)
  /\ (forall e path mu, (ov_match (TArrH e) path (VArr []) mu).1.2 = VArr [VUndef]).
Proof.
  split; [|split; [|split]].
  - apply tp_matchesType_cache.
  - intros J sigs c args f args'. apply tp_call_loop_args.
  - apply ov_match_scalar.
  - intros e path mu. apply ov_match_empty_arrH.
Qed.

Lemma C5_witness :
  (ov_match (TPrim "string" true) [] VNull ∅).1.2 = VNull
  /\ ((tp_call (fun _ => None) [("number", 0)] ∅ [num 5]).1 = Invoked 0 [num 5] -> [num 5] = [num 5]).
Proof.
  split.
  - apply (proj1 (proj2 (proj2 C5_frame))). reflexivity.
  - apply (proj1 (proj2 C5_frame)).
Defined.

(** ** The parse cache *)

(** C6: [parseType.cached] of both files looks the pattern up on an ordinary
    object, so for ["constructor"] it returns the inherited
    [Object.prototype.constructor], not a tree (in every cache state of
    [src/TaskProcessor.js], and on a fresh cache of [src/overloader.js]),
    although [parseType("constructor")] is the primitive node
    [constructor].  A tree it did return is returned again by the next
    lookup. *)
Theorem C6_cached_prototype :
  (forall c, tp_reachable c -> tp_cached c "constructor" = (CInherited "constructor", c))
  /\ ov_cached ∅ "constructor" = (CInherited "constructor", ∅)
  /\ tp_parseType "constructor" = Some (TPrim "constructor" false)
  /\ ov_parseType "constructor" = Some (TPrim "constructor" false)
  /\ (forall c p t c', tp_cached c p = (CNode t, c') -> tp_cached c' p = (CNode t, c')).
Proof.
  split; [|split; [|split; [|split]]].
  - intros c Hc. pose proof (tp_reachable_ok c Hc) as Hok. unfold tp_cached.
    destruct (c !! "constructor") as [t|] eqn:E; [|reflexivity].
    destruct (Hok _ _ E) as [Hp _]. vm_compute in Hp. discriminate.
  - reflexivity.
  - vm_compute. reflexivity.
  - vm_compute. reflexivity.
  - apply tp_cached_again.
Qed.

Lemma C6_witness :
  tp_cached ∅ "constructor" = (CInherited "constructor", ∅).
Proof. apply (proj1 C6_cached_prototype). constructor. Defined.

(** ** [matchesSignature] *)

(** C7: in both files [matchesSignature] answers [false], with nothing
    written, when there are fewer arguments than patterns without ["?"] or
    more arguments than patterns; otherwise it answers [true] exactly when
    each argument matches its pattern: in [src/TaskProcessor.js] as
    [matchesType] answers on any cache, in [src/overloader.js] as each call
    in turn answers [true] on the cache and the argument left by the ones
    before.  With [add("number","number?", f)], a call with one number
    invokes [f] and a call with no argument ends in the no-match error. *)
Theorem C7_matchesSignature :
  (forall c args ps, length args < requiredCount ps \/ length ps < length args ->
     tp_matchesSignature c args ps = (Some false, c))
  /\ (forall c args ps, length args < requiredCount ps \/ length ps < length args ->
       ov_matchesSignature c args ps = (Some false, args, c))
  /\ (forall c args ps, tp_reachable c -> requiredCount ps <= length args <= length ps ->
       ((tp_matchesSignature c args ps).1 = Some true <->
        forall i a p, args !! i = Some a -> ps !! i = Some p -> tp_matchesType_fresh a p = RBool true))
  /\ (forall c args ps, requiredCount ps <= length args <= length ps ->
       ((ov_matchesSignature c args ps).1.1 = Some true <-> ov_all_match c args ps))
  /\ (forall J c, tp_reachable c ->
        (tp_call J (tp_add ["number"; "number?"] 0 []) c [num 5]).1 = Invoked 0 [num 5]
        /\ (tp_call J (tp_add ["number"; "number?"] 0 []) c []).1 = no_match J [])
  /\ (forall J,
        (ov_call J (ov_add ["number"; "number?"] 0 []) ∅ [num 5]).1 = Invoked 0 [num 5]
        /\ (ov_call J (ov_add ["number"; "number?"] 0 []) ∅ []).1 = no_match J []).
Proof.
  split; [|split; [|split; [|split; [|split]]]].
  - apply tp_matchesSignature_arity.
  - apply ov_matchesSignature_arity.
  - intros c args ps Hc Hlen. rewrite tp_matchesSignature_loop by exact Hlen.
    apply tp_sig_loop_iff; [apply tp_reachable_ok; exact Hc|lia].
  - intros c args ps Hlen. rewrite ov_matchesSignature_loop by exact Hlen.
    apply ov_sig_loop_iff. lia.
  - intros J c Hc. rewrite !(tp_call_reachable J _ c) by exact Hc.
    split; vm_compute; reflexivity.
  - intros J. split; vm_compute; reflexivity.
Qed.

Lemma C7_witness :
  tp_matchesSignature ∅ [] ["number"] = (Some false, ∅)
  /\ (tp_call (fun _ => None) (tp_add ["number"; "number?"] 0 []) ∅ [num 5]).1 = Invoked 0 [num 5].
Proof.
  split.
  - apply (proj1 C7_matchesSignature). left. vm_compute. lia.
  - apply (proj1 (proj1 (proj2 (proj2 (proj2 (proj2 C7_matchesSignature)))) (fun _ => None) ∅
                    tp_reach_empty)).
Defined.

(** ** The no-match error *)

(** C8: a dispatch of [src/TaskProcessor.js] can raise a [TypeError] although
    an ["any"] entry is registered: with the keys ["[number,string]"] and
    ["any"], a call with one empty array raises it in every cache state.
    The no-match error itself is raised only when no ["any"] entry is
    registered, and in [src/TaskProcessor.js] its message carries
    [JSON.stringify] of the arguments. *)
Theorem C8_raise_with_any :
  (forall J c, tp_reachable c ->
     (tp_call J (tp_add ["any"] 9 (tp_add ["[number,string]"] 7 [])) c [VArr []]).1
     = Raised ETypeError)
  /\ (forall J sigs c args s, (tp_call J sigs c args).1 = Raised (ENoMatch s) ->
        assoc_get "any" sigs = None /\ J args = Some s)
  /\ (forall J sigs c args s, (ov_call J sigs c args).1 = Raised (ENoMatch s) ->
        Forall (fun kv => kv.1 <> "any") sigs).
Proof.
  split; [|split].
  - intros J c Hc. rewrite (tp_call_reachable J _ c) by exact Hc. vm_compute. reflexivity.
  - intros J sigs c args s. apply tp_call_loop_nomatch.
  - intros J sigs c args s. apply ov_call_loop_nomatch.
Qed.

Lemma C8_witness :
  (tp_call (fun _ => None) (tp_add ["any"] 9 (tp_add ["[number,string]"] 7 [])) ∅ [VArr []]).1
  = Raised ETypeError.
Proof. apply (proj1 C8_raise_with_any). constructor. Defined.

(** ** The pattern ["any"] *)

(** C9: in both files, for every value and in every cache state a process
    can reach, [matchesType(v, "any")] answers [true]. *)
Theorem C9_any :
  (forall c v, tp_reachable c -> (tp_matchesType c v "any").1 = RBool true)
  /\ (forall c v, ov_reachable c -> (ov_matchesType c v "any").1.1 = RBool true).
Proof.
  split.
  - intros c v Hc. rewrite (proj1 (tp_matchesType_ok c v "any" (tp_reachable_ok c Hc))).
    reflexivity.
  - intros c v Hc. pose proof (ov_reachable_any c Hc) as H.
    unfold ov_matchesType, ov_cached.
    destruct (c !! "any") as [e|] eqn:E; [rewrite (H e E)|]; reflexivity.
Qed.

Lemma C9_witness :
  (tp_matchesType ∅ VUndef "any").1 = RBool true /\ (ov_matchesType ∅ VNull "any").1.1 = RBool true.
Proof.
  split; [apply (proj1 C9_any) | apply (proj2 C9_any)]; constructor.
Defined.

(** ** Optional parameters *)

(** C10: in both files a pattern that contains ["?"] anywhere counts as an
    optional parameter: with every pattern containing ["?"], no argument
    is required and the empty argument list passes [matchesSignature].  So
    with the single signature ["{a?:number}"] (an object whose property
    [a] is optional), a call with no argument invokes the implementation
    with no argument. *)
Theorem C10_optional_anywhere :
  (forall ps, Forall (fun p => includes_char "?" p = true) ps -> requiredCount ps = 0)
  /\ (forall c ps, Forall (fun p => includes_char "?" p = true) ps ->
        tp_matchesSignature c [] ps = (Some true, c))
  /\ (forall c ps, Forall (fun p => includes_char "?" p = true) ps ->
        ov_matchesSignature c [] ps = (Some true, [], c))
  /\ requiredCount ["{a?:number}"] = 0
  /\ tp_parseType "{a?:number}" = Some (TObjProps [("a", (TPrim "number" false, true))])
  /\ ov_parseType "{a?:number}" = Some (TObjProps [("a", (TPrim "number" false, true))])
  /\ (forall J c, (tp_call J (tp_add ["{a?:number}"] 7 []) c []).1 = Invoked 7 [])
  /\ (forall J c, (ov_call J (ov_add ["{a?:number}"] 7 []) c []).1 = Invoked 7 []).
Proof.
  split; [|split; [|split; [|split; [|split; [|split; [|split]]]]]].
  - apply requiredCount_all_optional.
  - intros c ps H. apply tp_matchesSignature_no_args, requiredCount_all_optional, H.
  - intros c ps H. apply ov_matchesSignature_no_args, requiredCount_all_optional, H.
  - reflexivity.
  - vm_compute. reflexivity.
  - vm_compute. reflexivity.
  - intros J c. vm_compute. reflexivity.
  - intros J c. vm_compute. reflexivity.
Qed.

Lemma C10_witness :
  tp_matchesSignature ∅ [] ["{a?:number}"; "string?"] = (Some true, ∅).
Proof.
  apply (proj1 (proj2 C10_optional_anywhere)).
  repeat constructor.
Defined.

(** ** Totality of the parser *)

(** X1: [parseType] of both files returns a node for every input string:
    no type string makes the recursion run out of fuel. *)
Theorem X1_parseType_total s : is_Some (ov_parseType s) /\ is_Some (tp_parseType s).
Proof. split; [apply ov_parse_fuel_total | apply tp_parse_fuel_total]; lia. Qed.

(* ================================================================== *)
(** * Further properties of the code *)


Lemma str_app_String x (a b : string) : (String x a ++ b)%string = String x (a ++ b).
Proof. reflexivity. Qed.

Lemma str_app_empty (b : string) : ("" ++ b)%string = b.
Proof. reflexivity. Qed.

Lemma string_app_assoc (a b c : string) : ((a ++ b) ++ c = a ++ (b ++ c))%string.
Proof. induction a as [|x a IH]; [reflexivity|rewrite !str_app_String, IH; reflexivity]. Qed.

Lemma string_app_nil_r (a : string) : (a ++ "")%string = a.
Proof. induction a as [|x a IH]; [reflexivity|rewrite str_app_String, IH; reflexivity]. Qed.

Lemma list_ascii_of_string_app s1 s2 :
  list_ascii_of_string (s1 ++ s2) = list_ascii_of_string s1 ++ list_ascii_of_string s2.
Proof. induction s1 as [|x s1 IH]; [reflexivity|rewrite str_app_String; simpl; rewrite IH; reflexivity]. Qed.

Lemma includes_char_existsb c s :
  includes_char c s = existsb (fun d => (d =? c)%char) (list_ascii_of_string s).
Proof. induction s; simpl; f_equal; auto. Qed.

Lemma includes_char_forallb f c s :
  forallb f (list_ascii_of_string s) = true -> f c = false -> includes_char c s = false.
Proof.
  intros H Hc. induction s as [|d r IH]; simpl in *; auto.
  apply andb_prop in H as [Hd Hr]. rewrite IH by auto.
  destruct (d =? c)%char eqn:E; auto. apply Ascii.eqb_eq in E. subst. congruence.
Qed.

Lemma starts_with_includes c s : starts_with_char c s = true -> includes_char c s = true.
Proof. destruct s; simpl; [discriminate|]. intros ->. reflexivity. Qed.

Lemma last_map_some_in (l : list ascii) d : List.last (map Some l) None = Some d -> In d l.
Proof.
  induction l as [|x r IH]; simpl; [discriminate|].
  destruct r as [|y r']; simpl in *.
  - intros [= ->]. auto.
  - intros H. right. apply IH, H.
Qed.

Lemma ends_with_includes c s : ends_with_char c s = true -> includes_char c s = true.
Proof.
  unfold ends_with_char, last_char. destruct (List.last _ _) as [d|] eqn:E; [|discriminate].
  intros Hd. apply Ascii.eqb_eq in Hd. subst. apply last_map_some_in in E.
  rewrite includes_char_existsb. apply existsb_exists. exists c. split; auto. apply Ascii.eqb_refl.
Qed.

Lemma includes_substring c n m s :
  includes_char c (substring n m s) = true -> includes_char c s = true.
Proof.
  revert n m. induction s as [|d r IH]; intros n m H; destruct n as [|n], m as [|m];
    simpl in H |- *; try discriminate.
  - apply orb_prop in H as [H|H]; [rewrite H; reflexivity|rewrite (IH 0 m H); apply orb_true_r].
  - rewrite (IH n 0 H). apply orb_true_r.
  - rewrite (IH n (S m) H). apply orb_true_r.
Qed.

Lemma ends_with_brackets_includes s : ends_with_brackets s = true -> includes_char "]" s = true.
Proof.
  unfold ends_with_brackets. intros H. apply andb_prop in H as [_ H].
  apply String.eqb_eq in H. apply (includes_substring _ (String.length s - 2) 2). rewrite H. reflexivity.
Qed.

Lemma drop_ws_id l : forallb (fun c => negb (is_js_space c)) l = true -> drop_ws l = l.
Proof. destruct l as [|c r]; simpl; auto. intros H. apply andb_prop in H as [H _]. destruct (is_js_space c); auto; discriminate. Qed.

Lemma trim_id s : forallb (fun c => negb (is_js_space c)) (list_ascii_of_string s) = true -> trim s = s.
Proof.
  intros H. unfold trim. rewrite (drop_ws_id _ H), drop_ws_id.
  - rewrite rev_involutive. apply string_of_list_ascii_of_string.
  - rewrite forallb_forall in *. intros x Hx. apply H, in_rev, Hx.
Qed.

Lemma split_go_none c s cur : includes_char c s = false -> split_go c s cur = [(cur ++ s)%string].
Proof.
  revert cur. induction s as [|d r IH]; intros cur; simpl.
  - rewrite string_app_nil_r. auto.
  - intros H. apply orb_false_elim in H as [H1 H2]. rewrite H1, IH by auto.
    rewrite string_app_assoc. reflexivity.
Qed.

Lemma split_go_app c s1 s2 cur :
  includes_char c s1 = false ->
  split_go c (s1 ++ String c s2) cur = (cur ++ s1)%string :: split_go c s2 "".
Proof.
  revert cur. induction s1 as [|d r IH]; intros cur; simpl.
  - rewrite Ascii.eqb_refl, string_app_nil_r. auto.
  - intros H. apply orb_false_elim in H as [H1 H2]. rewrite H1, IH by auto.
    rewrite string_app_assoc. reflexivity.
Qed.

Lemma forallb_impl' {A} (f g : A -> bool) l :
  (forall x, f x = true -> g x = true) -> forallb f l = true -> forallb g l = true.
Proof. intros H. induction l as [|x r IH]; simpl; auto. intros Hf. apply andb_prop in Hf as [H1 H2]. rewrite H, IH; auto. Qed.

Lemma list_substring n m s :
  list_ascii_of_string (substring n m s) = firstn m (skipn n (list_ascii_of_string s)).
Proof.
  revert n m. induction s as [|d r IH]; intros n m; destruct n as [|n], m as [|m]; simpl; auto.
  - rewrite IH. reflexivity.
Qed.

Lemma last_map_some_app (l : list ascii) x : List.last (map Some (l ++ [x])) None = Some x.
Proof. rewrite map_app. simpl. rewrite last_last. reflexivity. Qed.

Lemma ends_with_brackets_last s : ends_with_brackets s = true -> last_char s = Some "]"%char.
Proof.
  unfold ends_with_brackets, last_char. intros H. apply andb_prop in H as [Hn H].
  apply Nat.leb_le in Hn. apply String.eqb_eq in H.
  apply (f_equal list_ascii_of_string) in H. rewrite list_substring in H. simpl in H.
  set (l := list_ascii_of_string s) in *.
  assert (Hl : length l = String.length s) by apply length_list_ascii_of_string.
  assert (Hs : length (skipn (String.length s - 2) l) = 2) by (rewrite length_skipn; lia).
  rewrite firstn_all2 in H by lia.
  rewrite <- (firstn_skipn (String.length s - 2) l), H.
  change ["["%char; "]"%char] with (["["%char] ++ ["]"%char]). rewrite app_assoc.
  apply last_map_some_app.
Qed.

Lemma is_quoted_lit_last s :
  is_quoted_lit s = true -> exists q, last_char s = Some q /\ is_quote q = true.
Proof.
  unfold is_quoted_lit, last_char. destruct (list_ascii_of_string s) as [|q r]; [discriminate|].
  intros H. apply andb_prop in H as [_ H]. destruct (List.rev r) as [|q' mid] eqn:E; [discriminate|].
  apply andb_prop in H as [Hq _]. exists q'. split; auto.
  assert (r = List.rev mid ++ [q']) as -> by (rewrite <- (rev_involutive r), E; reflexivity).
  change (q :: List.rev mid ++ [q']) with ((q :: List.rev mid) ++ [q']). apply last_map_some_app.
Qed.

Lemma is_num_lit_first d r :
  is_num_lit (String d r) = true -> (d =? "-")%char = true \/ is_digit d = true.
Proof.
  unfold is_num_lit. simpl. destruct (d =? "-")%char eqn:E; auto.
  unfold num_body. simpl. destruct (d =? ".")%char; [discriminate|].
  destruct (split_at_dot _) as [a b]. unfold digits1. simpl.
  intros H. apply andb_prop in H as [H _]. apply andb_prop in H as [H _]. auto.
Qed.

Lemma is_quoted_first d r : is_quoted_lit (String d r) = true -> is_quote d = true.
Proof. unfold is_quoted_lit. simpl. intros H. apply andb_prop in H as [H _]. exact H. Qed.

Lemma split_at_dot_spec l a b :
  split_at_dot l = (a, b) ->
  match b with None => l = a | Some f => l = a ++ "."%char :: f end.
Proof.
  revert a b. induction l as [|c r IH]; intros a b; simpl.
  - intros [= <- <-]. reflexivity.
  - destruct (c =? ".")%char eqn:E.
    + intros [= <- <-]. apply Ascii.eqb_eq in E. subst. reflexivity.
    + destruct (split_at_dot r) as [a' b'] eqn:E'. intros [= <- <-].
      specialize (IH _ _ eq_refl). destruct b'; subst; reflexivity.
Qed.


Lemma num_body_chars l : num_body l = true -> forallb num_char l = true.
Proof.
  unfold num_body. destruct (split_at_dot l) as [a b] eqn:E. apply split_at_dot_spec in E.
  unfold digits1. intros H. apply andb_prop in H as [Ha Hb]. apply andb_prop in Ha as [_ Ha].
  assert (forallb num_char a = true)
    by (apply (forallb_impl' is_digit); [intros x Hx; unfold num_char; rewrite Hx; reflexivity|exact Ha]).
  destruct b as [f|]; subst; auto.
  apply andb_prop in Hb as [_ Hb]. rewrite forallb_app. simpl. rewrite H. simpl.
  apply (forallb_impl' is_digit); [intros x Hx; unfold num_char; rewrite Hx; reflexivity|exact Hb].
Qed.

Lemma is_num_lit_chars s : is_num_lit s = true -> forallb num_char (list_ascii_of_string s) = true.
Proof.
  unfold is_num_lit. destruct (list_ascii_of_string s) as [|c r]; [discriminate|].
  destruct (c =? "-")%char eqn:E.
  - intros H. simpl. rewrite (num_body_chars _ H). unfold num_char. rewrite E, !orb_true_r. reflexivity.
  - apply num_body_chars.
Qed.


Lemma tp_split_go_plain sym l rest res cur d cs :
  forallb (plain_char sym) l = true ->
  tp_split_go sym (l ++ rest) res cur d cs None
  = tp_split_go sym rest res (List.rev l ++ cur) d cs None.
Proof.
  revert cur. induction l as [|c r IH]; intros cur; simpl; auto.
  intros H. apply andb_prop in H as [Hc Hr]. unfold plain_char in Hc.
  destruct (c =? sym)%char, (is_quote c), (is_open c), (is_close c); try discriminate.
  simpl. rewrite andb_false_r. simpl. rewrite IH by auto. rewrite <- app_assoc. reflexivity.
Qed.

Lemma ov_split_go_plain sym l rest res cur d :
  forallb (plain_char sym) l = true ->
  ov_split_go sym (l ++ rest) res cur d None
  = ov_split_go sym rest res (List.rev l ++ cur) d None.
Proof.
  revert cur. induction l as [|c r IH]; intros cur; simpl; auto.
  intros H. apply andb_prop in H as [Hc Hr]. unfold plain_char in Hc.
  destruct (c =? sym)%char, (is_quote c), (is_open c), (is_close c); try discriminate.
  simpl. rewrite IH by auto. rewrite <- app_assoc. reflexivity.
Qed.

Lemma cur_text_rev p : String.eqb (trim p) p = true ->
  cur_text (List.rev (list_ascii_of_string p)) = p.
Proof.
  intros H. apply String.eqb_eq in H. unfold cur_text.
  rewrite rev_involutive, string_of_list_ascii_of_string. exact H.
Qed.

Lemma list_join_cons sym p q ps :
  list_ascii_of_string (js_join (String sym "") (p :: q :: ps))
  = list_ascii_of_string p ++ sym :: list_ascii_of_string (js_join (String sym "") (q :: ps)).
Proof. change (js_join (String sym "") (p :: q :: ps)) with (p ++ String sym "" ++ js_join (String sym "") (q :: ps))%string.
  rewrite list_ascii_of_string_app. reflexivity.
Qed.

Lemma tp_split_join sym p ps res :
  is_quote sym = false -> is_open sym = false -> is_close sym = false ->
  Forall (fun p => plain_piece sym p = true) (p :: ps) ->
  tp_split_go sym (list_ascii_of_string (js_join (String sym "") (p :: ps))) res [] 0%Z true None
  = List.rev res ++ p :: ps.
Proof.
  intros Hq Ho Hc. revert p res. induction ps as [|q ps IH]; intros p res Hall;
    inversion Hall as [|? ? Hp Hrest]; subst; unfold plain_piece in Hp; apply andb_prop in Hp as [Hp Ht].
  - simpl js_join. rewrite <- (app_nil_r (list_ascii_of_string p)), tp_split_go_plain by auto.
    simpl. rewrite app_nil_r, cur_text_rev by auto. reflexivity.
  - rewrite list_join_cons, tp_split_go_plain by auto.
    remember (list_ascii_of_string (js_join (String sym "") (q :: ps))) as L eqn:EL. simpl.
    rewrite Hq, Ho, Hc, Ascii.eqb_refl. simpl. rewrite app_nil_r, cur_text_rev by auto.
    subst L. rewrite IH by auto. simpl. rewrite <- app_assoc. reflexivity.
Qed.

Lemma ov_split_join sym p ps res :
  is_quote sym = false -> is_open sym = false -> is_close sym = false ->
  Forall (fun p => plain_piece sym p = true) (p :: ps) ->
  ov_split_go sym (list_ascii_of_string (js_join (String sym "") (p :: ps))) res [] 0%Z None
  = List.rev res ++ (if String.eqb (List.last (p :: ps) "") "" then removelast (p :: ps) else p :: ps).
Proof.
  intros Hq Ho Hc. revert p res. induction ps as [|q ps IH]; intros p res Hall;
    inversion Hall as [|? ? Hp Hrest]; subst; unfold plain_piece in Hp; apply andb_prop in Hp as [Hp Ht].
  - simpl js_join. rewrite <- (app_nil_r (list_ascii_of_string p)), ov_split_go_plain by auto.
    simpl. rewrite app_nil_r, cur_text_rev by auto.
    destruct (String.eqb p ""); simpl; [rewrite app_nil_r|]; reflexivity.
  - assert (E : (if String.eqb (List.last (p :: q :: ps) "") "" then removelast (p :: q :: ps)
                  else p :: q :: ps)
               = p :: (if String.eqb (List.last (q :: ps) "") "" then removelast (q :: ps)
                       else q :: ps)).
    { change (List.last (p :: q :: ps) "") with (List.last (q :: ps) "").
      destruct (String.eqb _ ""); reflexivity. }
    rewrite E. rewrite list_join_cons, ov_split_go_plain by auto.
    remember (list_ascii_of_string (js_join (String sym "") (q :: ps))) as L eqn:EL.
    remember (if String.eqb (List.last (q :: ps) "") "" then removelast (q :: ps) else q :: ps)
      as R eqn:ER. simpl.
    rewrite Hq, Ho, Hc, Ascii.eqb_refl. simpl. rewrite app_nil_r, cur_text_rev by auto.
    subst L R. rewrite IH by auto. simpl. rewrite <- app_assoc. reflexivity.
Qed.

Lemma rule_union_none split rec t : includes_char "|" t = false -> rule_union split rec t = None.
Proof. intros H. unfold rule_union. rewrite H. reflexivity. Qed.

Lemma tp_rule_array_none rec t : ends_with_brackets t = false -> tp_rule_array rec t = None.
Proof. intros H. unfold tp_rule_array. rewrite H. reflexivity. Qed.

Lemma ov_rule_array_none rec t : ends_with_brackets t = false -> ov_rule_array rec t = None.
Proof. intros H. unfold ov_rule_array. rewrite H. reflexivity. Qed.

Lemma ov_rule_paren_none rec t : starts_with_char "(" t = false -> ov_rule_paren rec t = None.
Proof. intros H. unfold ov_rule_paren. rewrite H. reflexivity. Qed.

Lemma rule_bracket_none split rec t : starts_with_char "[" t = false -> rule_bracket split rec t = None.
Proof. intros H. unfold rule_bracket. rewrite H. reflexivity. Qed.

Lemma rule_object_none split rec t : starts_with_char "{" t = false -> rule_object split rec t = None.
Proof. intros H. unfold rule_object. rewrite H. reflexivity. Qed.

(** A text with none of the structural markers goes to the literal and
    primitive rules. *)
Lemma tp_parse_flat n s :
  includes_char "|" (trim s) = false -> ends_with_brackets (trim s) = false ->
  starts_with_char "[" (trim s) = false -> starts_with_char "{" (trim s) = false ->
  tp_parse_fuel (S n) s = first_rule [rule_literal; rule_primitive] (trim s).
Proof.
  intros H1 H2 H3 H4. cbn [tp_parse_fuel first_rule].
  rewrite rule_union_none, tp_rule_array_none, rule_bracket_none, rule_object_none by auto.
  reflexivity.
Qed.

Lemma ov_parse_flat n s :
  includes_char "|" (trim s) = false -> ends_with_brackets (trim s) = false ->
  starts_with_char "(" (trim s) = false ->
  starts_with_char "[" (trim s) = false -> starts_with_char "{" (trim s) = false ->
  ov_parse_fuel (S n) s = first_rule [rule_literal; rule_primitive] (trim s).
Proof.
  intros H1 H2 H0 H3 H4. cbn [ov_parse_fuel first_rule].
  rewrite rule_union_none, ov_rule_array_none, ov_rule_paren_none, rule_bracket_none,
    rule_object_none by auto.
  reflexivity.
Qed.

Lemma starts_with_false c s : includes_char c s = false -> starts_with_char c s = false.
Proof. intros H. destruct (starts_with_char c s) eqn:E; auto. rewrite (starts_with_includes _ _ E) in H. discriminate. Qed.

Lemma ends_with_false c s : includes_char c s = false -> ends_with_char c s = false.
Proof. intros H. destruct (ends_with_char c s) eqn:E; auto. rewrite (ends_with_includes _ _ E) in H. discriminate. Qed.

Lemma ends_with_brackets_false s : includes_char "]" s = false -> ends_with_brackets s = false.
Proof. intros H. destruct (ends_with_brackets s) eqn:E; auto. rewrite (ends_with_brackets_includes _ E) in H. discriminate. Qed.

Lemma letter_facts c :
  is_letter c = true ->
  is_js_space c = false /\ (c =? "-")%char = false /\ is_digit c = false /\ is_quote c = false.
Proof. destruct c as [[] [] [] [] [] [] [] []]; vm_compute; first [discriminate | intros; repeat split]. Qed.

Lemma is_num_lit_letter s : (exists d r, s = String d r /\ is_letter d = true) -> is_num_lit s = false.
Proof.
  intros (d & r & -> & Hd). destruct (is_num_lit (String d r)) eqn:E; auto.
  apply is_num_lit_first in E. destruct (letter_facts d Hd) as (_ & H1 & H2 & _).
  rewrite H1, H2 in E. destruct E; discriminate.
Qed.

Lemma is_quoted_lit_letter s : (exists d r, s = String d r /\ is_letter d = true) -> is_quoted_lit s = false.
Proof.
  intros (d & r & -> & Hd). destruct (is_quoted_lit (String d r)) eqn:E; auto.
  apply is_quoted_first in E. destruct (letter_facts d Hd) as (_ & _ & _ & H). congruence.
Qed.

Lemma letters_no_space s : forallb is_letter (list_ascii_of_string s) = true -> trim s = s.
Proof.
  intros H. apply trim_id. apply (forallb_impl' is_letter); auto.
  intros c Hc. destruct (letter_facts c Hc) as [-> _]. reflexivity.
Qed.

Lemma type_name_facts p :
  type_name p = true ->
  forallb is_letter (list_ascii_of_string p) = true /\
  (exists d r, p = String d r /\ is_letter d = true) /\
  String.eqb p "true" = false /\ String.eqb p "false" = false.
Proof.
  unfold type_name. intros H. apply andb_prop in H as [H H4]. apply andb_prop in H as [H H3].
  apply andb_prop in H as [H1 H2]. apply negb_true_iff in H1, H3, H4.
  split; [exact H2|]. split; [|auto].
  destruct p as [|d r]; [discriminate|]. exists d, r. split; auto.
  simpl in H2. apply andb_prop in H2 as [H2 _]. exact H2.
Qed.

Lemma tp_parse_name n p : type_name p = true -> tp_parse_fuel (S n) p = Some (TPrim p false).
Proof.
  intros H. destruct (type_name_facts p H) as (Hl & Hd & Ht & Hf).
  assert (Hi : forall c, is_letter c = false -> includes_char c p = false)
    by (intros c Hc; apply (includes_char_forallb is_letter); auto).
  rewrite tp_parse_flat; rewrite (letters_no_space _ Hl);
    try apply starts_with_false; try apply ends_with_brackets_false; try (apply Hi; reflexivity).
  cbn [first_rule]. unfold rule_literal.
  rewrite is_num_lit_letter, is_quoted_lit_letter, Ht, Hf by auto. simpl.
  unfold rule_primitive. rewrite ends_with_false by (apply Hi; reflexivity). reflexivity.
Qed.

Lemma ov_parse_name n p : type_name p = true -> ov_parse_fuel (S n) p = Some (TPrim p false).
Proof.
  intros H. destruct (type_name_facts p H) as (Hl & Hd & Ht & Hf).
  assert (Hi : forall c, is_letter c = false -> includes_char c p = false)
    by (intros c Hc; apply (includes_char_forallb is_letter); auto).
  rewrite ov_parse_flat; rewrite (letters_no_space _ Hl);
    try apply starts_with_false; try apply ends_with_brackets_false; try (apply Hi; reflexivity).
  cbn [first_rule]. unfold rule_literal.
  rewrite is_num_lit_letter, is_quoted_lit_letter, Ht, Hf by auto. simpl.
  unfold rule_primitive. rewrite ends_with_false by (apply Hi; reflexivity). reflexivity.
Qed.

Lemma forallb_join f sym ps :
  f sym = true -> Forall (fun p => forallb f (list_ascii_of_string p) = true) ps ->
  forallb f (list_ascii_of_string (js_join (String sym "") ps)) = true.
Proof.
  intros Hs. induction 1 as [|p ps Hp Hps IH]; [reflexivity|].
  destruct ps as [|q ps']; [exact Hp|].
  rewrite list_join_cons, forallb_app. cbn [forallb]. rewrite Hp, Hs, IH. reflexivity.
Qed.

Lemma includes_join sym p q ps : includes_char sym (js_join (String sym "") (p :: q :: ps)) = true.
Proof.
  rewrite includes_char_existsb, list_join_cons, existsb_app. simpl.
  rewrite Ascii.eqb_refl, orb_true_r. reflexivity.
Qed.

Lemma letter_plain c : is_letter c = true -> plain_char "|" c = true /\ plain_char "," c = true.
Proof. destruct c as [[] [] [] [] [] [] [] []]; vm_compute; first [discriminate | intros; split; reflexivity]. Qed.

Lemma type_name_plain sym p : sym = "|"%char \/ sym = ","%char -> type_name p = true -> plain_piece sym p = true.
Proof.
  intros Hs H. destruct (type_name_facts p H) as (Hl & _ & _ & _). unfold plain_piece.
  rewrite (letters_no_space _ Hl), String.eqb_refl, andb_true_r.
  apply (forallb_impl' is_letter); auto. intros c Hc. destruct (letter_plain c Hc).
  destruct Hs; subst; auto.
Qed.

Lemma mapM_Some {A B} (f : A -> option B) g l :
  (forall x, In x l -> f x = Some (g x)) -> mapM f l = Some (map g l).
Proof.
  induction l as [|x r IH]; intros H; [reflexivity|]. simpl.
  rewrite (H x (or_introl eq_refl)). simpl. rewrite IH by (intros y Hy; apply H; right; auto). reflexivity.
Qed.

Lemma names_no_space ps :
  Forall (fun p => type_name p = true) ps -> trim (js_join "|" ps) = js_join "|" ps.
Proof.
  intros H. apply trim_id. apply (forallb_impl' (fun c => is_letter c || (c =? "|")%char)).
  - intros c Hc. apply orb_prop in Hc as [Hc|Hc].
    + destruct (letter_facts c Hc) as [-> _]. reflexivity.
    + apply Ascii.eqb_eq in Hc. subst. reflexivity.
  - apply forallb_join; [reflexivity|]. eapply Forall_impl; [exact H|]. intros p Hp. simpl in Hp.
    destruct (type_name_facts p Hp) as (Hl & _). eapply forallb_impl'; [|exact Hl].
    intros c ->. reflexivity.
Qed.

Lemma tp_parse_union n p q ps :
  Forall (fun p => type_name p = true) (p :: q :: ps) ->
  tp_parse_fuel (S (S n)) (js_join "|" (p :: q :: ps))
  = Some (TUnion (map (fun p => TPrim p false) (p :: q :: ps))).
Proof.
  intros H. cbn [tp_parse_fuel first_rule]. rewrite (names_no_space _ H).
  unfold rule_union. rewrite (includes_join "|"). simpl negb. cbv iota.
  unfold tp_splitUnionTypes, tp_splitAny.
  change "|"%string with (String "|" ""). rewrite (tp_split_join "|" p (q :: ps) []) by
    (reflexivity || (eapply Forall_impl; [exact H|]; intros x Hx; apply type_name_plain; auto)).
  simpl app. cbv iota beta. simpl length. cbv iota.
  rewrite (mapM_Some _ (fun p => TPrim p false)). { reflexivity. }
  intros x Hx. apply tp_parse_name. rewrite Forall_forall in H. apply H. apply list_elem_of_In. exact Hx.
Qed.

Lemma type_name_nonempty p : type_name p = true -> String.eqb p "" = false.
Proof. unfold type_name. destruct (String.eqb p ""); reflexivity || discriminate. Qed.

Lemma ov_parse_union n p q ps :
  Forall (fun p => type_name p = true) (p :: q :: ps) ->
  ov_parse_fuel (S (S n)) (js_join "|" (p :: q :: ps))
  = Some (TUnion (map (fun p => TPrim p false) (p :: q :: ps))).
Proof.
  intros H. cbn [ov_parse_fuel first_rule]. rewrite (names_no_space _ H).
  unfold rule_union. rewrite (includes_join "|"). simpl negb. cbv iota.
  unfold ov_splitUnionTypes, ov_split.
  change "|"%string with (String "|" ""). rewrite (ov_split_join "|" p (q :: ps) []) by
    (reflexivity || (eapply Forall_impl; [exact H|]; intros x Hx; apply type_name_plain; auto)).
  rewrite type_name_nonempty.
  2:{ rewrite Forall_forall in H. apply H. apply list_elem_of_In. destruct (exists_last (l:=p :: q :: ps)) as (l & a & Ha); [discriminate|].
      rewrite Ha, last_last. apply in_or_app. right. left. reflexivity. }
  simpl app. cbv iota beta. simpl length. cbv iota.
  rewrite (mapM_Some _ (fun p => TPrim p false)). { reflexivity. }
  intros x Hx. apply ov_parse_name. rewrite Forall_forall in H. apply H. apply list_elem_of_In. exact Hx.
Qed.


Lemma prim_check_name ty p : type_name p = true -> prim_check ty p = String.eqb "any" p || String.eqb ty p.
Proof.
  intros H. destruct (type_name_facts p H) as (Hl & _).
  unfold prim_check, js_split. rewrite split_go_none.
  - simpl. rewrite !orb_false_r. reflexivity.
  - apply (includes_char_forallb is_letter); auto.
Qed.

Lemma tp_match_names v ps :
  Forall (fun p => type_name p = true) ps ->
  tp_match v (TUnion (map (fun p => TPrim p false) ps)) = Some (names_answer (tp_myTypeof v) ps).
Proof.
  induction 1 as [|p ps Hp Hps IH]; [reflexivity|].
  cbn [tp_match map] in *. rewrite prim_check_name by auto. unfold names_answer; cbn [existsb].
  destruct (String.eqb "any" p || String.eqb (tp_myTypeof v) p); [reflexivity|]. exact IH.
Qed.

Lemma ov_match_names v ps path mu :
  Forall (fun p => type_name p = true) ps -> (forall j, mu !! (j :: path) = None) ->
  ov_match (TUnion (map (fun p => TPrim p false) ps)) path v mu = (Some (names_answer (ov_myTypeof v) ps), v, mu).
Proof.
  intros H Hmu. simpl. generalize 0 as i. induction H as [|p ps Hp Hps IH]; intros i; [reflexivity|].
  cbn [ov_match map]. rewrite Hmu, prim_check_name by auto. unfold names_answer; cbn [existsb].
  destruct (String.eqb "any" p || String.eqb (ov_myTypeof v) p); [reflexivity|]. apply IH.
Qed.

Lemma join_length_pos sym p q ps : String.length (js_join (String sym "") (p :: q :: ps)) <> 0.
Proof.
  rewrite <- length_list_ascii_of_string, list_join_cons, length_app. simpl. lia.
Qed.

Lemma tp_parseType_names ps :
  Forall (fun p => type_name p = true) ps -> ps <> [] ->
  exists t, tp_parseType (js_join "|" ps) = Some t
            /\ forall v, tp_match v t = Some (names_answer (tp_myTypeof v) ps).
Proof.
  intros H Hne. destruct ps as [|p [|q ps]]; [congruence| |].
  - inversion H; subst. exists (TPrim p false). split.
    + apply tp_parse_name. auto.
    + intros v. simpl. rewrite prim_check_name by auto. unfold names_answer. cbn [existsb].
      rewrite ?orb_false_r; try reflexivity.
  - exists (TUnion (map (fun p => TPrim p false) (p :: q :: ps))). split.
    + unfold tp_parseType. pose proof (join_length_pos "|" p q ps) as Hl.
      destruct (String.length (js_join "|" (p :: q :: ps))) as [|n]; [congruence|].
      apply tp_parse_union. auto.
    + intros v. apply tp_match_names. auto.
Qed.

Lemma ov_parseType_names ps :
  Forall (fun p => type_name p = true) ps -> ps <> [] ->
  exists t, ov_parseType (js_join "|" ps) = Some t
            /\ forall v, ov_match t [] v ∅ = (Some (names_answer (ov_myTypeof v) ps), v, ∅).
Proof.
  intros H Hne. destruct ps as [|p [|q ps]]; [congruence| |].
  - inversion H; subst. exists (TPrim p false). split.
    + apply ov_parse_name. auto.
    + intros v. cbn [ov_match]. rewrite lookup_empty, prim_check_name by auto.
      unfold names_answer. cbn [existsb]. rewrite ?orb_false_r; try reflexivity.
  - exists (TUnion (map (fun p => TPrim p false) (p :: q :: ps))). split.
    + unfold ov_parseType. pose proof (join_length_pos "|" p q ps) as Hl.
      destruct (String.length (js_join "|" (p :: q :: ps))) as [|n]; [congruence|].
      apply ov_parse_union. auto.
    + intros v. apply ov_match_names; [auto | intros j; apply lookup_empty].
Qed.


Lemma ov_reachable_ok c : ov_reachable c -> ov_cache_ok c.
Proof.
  induction 1 as [|c a p _ IH].
  - intros k t mu He. rewrite lookup_empty in He. discriminate.
  - unfold ov_matchesType, ov_cached. destruct (c !! p) as [[t mu]|] eqn:E.
    + destruct (ov_match t [] a mu) as [[r a'] mu'] eqn:M. simpl.
      intros k t1 mu1 He. apply lookup_insert_Some in He as [[<- He]|[_ He]]; auto.
      injection He as <- <-. destruct (IH _ _ _ E) as (H1 & H2 & H3).
      repeat split; auto. 
      replace mu' with (ov_match t [] a mu).2 by (rewrite M; reflexivity). exact (ov_mu_step t mu a H3).
    + destruct (is_proto_name p) eqn:Hp; simpl; auto.
      destruct (ov_parseType p) as [t|] eqn:P; simpl; auto.
      destruct (ov_match t [] a ∅) as [[r a'] mu'] eqn:M; simpl.
      intros k t1 mu1 He. apply lookup_insert_Some in He as [[<- He]|[Hne He]].
      * injection He as <- <-. repeat split; auto.
        replace mu' with (ov_match t [] a ∅).2 by (rewrite M; reflexivity).
        apply ov_mu_step, ov_mu_empty.
      * apply lookup_insert_Some in He as [[? _]|[_ He]]; [congruence|auto].
Qed.

Lemma ov_mu_reach_fixed t (ans : value -> option bool) mu :
  (forall v, ov_match t [] v ∅ = (ans v, v, ∅)) -> ov_mu_reach t mu -> mu = ∅.
Proof. intros Hm. induction 1 as [|mu a _ IH]; [reflexivity|]. subst mu. rewrite Hm. reflexivity. Qed.

(** X2: in [src/TaskProcessor.js], a union of plain type names
    [n1|...|nk] (letters only, not a prototype member name) matches a value
    exactly when one of the names is ["any"] or equals [myTypeof] of the
    value, whatever the cache holds. *)
Theorem X2_tp_names c v ps :
  tp_reachable c -> Forall (fun p => type_name p = true) ps -> ps <> [] ->
  is_proto_name (js_join "|" ps) = false ->
  (tp_matchesType c v (js_join "|" ps)).1
  = RBool (existsb (fun p => String.eqb "any" p || String.eqb (tp_myTypeof v) p) ps).
Proof.
  intros Hc H Hne Hp. destruct (tp_parseType_names ps H Hne) as (t & Ht & Hm).
  rewrite (proj1 (tp_matchesType_ok c v _ (tp_reachable_ok c Hc))).
  rewrite (tp_matchesType_fresh_parsed v _ t Hp Ht), Hm. reflexivity.
Qed.

Lemma X2_witness :
  (tp_matchesType ∅ (VNum (1%Z, 1%positive)) "number|string").1 = RBool true.
Proof.
  apply (X2_tp_names ∅ (VNum (1%Z, 1%positive)) ["number"; "string"]).
  - constructor.
  - repeat constructor.
  - discriminate.
  - reflexivity.
Defined.

(** X3: in [src/overloader.js], a union of plain type names [n1|...|nk]
    matches a value exactly when one of the names is ["any"] or equals
    [myTypeof] of the value, and the value comes back unchanged. *)
Theorem X3_ov_names c v ps :
  ov_reachable c -> Forall (fun p => type_name p = true) ps -> ps <> [] ->
  is_proto_name (js_join "|" ps) = false ->
  (ov_matchesType c v (js_join "|" ps)).1
  = (RBool (existsb (fun p => String.eqb "any" p || String.eqb (ov_myTypeof v) p) ps), v).
Proof.
  intros Hc H Hne Hp. destruct (ov_parseType_names ps H Hne) as (t & Ht & Hm).
  unfold ov_matchesType, ov_cached. destruct (c !! js_join "|" ps) as [[t' mu]|] eqn:E.
  - destruct (ov_reachable_ok c Hc _ _ _ E) as (_ & Ht' & Hmu).
    rewrite Ht in Ht'. injection Ht' as <-.
    rewrite (ov_mu_reach_fixed t _ mu Hm Hmu), Hm. reflexivity.
  - rewrite Hp, Ht, Hm. reflexivity.
Qed.

Lemma X3_witness :
  (ov_matchesType ∅ (VStr "a") "number|string").1 = (RBool true, VStr "a").
Proof.
  apply (X3_ov_names ∅ (VStr "a") ["number"; "string"]).
  - constructor.
  - repeat constructor.
  - discriminate.
  - reflexivity.
Defined.

Lemma replace_first_qmark_none s : includes_char "?" s = false -> replace_first_qmark s = s.
Proof.
  induction s as [|d r IH]; [reflexivity|]. simpl. intros H. apply orb_false_elim in H as [H1 H2].
  rewrite H1, IH; auto.
Qed.

Lemma replace_first_qmark_app s1 s2 :
  includes_char "?" s1 = false -> replace_first_qmark (s1 ++ s2) = (s1 ++ replace_first_qmark s2)%string.
Proof.
  induction s1 as [|d r IH]; [reflexivity|]. intros H. simpl in H. apply orb_false_elim in H as [H1 H2].
  rewrite !str_app_String. simpl. rewrite H1, IH; auto.
Qed.

Lemma is_proto_name_qmark k : includes_char "?" k = true -> is_proto_name k = false.
Proof.
  intros H. unfold is_proto_name. destruct (existsb (String.eqb k) object_prototype_names) eqn:E; auto.
  apply existsb_exists in E as (x & Hin & Hx). apply String.eqb_eq in Hx. subst x.
  simpl in Hin. repeat destruct Hin as [<-|Hin]; try discriminate. destruct Hin.
Qed.

Lemma opt_letters T :
  type_name T = true ->
  forallb (fun c => is_letter c || (c =? "?")%char) (list_ascii_of_string (T ++ "?")%string) = true.
Proof.
  intros H. destruct (type_name_facts T H) as (Hl & _).
  rewrite list_ascii_of_string_app, forallb_app. simpl. rewrite andb_true_r.
  eapply forallb_impl'; [|exact Hl]. intros c ->. reflexivity.
Qed.

Lemma opt_includes T c :
  type_name T = true -> is_letter c = false -> (c =? "?")%char = false -> includes_char c (T ++ "?")%string = false.
Proof.
  intros H H1 H2. apply (includes_char_forallb _ _ _ (opt_letters T H)). rewrite H1, H2. reflexivity.
Qed.

Lemma opt_includes_qmark T : includes_char "?" (T ++ "?")%string = true.
Proof.
  rewrite includes_char_existsb, list_ascii_of_string_app, existsb_app. simpl.
  rewrite orb_true_r. reflexivity.
Qed.

Lemma opt_trim T : type_name T = true -> trim (T ++ "?")%string = (T ++ "?")%string.
Proof.
  intros H. apply trim_id. eapply forallb_impl'; [|exact (opt_letters T H)].
  intros c Hc. apply orb_prop in Hc as [Hc|Hc].
  - destruct (letter_facts c Hc) as [-> _]. reflexivity.
  - apply Ascii.eqb_eq in Hc. subst. reflexivity.
Qed.

Lemma opt_not_literal T : type_name T = true -> rule_literal (T ++ "?")%string = None.
Proof.
  intros H. destruct (type_name_facts T H) as (_ & (d & r & -> & Hd) & _).
  assert (Hs : exists d' r', (String d r ++ "?")%string = String d' r' /\ is_letter d' = true)
    by (exists d, (r ++ "?")%string; rewrite str_app_String; auto).
  unfold rule_literal. rewrite is_num_lit_letter, is_quoted_lit_letter by exact Hs.
  pose proof (opt_includes_qmark (String d r)) as Hq.
  destruct (String.eqb (String d r ++ "?")%string "true") eqn:E1;
    [apply String.eqb_eq in E1; rewrite E1 in Hq; discriminate|].
  destruct (String.eqb (String d r ++ "?")%string "false") eqn:E2;
    [apply String.eqb_eq in E2; rewrite E2 in Hq; discriminate|].
  reflexivity.
Qed.

Lemma opt_ends T : ends_with_char "?" (T ++ "?")%string = true.
Proof.
  unfold ends_with_char, last_char. rewrite list_ascii_of_string_app. simpl.
  rewrite last_map_some_app. reflexivity.
Qed.

Lemma tp_parse_opt n T : type_name T = true -> tp_parse_fuel (S n) (T ++ "?")%string = Some (TPrim (T ++ "?")%string true).
Proof.
  intros H. rewrite tp_parse_flat; rewrite (opt_trim T H);
    try apply starts_with_false; try apply ends_with_brackets_false;
    try (apply opt_includes; auto; reflexivity).
  cbn [first_rule]. rewrite opt_not_literal by auto. unfold rule_primitive. rewrite opt_ends. reflexivity.
Qed.

Lemma ov_parse_opt n T : type_name T = true -> ov_parse_fuel (S n) (T ++ "?")%string = Some (TPrim (T ++ "?")%string true).
Proof.
  intros H. rewrite ov_parse_flat; rewrite (opt_trim T H);
    try apply starts_with_false; try apply ends_with_brackets_false;
    try (apply opt_includes; auto; reflexivity).
  cbn [first_rule]. rewrite opt_not_literal by auto. unfold rule_primitive. rewrite opt_ends. reflexivity.
Qed.

Lemma opt_rewritten T :
  type_name T = true ->
  trim (replace_first_qmark (T ++ "?")%string) = (T ++ "|undefined")%string
  /\ trim (replace_first_qmark (T ++ "|undefined")%string) = (T ++ "|undefined")%string.
Proof.
  intros H. destruct (type_name_facts T H) as (Hl & _).
  assert (Hq : includes_char "?" T = false) by (apply (includes_char_forallb is_letter); auto).
  assert (Hu : includes_char "?" (T ++ "|undefined")%string = false).
  { rewrite includes_char_existsb, list_ascii_of_string_app, existsb_app.
    rewrite <- includes_char_existsb, Hq. reflexivity. }
  assert (Ht : trim (T ++ "|undefined")%string = (T ++ "|undefined")%string).
  { apply trim_id. rewrite list_ascii_of_string_app, forallb_app.
    rewrite (forallb_impl' is_letter); [reflexivity| |exact Hl].
    intros c Hc. destruct (letter_facts c Hc) as [-> _]. reflexivity. }
  rewrite replace_first_qmark_app by exact Hq. rewrite (replace_first_qmark_none _ Hu).
  split; exact Ht.
Qed.

Lemma prim_check_opt ty T :
  type_name T = true ->
  prim_check ty (T ++ "|undefined")%string
  = String.eqb "any" T || String.eqb ty T || String.eqb ty "undefined".
Proof.
  intros H. destruct (type_name_facts T H) as (Hl & _).
  unfold prim_check, js_split. change "|undefined"%string with (String "|" "undefined").
  rewrite split_go_app by (apply (includes_char_forallb is_letter); auto).
  change (split_go "|" "undefined" "") with ["undefined"%string].
  change ("" ++ T)%string with T. cbn [existsb].
  replace (String.eqb "any" "undefined") with false by reflexivity. rewrite !orb_false_r.
  destruct (String.eqb "any" T), (String.eqb ty T), (String.eqb ty "undefined"); reflexivity.
Qed.

Lemma ov_match_opt T v mu :
  type_name T = true ->
  mu = ∅ \/ mu = {[ [] := (T ++ "|undefined")%string ]} ->
  ov_match (TPrim (T ++ "?")%string true) [] v mu
  = (Some (String.eqb "any" T || String.eqb (ov_myTypeof v) T || String.eqb (ov_myTypeof v) "undefined"), v,
     {[ [] := (T ++ "|undefined")%string ]}).
Proof.
  intros H Hmu. destruct (opt_rewritten T H) as [H1 H2]. cbn [ov_match].
  destruct Hmu as [->| ->].
  - rewrite lookup_empty, H1, prim_check_opt, insert_empty by auto. reflexivity.
  - rewrite lookup_singleton_eq, H2, prim_check_opt, insert_singleton by auto. reflexivity.
Qed.

Lemma ov_mu_reach_opt T mu :
  type_name T = true -> ov_mu_reach (TPrim (T ++ "?")%string true) mu ->
  mu = ∅ \/ mu = {[ [] := (T ++ "|undefined")%string ]}.
Proof.
  intros H. induction 1 as [|mu a _ IH]; [auto|]. right. rewrite ov_match_opt; auto.
Qed.

(** X4: in [src/TaskProcessor.js], an optional name [T?] matches a value
    exactly when [T] is ["any"], or [T] is the value's [myTypeof], or the
    value's [myTypeof] is ["undefined"]. *)
Theorem X4_tp_optional c v T :
  tp_reachable c -> type_name T = true ->
  (tp_matchesType c v (T ++ "?")%string).1
  = RBool (String.eqb "any" T || String.eqb (tp_myTypeof v) T || String.eqb (tp_myTypeof v) "undefined").
Proof.
  intros Hc H. rewrite (proj1 (tp_matchesType_ok c v _ (tp_reachable_ok c Hc))).
  rewrite (tp_matchesType_fresh_parsed v _ (TPrim (T ++ "?")%string true)).
  - cbn [tp_match]. rewrite (proj1 (opt_rewritten T H)), prim_check_opt by auto. reflexivity.
  - apply is_proto_name_qmark, opt_includes_qmark.
  - apply tp_parse_opt. auto.
Qed.

Lemma X4_witness : (tp_matchesType ∅ VUndef "string?").1 = RBool true.
Proof. apply (X4_tp_optional ∅ VUndef "string"); [constructor | reflexivity]. Defined.

(** X5: in [src/overloader.js], an optional name [T?] answers like the
    union [T|undefined] and returns the value unchanged, and the cached tree
    for [T?] keeps the optional primitive node with its type rewritten in
    place to ["T|undefined"]. *)
Theorem X5_ov_optional c v T :
  ov_reachable c -> type_name T = true ->
  (ov_matchesType c v (T ++ "?")%string).1
  = (RBool (String.eqb "any" T || String.eqb (ov_myTypeof v) T || String.eqb (ov_myTypeof v) "undefined"), v)
  /\ (ov_matchesType c v (T ++ "?")%string).2 !! (T ++ "?")%string
     = Some (TPrim (T ++ "?")%string true, {[ [] := (T ++ "|undefined")%string ]}).
Proof.
  intros Hc H. unfold ov_matchesType, ov_cached.
  destruct (c !! (T ++ "?")%string) as [[t mu]|] eqn:E.
  - destruct (ov_reachable_ok c Hc _ _ _ E) as (_ & Ht & Hmu).
    unfold ov_parseType in Ht. rewrite ov_parse_opt in Ht by auto. injection Ht as <-.
    rewrite ov_match_opt by (auto; apply ov_mu_reach_opt; auto). simpl.
    rewrite lookup_insert_eq. auto.
  - rewrite is_proto_name_qmark by apply opt_includes_qmark.
    unfold ov_parseType. rewrite ov_parse_opt by auto.
    rewrite ov_match_opt by auto. simpl. rewrite lookup_insert_eq. auto.
Qed.

Lemma X5_witness :
  (ov_matchesType ∅ (VStr "x") "string?").1 = (RBool true, VStr "x")
  /\ (ov_matchesType ∅ (VStr "x") "string?").2 !! "string?"%string
     = Some (TPrim "string?" true, {[ [] := "string|undefined"%string ]}).
Proof. apply (X5_ov_optional ∅ (VStr "x") "string"); [constructor | reflexivity]. Defined.

Lemma num_char_facts c :
  num_char c = true ->
  is_js_space c = false /\ is_letter c = false /\ (c =? "|")%char = false /\ (c =? "]")%char = false
  /\ (c =? "(")%char = false /\ (c =? "[")%char = false /\ (c =? "{")%char = false.
Proof. destruct c as [[] [] [] [] [] [] [] []]; vm_compute; first [discriminate | intros; repeat split]. Qed.

Lemma quote_facts c :
  is_quote c = true ->
  is_js_space c = false /\ is_digit c = false /\ (c =? "-")%char = false /\ (c =? "]")%char = false
  /\ (c =? "(")%char = false /\ (c =? "[")%char = false /\ (c =? "{")%char = false.
Proof. destruct c as [[] [] [] [] [] [] [] []]; vm_compute; first [discriminate | intros; repeat split]. Qed.

Lemma is_proto_name_letters k :
  is_proto_name k = true -> exists d r, k = String d r /\ (is_letter d || (d =? "_")%char) = true.
Proof.
  unfold is_proto_name. intros E.
  apply existsb_exists in E as (x & Hin & Hx). apply String.eqb_eq in Hx. subst x.
  simpl in Hin. repeat destruct Hin as [<-|Hin]; try (eexists _, _; split; [reflexivity|reflexivity]).
  destruct Hin.
Qed.

Lemma num_not_proto p : is_num_lit p = true -> is_proto_name p = false.
Proof.
  intros H. destruct (is_proto_name p) eqn:E; auto.
  apply is_proto_name_letters in E as (d & r & -> & Hd).
  apply is_num_lit_chars in H. simpl in H. apply andb_prop in H as [H _].
  destruct (num_char_facts d H) as (_ & Hl & _). rewrite Hl in Hd. simpl in Hd.
  apply Ascii.eqb_eq in Hd. subst. discriminate.
Qed.

Lemma quoted_not_proto p : is_quoted_lit p = true -> is_proto_name p = false.
Proof.
  intros H. destruct (is_proto_name p) eqn:E; auto.
  apply is_proto_name_letters in E as (d & r & -> & Hd).
  apply is_quoted_first in H. destruct d as [[] [] [] [] [] [] [] []]; vm_compute in H, Hd; congruence.
Qed.

Lemma num_flat_conds p c :
  is_num_lit p = true -> num_char c = false -> includes_char c p = false.
Proof. intros H Hc. apply (includes_char_forallb num_char); auto. apply is_num_lit_chars; auto. Qed.

Lemma num_trim p : is_num_lit p = true -> trim p = p.
Proof.
  intros H. apply trim_id. eapply forallb_impl'; [|exact (is_num_lit_chars p H)].
  intros c Hc. destruct (num_char_facts c Hc) as [-> _]. reflexivity.
Qed.

Lemma tp_parse_num n p : is_num_lit p = true -> tp_parse_fuel (S n) p = Some (TLit (LNum (js_Number_lit p))).
Proof.
  intros H. rewrite tp_parse_flat; rewrite (num_trim p H);
    try apply starts_with_false; try apply ends_with_brackets_false;
    try (apply num_flat_conds; auto; reflexivity).
  cbn [first_rule]. unfold rule_literal. rewrite H. reflexivity.
Qed.

Lemma ov_parse_num n p : is_num_lit p = true -> ov_parse_fuel (S n) p = Some (TLit (LNum (js_Number_lit p))).
Proof.
  intros H. rewrite ov_parse_flat; rewrite (num_trim p H);
    try apply starts_with_false; try apply ends_with_brackets_false;
    try (apply num_flat_conds; auto; reflexivity).
  cbn [first_rule]. unfold rule_literal. rewrite H. reflexivity.
Qed.

Lemma quoted_trim p : is_quoted_lit p = true -> trim p = p.
Proof.
  unfold is_quoted_lit, trim. intros H.
  rewrite <- (string_of_list_ascii_of_string p) at 2. f_equal.
  destruct (list_ascii_of_string p) as [|q r]; [discriminate|].
  apply andb_prop in H as [Hq H].
  destruct (List.rev r) as [|q' mid] eqn:Er; [discriminate|]. apply andb_prop in H as [Hq' _].
  destruct (quote_facts q Hq) as [Hs _]. destruct (quote_facts q' Hq') as [Hs' _].
  cbn [drop_ws]. rewrite Hs. cbn [List.rev]. rewrite Er. cbn [app drop_ws]. rewrite Hs'.
  rewrite <- (rev_involutive r), Er. simpl. rewrite rev_app_distr. reflexivity.
Qed.

Lemma quoted_first p : is_quoted_lit p = true -> exists d r, p = String d r /\ is_quote d = true.
Proof.
  destruct p as [|d r]; [discriminate|]. intros H. exists d, r. split; auto. apply (is_quoted_first d r H).
Qed.

Lemma quoted_not_brackets p : is_quoted_lit p = true -> ends_with_brackets p = false.
Proof.
  intros H. destruct (ends_with_brackets p) eqn:E; auto.
  apply ends_with_brackets_last in E. destruct (is_quoted_lit_last p H) as (q & Hl & Hq).
  rewrite E in Hl. injection Hl as <-. discriminate.
Qed.

Lemma quoted_starts p c :
  is_quoted_lit p = true -> c = "("%char \/ c = "["%char \/ c = "{"%char -> starts_with_char c p = false.
Proof.
  intros H Hc. destruct (quoted_first p H) as (d & r & -> & Hd). simpl.
  destruct (quote_facts d Hd) as (_ & _ & _ & _ & H1 & H2 & H3).
  destruct Hc as [->|[->| ->]]; auto.
Qed.

Lemma quoted_not_num p : is_quoted_lit p = true -> is_num_lit p = false.
Proof.
  intros H. destruct (is_num_lit p) eqn:E; auto. destruct (quoted_first p H) as (d & r & -> & Hd).
  apply is_num_lit_first in E. destruct (quote_facts d Hd) as (_ & H1 & H2 & _).
  destruct E as [E|E]; congruence.
Qed.

Lemma tp_parse_quoted n p :
  is_quoted_lit p = true -> includes_char "|" p = false ->
  tp_parse_fuel (S n) p = Some (TLit (LStr (slice_inner p))).
Proof.
  intros H Hb. rewrite tp_parse_flat; rewrite (quoted_trim p H); auto using quoted_not_brackets;
    try (apply quoted_starts; auto).
  cbn [first_rule]. unfold rule_literal. rewrite quoted_not_num, H by auto. reflexivity.
Qed.

Lemma ov_parse_quoted n p :
  is_quoted_lit p = true -> includes_char "|" p = false ->
  ov_parse_fuel (S n) p = Some (TLit (LStr (slice_inner p))).
Proof.
  intros H Hb. rewrite ov_parse_flat; rewrite (quoted_trim p H); auto using quoted_not_brackets;
    try (apply quoted_starts; auto).
  cbn [first_rule]. unfold rule_literal. rewrite quoted_not_num, H by auto. reflexivity.
Qed.

Lemma tp_matchesType_lit c v p l :
  tp_reachable c -> is_proto_name p = false -> tp_parseType p = Some (TLit l) ->
  (tp_matchesType c v p).1 = RBool (strict_eq_lit v l).
Proof.
  intros Hc Hp Ht. rewrite (proj1 (tp_matchesType_ok c v _ (tp_reachable_ok c Hc))).
  rewrite (tp_matchesType_fresh_parsed v _ _ Hp Ht). reflexivity.
Qed.

Lemma ov_matchesType_lit c v p l :
  ov_reachable c -> is_proto_name p = false -> ov_parseType p = Some (TLit l) ->
  (ov_matchesType c v p).1 = (RBool (strict_eq_lit v l), v).
Proof.
  intros Hc Hp Ht. unfold ov_matchesType, ov_cached. destruct (c !! p) as [[t mu]|] eqn:E.
  - destruct (ov_reachable_ok c Hc _ _ _ E) as (_ & Ht' & _). rewrite Ht in Ht'.
    injection Ht' as <-. reflexivity.
  - rewrite Hp, Ht. reflexivity.
Qed.

(** X6: in both files, a numeric literal pattern matches a value exactly
    when the value is strictly equal to the number the literal denotes;
    [src/overloader.js] returns the value unchanged. *)
Theorem X6_num_literal c c' v p :
  tp_reachable c -> ov_reachable c' -> is_num_lit p = true ->
  (tp_matchesType c v p).1 = RBool (strict_eq_lit v (LNum (js_Number_lit p)))
  /\ (ov_matchesType c' v p).1 = (RBool (strict_eq_lit v (LNum (js_Number_lit p))), v).
Proof.
  intros Hc Hc' H. split.
  - apply tp_matchesType_lit; auto using num_not_proto. apply tp_parse_num. auto.
  - apply ov_matchesType_lit; auto using num_not_proto. apply ov_parse_num. auto.
Qed.

Lemma X6_witness :
  (tp_matchesType ∅ (VNum (3%Z, 2%positive)) "1.50").1 = RBool true
  /\ (ov_matchesType ∅ (VNum (3%Z, 2%positive)) "1.50").1 = (RBool true, VNum (3%Z, 2%positive)).
Proof. apply (X6_num_literal ∅ ∅ (VNum (3%Z, 2%positive)) "1.50"); [constructor | constructor | reflexivity]. Defined.

(** X7: in both files, a quoted literal pattern without ["|"] matches a
    value exactly when the value is the string between the quotes;
    [src/overloader.js] returns the value unchanged. *)
Theorem X7_quoted_literal c c' v p :
  tp_reachable c -> ov_reachable c' -> is_quoted_lit p = true -> includes_char "|" p = false ->
  (tp_matchesType c v p).1 = RBool (strict_eq_lit v (LStr (slice_inner p)))
  /\ (ov_matchesType c' v p).1 = (RBool (strict_eq_lit v (LStr (slice_inner p))), v).
Proof.
  intros Hc Hc' H Hb. split.
  - apply tp_matchesType_lit; auto using quoted_not_proto. apply tp_parse_quoted; auto.
  - apply ov_matchesType_lit; auto using quoted_not_proto. apply ov_parse_quoted; auto.
Qed.

Lemma X7_witness :
  (tp_matchesType ∅ (VStr "GET") "'GET'").1 = RBool true
  /\ (ov_matchesType ∅ (VStr "GET") "'GET'").1 = (RBool true, VStr "GET").
Proof. apply (X7_quoted_literal ∅ ∅ (VStr "GET") "'GET'"); [constructor | constructor | reflexivity | reflexivity]. Defined.

Lemma string_list_inj s1 s2 : list_ascii_of_string s1 = list_ascii_of_string s2 -> s1 = s2.
Proof.
  intros H. rewrite <- (string_of_list_ascii_of_string s1), <- (string_of_list_ascii_of_string s2), H.
  reflexivity.
Qed.

Lemma string_length_app s1 s2 : String.length (s1 ++ s2) = String.length s1 + String.length s2.
Proof. rewrite <- !length_list_ascii_of_string, list_ascii_of_string_app, length_app. reflexivity. Qed.


Lemma arr_drop2 T : slice_drop2 (T ++ "[]") = T.
Proof.
  apply string_list_inj. unfold slice_drop2. rewrite list_substring, string_length_app.
  rewrite list_ascii_of_string_app.
  replace (String.length T + String.length "[]" - 2) with (length (list_ascii_of_string T))
    by (rewrite length_list_ascii_of_string; simpl; lia).
  rewrite drop_0, take_app_length. reflexivity.
Qed.

Lemma arr_ends T : ends_with_brackets (T ++ "[]") = true.
Proof.
  unfold ends_with_brackets. rewrite string_length_app. simpl String.length at 2.
  replace (2 <=? String.length T + 2) with true by (symmetry; apply Nat.leb_le; lia).
  simpl andb. apply String.eqb_eq, string_list_inj. rewrite list_substring, list_ascii_of_string_app.
  replace (String.length T + 2 - 2) with (length (list_ascii_of_string T))
    by (rewrite length_list_ascii_of_string; lia).
  rewrite drop_app_length. reflexivity.
Qed.

Lemma arr_chars T :
  type_name T = true ->
  forallb (fun c => is_letter c || (c =? "[")%char || (c =? "]")%char) (list_ascii_of_string (T ++ "[]")) = true.
Proof.
  intros H. destruct (type_name_facts T H) as (Hl & _).
  rewrite list_ascii_of_string_app, forallb_app. simpl. rewrite andb_true_r.
  eapply forallb_impl'; [|exact Hl]. intros c ->. reflexivity.
Qed.

Lemma arr_trim T : type_name T = true -> trim (T ++ "[]") = (T ++ "[]")%string.
Proof.
  intros H. apply trim_id. eapply forallb_impl'; [|exact (arr_chars T H)].
  intros c Hc. apply orb_prop in Hc as [Hc|Hc]; [apply orb_prop in Hc as [Hc|Hc]|].
  - destruct (letter_facts c Hc) as [-> _]. reflexivity.
  - apply Ascii.eqb_eq in Hc. subst. reflexivity.
  - apply Ascii.eqb_eq in Hc. subst. reflexivity.
Qed.

Lemma arr_no_bar T : type_name T = true -> includes_char "|" (T ++ "[]") = false.
Proof. intros H. apply (includes_char_forallb _ _ _ (arr_chars T H)). reflexivity. Qed.

Lemma name_not_paren T : type_name T = true -> starts_with_char "(" T = false.
Proof.
  intros H. destruct (type_name_facts T H) as (_ & (d & r & -> & Hd) & _). simpl.
  destruct d as [[] [] [] [] [] [] [] []]; vm_compute in Hd |- *; congruence.
Qed.

Lemma arr_len T : String.length (T ++ "[]") = S (S (String.length T)).
Proof. rewrite string_length_app. simpl. lia. Qed.



Lemma tp_parseType_arr T :
  type_name T = true -> tp_parseType (T ++ "[]") = Some (TArrH (TPrim T false)).
Proof.
  intros H. unfold tp_parseType. rewrite arr_len. remember (S (S (String.length T))) as m.
  cbn [tp_parse_fuel first_rule].
  rewrite arr_trim by auto. rewrite rule_union_none by (apply arr_no_bar; auto).
  unfold tp_rule_array. rewrite arr_ends, arr_drop2, type_name_nonempty, name_not_paren by auto.
  simpl negb. cbv iota beta. subst m. rewrite tp_parse_name by auto. reflexivity.
Qed.

Lemma ov_parseType_arr T :
  type_name T = true -> ov_parseType (T ++ "[]") = Some (TArrH (TPrim T false)).
Proof.
  intros H. unfold ov_parseType. rewrite arr_len. remember (S (S (String.length T))) as m.
  cbn [ov_parse_fuel first_rule].
  rewrite arr_trim by auto. rewrite rule_union_none by (apply arr_no_bar; auto).
  unfold ov_rule_array. rewrite arr_ends, arr_drop2, name_not_paren by auto.
  simpl negb. cbv iota beta. subst m. rewrite ov_parse_name by auto. reflexivity.
Qed.

Lemma is_proto_name_chars k :
  is_proto_name k = true -> forallb (fun d => is_letter d || (d =? "_")%char) (list_ascii_of_string k) = true.
Proof.
  unfold is_proto_name. intros E.
  apply existsb_exists in E as (x & Hin & Hx). apply String.eqb_eq in Hx. subst x.
  simpl in Hin. repeat destruct Hin as [<-|Hin]; try reflexivity. destruct Hin.
Qed.

Lemma is_proto_name_char c k :
  includes_char c k = true -> is_letter c = false -> (c =? "_")%char = false -> is_proto_name k = false.
Proof.
  intros H H1 H2. destruct (is_proto_name k) eqn:E; auto.
  rewrite (includes_char_forallb _ c k (is_proto_name_chars k E)) in H; [discriminate|].
  rewrite H1, H2. reflexivity.
Qed.

Lemma arr_includes_open T : includes_char "[" (T ++ "[]") = true.
Proof. rewrite includes_char_existsb, list_ascii_of_string_app, existsb_app. simpl. apply orb_true_r. Qed.

Lemma tp_every_pure (f : value -> option bool) (g : value -> bool) xs :
  (forall x, f x = Some (g x)) -> tp_every f xs = Some (forallb g xs).
Proof. intros Hf. induction xs as [|x r IH]; [reflexivity|]. simpl. rewrite Hf. destruct (g x); auto. Qed.

Lemma ov_every_pure (f : value -> muts -> option bool * value * muts) g xs mu :
  (forall x, f x mu = (Some (g x), x, mu)) -> ov_every f xs mu = (Some (forallb g xs), xs, mu).
Proof.
  intros Hf. induction xs as [|x r IH]; [reflexivity|]. simpl. rewrite Hf.
  destruct (g x); simpl; [rewrite IH|]; reflexivity.
Qed.

Lemma ov_mu_reach_none t mu :
  (forall v, (ov_match t [] v ∅).2 = ∅) -> ov_mu_reach t mu -> mu = ∅.
Proof. intros Hm. induction 1 as [|mu a _ IH]; [reflexivity|]. subst mu. apply Hm. Qed.

Lemma tp_match_arr_name T v :
  type_name T = true ->
  tp_match v (TArrH (TPrim T false))
  = Some (match v with
          | VArr xs =>
              if nullb xs then test_array_or_any T
              else forallb (fun x => String.eqb "any" T || String.eqb (tp_myTypeof x) T) xs
          | _ => false
          end).
Proof.
  intros H. destruct v; try reflexivity. cbn [tp_match element_type_text].
  destruct xs as [|x r]; simpl nullb.
  - destruct (test_array_or_any T); reflexivity.
  - simpl andb. cbv iota. apply tp_every_pure. intros y. cbn [tp_match].
    rewrite prim_check_name by auto. reflexivity.
Qed.

Lemma ov_match_arr_name T v mu :
  type_name T = true -> mu !! [0] = None ->
  ov_match (TArrH (TPrim T false)) [] v mu
  = match v with
    | VArr xs =>
        let xs' := if nullb xs then [VUndef] else xs in
        (Some (forallb (fun x => String.eqb "any" T || String.eqb (ov_myTypeof x) T) xs'), VArr xs', mu)
    | _ => (Some false, v, mu)
    end.
Proof.
  intros H Hmu. destruct v; try reflexivity. cbn [ov_match].
  rewrite (ov_every_pure _ (fun x => String.eqb "any" T || String.eqb (ov_myTypeof x) T)).
  - reflexivity.
  - intros x. rewrite Hmu, prim_check_name by auto. reflexivity.
Qed.

(** X8: in [src/TaskProcessor.js], [T[]] for a plain type name [T] matches
    only arrays: an empty array exactly when [T] is ["array"] or ["any"], a
    non-empty one when every element has [myTypeof] [T] (or [T] is ["any"]). *)
Theorem X8_tp_array_of_name c v T :
  tp_reachable c -> type_name T = true ->
  (tp_matchesType c v (T ++ "[]")%string).1
  = RBool (match v with
           | VArr xs =>
               if nullb xs then test_array_or_any T
               else forallb (fun x => String.eqb "any" T || String.eqb (tp_myTypeof x) T) xs
           | _ => false
           end).
Proof.
  intros Hc H. rewrite (proj1 (tp_matchesType_ok c v _ (tp_reachable_ok c Hc))).
  rewrite (tp_matchesType_fresh_parsed v _ _ (is_proto_name_char "[" _ (arr_includes_open T) eq_refl eq_refl)
             (tp_parseType_arr T H)).
  rewrite tp_match_arr_name by auto. reflexivity.
Qed.

Lemma X8_witness :
  (tp_matchesType ∅ (VArr []) "company[]").1 = RBool true
  /\ (tp_matchesType ∅ (VArr []) "string[]").1 = RBool false.
Proof.
  split; [apply (X8_tp_array_of_name ∅ (VArr []) "company") | apply (X8_tp_array_of_name ∅ (VArr []) "string")];
    (constructor || reflexivity).
Defined.

(** X9: in [src/overloader.js], [T[]] for a plain type name [T] matches
    only arrays, each of whose elements must have type [T] unless [T] is
    ["any"]; an empty array is first replaced by [[undefined]], so it
    matches only when [T] is ["any"] or ["undefined"], and the changed
    array is what the matcher returns. *)
Theorem X9_ov_array_of_name c v T :
  ov_reachable c -> type_name T = true ->
  (ov_matchesType c v (T ++ "[]")%string).1
  = match v with
    | VArr xs =>
        let xs' := if nullb xs then [VUndef] else xs in
        (RBool (forallb (fun x => String.eqb "any" T || String.eqb (ov_myTypeof x) T) xs'), VArr xs')
    | _ => (RBool false, v)
    end.
Proof.
  intros Hc H.
  assert (Hm : forall mu v, mu !! [0] = None ->
            ov_match (TArrH (TPrim T false)) [] v mu
            = match v with
              | VArr xs =>
                  let xs' := if nullb xs then [VUndef] else xs in
                  (Some (forallb (fun x => String.eqb "any" T || String.eqb (ov_myTypeof x) T) xs'), VArr xs', mu)
              | _ => (Some false, v, mu)
              end) by (intros; apply ov_match_arr_name; auto).
  unfold ov_matchesType, ov_cached. destruct (c !! (T ++ "[]")%string) as [[t mu]|] eqn:E.
  - destruct (ov_reachable_ok c Hc _ _ _ E) as (_ & Ht & Hmu).
    rewrite ov_parseType_arr in Ht by auto. injection Ht as <-.
    rewrite (ov_mu_reach_none _ mu) in * by
      (auto; intros w; rewrite Hm by apply lookup_empty; destruct w; reflexivity).
    rewrite Hm by apply lookup_empty. destruct v; reflexivity.
  - rewrite (is_proto_name_char "[") by (apply arr_includes_open || reflexivity).
    rewrite ov_parseType_arr by auto. rewrite Hm by apply lookup_empty. destruct v; reflexivity.
Qed.

Lemma X9_witness :
  (ov_matchesType ∅ (VArr []) "string[]").1 = (RBool false, VArr [VUndef]).
Proof. apply (X9_ov_array_of_name ∅ (VArr []) "string"); [constructor | reflexivity]. Defined.

Lemma includes_char_app c s1 s2 :
  includes_char c (s1 ++ s2) = includes_char c s1 || includes_char c s2.
Proof. rewrite !includes_char_existsb, list_ascii_of_string_app, existsb_app. reflexivity. Qed.

Lemma split_go_pieces c s cur :
  includes_char c cur = false -> Forall (fun x => includes_char c x = false) (split_go c s cur).
Proof.
  revert cur. induction s as [|d r IH]; intros cur Hc; simpl.
  - constructor; auto.
  - destruct (d =? c)%char eqn:E.
    + constructor; [exact Hc|]. apply IH. reflexivity.
    + apply IH. rewrite includes_char_app, Hc. simpl. rewrite E. reflexivity.
Qed.

Lemma split_join_key c p ps :
  Forall (fun x => includes_char c x = false) (p :: ps) ->
  split_go c (js_join (String c "") (p :: ps)) "" = p :: ps.
Proof.
  revert p. induction ps as [|q r IH]; intros p H; inversion H as [|? ? Hp Hps]; subst.
  - simpl. rewrite split_go_none by auto. reflexivity.
  - change (js_join (String c "") (p :: q :: r)) with (p ++ String c "" ++ js_join (String c "") (q :: r))%string.
    rewrite str_app_String, str_app_empty, split_go_app by auto. rewrite IH by auto. reflexivity.
Qed.

(** X10: a non-empty list of patterns is recovered from its signature
    key [patterns.join("-")] by [key.split("-")] exactly when no pattern
    contains ["-"]. *)
Theorem X10_key_roundtrip ps :
  ps <> [] ->
  js_split "-" (js_join "-" ps) = ps <-> Forall (fun p => includes_char "-" p = false) ps.
Proof.
  intros Hne. split.
  - intros H. rewrite <- H. apply split_go_pieces. reflexivity.
  - intros H. destruct ps as [|p ps]; [congruence|]. apply split_join_key. exact H.
Qed.

Lemma X10_witness :
  js_split "-" (js_join "-" ["number"; "string?"]) = ["number"; "string?"]%string.
Proof. apply (proj2 (X10_key_roundtrip ["number"; "string?"] ltac:(discriminate))). repeat constructor. Defined.

Lemma empty_key_split : js_split "-" "" = [""%string].
Proof. reflexivity. Qed.

Lemma ov_parseType_empty : ov_parseType "" = Some (TPrim "" false).
Proof. reflexivity. Qed.

Lemma tp_parseType_empty : tp_parseType "" = Some (TPrim "" false).
Proof. reflexivity. Qed.

Lemma prim_check_empty ty : ty <> ""%string -> prim_check ty "" = false.
Proof. intros H. unfold prim_check. simpl. rewrite orb_false_r. apply String.eqb_neq. congruence. Qed.

Lemma tp_myTypeof_nonempty v : tp_myTypeof v <> ""%string.
Proof. destruct v; discriminate. Qed.

Lemma ov_myTypeof_nonempty v : ov_myTypeof v <> ""%string.
Proof. destruct v; discriminate. Qed.

Lemma ov_match_empty_pattern v mu :
  mu !! [] = None -> ov_match (TPrim "" false) [] v mu = (Some false, v, mu).
Proof. intros H. cbn [ov_match]. rewrite H, prim_check_empty by apply ov_myTypeof_nonempty. reflexivity. Qed.


Lemma ov_matchesType_empty_pattern c v :
  ov_reachable c -> (ov_matchesType c v "").1 = (RBool false, v).
Proof.
  intros Hc. unfold ov_matchesType, ov_cached. destruct (c !! "") as [[t mu]|] eqn:E.
  - destruct (ov_reachable_ok c Hc _ _ _ E) as (_ & Ht & Hmu).
    rewrite ov_parseType_empty in Ht. injection Ht as <-.
    rewrite (ov_mu_reach_none _ mu) in * by
      (auto; intros w; rewrite ov_match_empty_pattern by apply lookup_empty; reflexivity).
    rewrite ov_match_empty_pattern by apply lookup_empty. reflexivity.
  - rewrite ov_parseType_empty. change (is_proto_name "") with false. cbv iota.
    rewrite ov_match_empty_pattern by apply lookup_empty. reflexivity.
Qed.

Lemma tp_matchesType_empty_pattern c v :
  tp_cache_ok c -> (tp_matchesType c v "").1 = RBool false.
Proof.
  intros Hc. rewrite (proj1 (tp_matchesType_ok c v _ Hc)).
  rewrite (tp_matchesType_fresh_parsed v "" _ eq_refl tp_parseType_empty).
  cbn [tp_match]. rewrite prim_check_empty by apply tp_myTypeof_nonempty. reflexivity.
Qed.

Lemma ov_matchesSignature_empty_key c args :
  ov_reachable c -> exists c', ov_matchesSignature c args [""%string] = (Some false, args, c').
Proof.
  intros Hc. destruct args as [|a [|b r]].
  - eexists. apply ov_matchesSignature_arity. left. apply Nat.ltb_lt. reflexivity.
  - unfold ov_matchesSignature. simpl. pose proof (ov_matchesType_empty_pattern c a Hc) as H.
    destruct (ov_matchesType c a "") as [[res a'] c1]. simpl in H. injection H as -> ->.
    eexists. reflexivity.
  - eexists. apply ov_matchesSignature_arity. right. simpl. lia.
Qed.

Lemma tp_matchesSignature_empty_key c args :
  tp_cache_ok c -> exists c', tp_matchesSignature c args [""%string] = (Some false, c').
Proof.
  intros Hc. destruct args as [|a [|b r]].
  - eexists. apply tp_matchesSignature_arity. left. apply Nat.ltb_lt. reflexivity.
  - unfold tp_matchesSignature. simpl. pose proof (tp_matchesType_empty_pattern c a Hc) as H.
    destruct (tp_matchesType c a "") as [res c1]. simpl in H. subst res.
    eexists. reflexivity.
  - eexists. apply tp_matchesSignature_arity. right. simpl. lia.
Qed.

Lemma tp_call_loop_empty_key J f es1 es2 any c args :
  tp_cache_ok c ->
  (tp_call_loop J (es1 ++ (js_join "-" [], f) :: es2) any c args).1
  = (tp_call_loop J (es1 ++ es2) any c args).1.
Proof.
  revert c. induction es1 as [|[k g] r IH]; intros c Hc; simpl app.
  - cbn [tp_call_loop]. rewrite empty_key_split.
    destruct (tp_matchesSignature_empty_key c args Hc) as [c' E].
    pose proof (proj2 (tp_matchesSignature_indep c c args [""%string] Hc Hc)) as Hc'.
    rewrite E in Hc' |- *. simpl in Hc'. apply tp_call_loop_indep; auto.
  - cbn [tp_call_loop].
    pose proof (proj2 (tp_matchesSignature_indep c c args (js_split "-" k) Hc Hc)) as Hc'.
    destruct (tp_matchesSignature c args (js_split "-" k)) as [[[|]|] c1]; simpl in Hc'; auto.
Qed.

Lemma ov_matchesType_reachable c a p : ov_reachable c -> ov_reachable (ov_matchesType c a p).2.
Proof. apply ov_reach_step. Qed.

Lemma ov_matchesType_other c a p k : k <> p -> (ov_matchesType c a p).2 !! k = c !! k.
Proof.
  intros Hk. unfold ov_matchesType, ov_cached.
  destruct (c !! p) as [[t mu]|] eqn:E.
  - destruct (ov_match t [] a mu) as [[r a'] mu']. simpl. rewrite lookup_insert_ne; congruence.
  - destruct (is_proto_name p); [reflexivity|].
    destruct (ov_parseType p) as [t|]; [|reflexivity].
    destruct (ov_match t [] a ∅) as [[r a'] mu']. simpl.
    rewrite !lookup_insert_ne; congruence.
Qed.

Lemma ov_matchesType_sim c1 c2 a p :
  ov_reachable c1 -> ov_reachable c2 -> ov_sim c1 c2 ->
  (ov_matchesType c1 a p).1 = (ov_matchesType c2 a p).1
  /\ ov_sim (ov_matchesType c1 a p).2 (ov_matchesType c2 a p).2.
Proof.
  intros H1 H2 Hs. destruct (String.eq_dec p "") as [->|Hp].
  - split; [rewrite !ov_matchesType_empty_pattern by assumption; reflexivity|].
    intros k Hk. rewrite !ov_matchesType_other by exact Hk. apply Hs, Hk.
  - split.
    + unfold ov_matchesType, ov_cached. rewrite (Hs p Hp).
      destruct (c2 !! p) as [[t mu]|].
      * destruct (ov_match t [] a mu) as [[r a'] mu']. reflexivity.
      * destruct (is_proto_name p); [reflexivity|].
        destruct (ov_parseType p) as [t|]; [|reflexivity].
        destruct (ov_match t [] a ∅) as [[r a'] mu']. reflexivity.
    + intros k Hk. destruct (String.eq_dec k p) as [->|Hkp].
      * unfold ov_matchesType, ov_cached. rewrite (Hs p Hp).
        destruct (c2 !! p) as [[t mu]|] eqn:E.
        -- destruct (ov_match t [] a mu) as [[r a'] mu']. simpl. rewrite !lookup_insert_eq. reflexivity.
        -- destruct (is_proto_name p); [apply Hs, Hp|].
           destruct (ov_parseType p) as [t|]; [|apply Hs, Hp].
           destruct (ov_match t [] a ∅) as [[r a'] mu']. simpl. rewrite !lookup_insert_eq. reflexivity.
      * rewrite !ov_matchesType_other by exact Hkp. apply Hs, Hk.
Qed.

Lemma ov_sig_loop_sim ps args c1 c2 :
  ov_reachable c1 -> ov_reachable c2 -> ov_sim c1 c2 ->
  (ov_sig_loop c1 args ps).1 = (ov_sig_loop c2 args ps).1
  /\ ov_sim (ov_sig_loop c1 args ps).2 (ov_sig_loop c2 args ps).2
  /\ ov_reachable (ov_sig_loop c1 args ps).2 /\ ov_reachable (ov_sig_loop c2 args ps).2.
Proof.
  revert ps c1 c2. induction args as [|a ar IH]; intros ps c1 c2 H1 H2 Hs.
  - destruct ps; simpl; auto.
  - destruct ps as [|p pr]; [simpl; auto|]. cbn [ov_sig_loop].
    destruct (ov_matchesType_sim c1 c2 a p H1 H2 Hs) as [E S].
    pose proof (ov_matchesType_reachable c1 a p H1) as R1.
    pose proof (ov_matchesType_reachable c2 a p H2) as R2.
    destruct (ov_matchesType c1 a p) as [[r a'] d1], (ov_matchesType c2 a p) as [[r2 a2] d2].
    simpl in E, S, R1, R2. injection E as <- <-.
    destruct r as [[|]| |]; simpl; auto.
    destruct (IH pr d1 d2 R1 R2 S) as (E' & S' & R1' & R2').
    destruct (ov_sig_loop d1 ar pr) as [[o1 l1] e1], (ov_sig_loop d2 ar pr) as [[o2 l2] e2].
    simpl in *. injection E' as <- <-. auto.
Qed.

Lemma ov_matchesSignature_sim args ps c1 c2 :
  ov_reachable c1 -> ov_reachable c2 -> ov_sim c1 c2 ->
  (ov_matchesSignature c1 args ps).1 = (ov_matchesSignature c2 args ps).1
  /\ ov_sim (ov_matchesSignature c1 args ps).2 (ov_matchesSignature c2 args ps).2
  /\ ov_reachable (ov_matchesSignature c1 args ps).2
  /\ ov_reachable (ov_matchesSignature c2 args ps).2.
Proof.
  intros H1 H2 Hs. unfold ov_matchesSignature.
  destruct (length args <? requiredCount ps); [simpl; auto|].
  destruct (length ps <? length args); [simpl; auto|].
  apply ov_sig_loop_sim; assumption.
Qed.

Lemma ov_call_loop_sim J sigs c1 c2 args :
  ov_reachable c1 -> ov_reachable c2 -> ov_sim c1 c2 ->
  (ov_call_loop J sigs c1 args).1 = (ov_call_loop J sigs c2 args).1.
Proof.
  revert c1 c2 args. induction sigs as [|[k g] r IH]; intros c1 c2 args H1 H2 Hs; [reflexivity|].
  cbn [ov_call_loop]. destruct (String.eqb k "any"); [reflexivity|].
  destruct (ov_matchesSignature_sim args (js_split "-" k) c1 c2 H1 H2 Hs) as (E & S & R1 & R2).
  destruct (ov_matchesSignature c1 args (js_split "-" k)) as [[o1 l1] d1],
           (ov_matchesSignature c2 args (js_split "-" k)) as [[o2 l2] d2].
  simpl in *. injection E as <- <-.
  destruct o1 as [[|]|]; simpl; auto.
Qed.

Lemma ov_sim_refl c : ov_sim c c.
Proof. intros k _. reflexivity. Qed.

Lemma ov_sim_sym c1 c2 : ov_sim c1 c2 -> ov_sim c2 c1.
Proof. intros H k Hk. symmetry. apply H, Hk. Qed.

Lemma ov_call_loop_empty_key J f es c args :
  ov_reachable c ->
  exists c', ov_reachable c' /\ ov_sim c' c
    /\ ov_call_loop J ((js_join "-" [], f) :: es) c args = ov_call_loop J es c' args.
Proof.
  intros Hc. cbn [ov_call_loop]. change (js_join "-" []) with ""%string.
  change (String.eqb "" "any") with false. cbv iota. rewrite empty_key_split. destruct args as [|a [|b r]].
  - rewrite ov_matchesSignature_arity by (left; apply Nat.ltb_lt; reflexivity).
    eauto using ov_sim_refl.
  - unfold ov_matchesSignature. simpl. pose proof (ov_matchesType_empty_pattern c a Hc) as H.
    pose proof (ov_matchesType_reachable c a "" Hc) as Hr.
    pose proof (fun k => ov_matchesType_other c a "" k) as Ho.
    destruct (ov_matchesType c a "") as [[res a'] c1]. simpl in H, Hr, Ho. injection H as -> ->.
    simpl. exists c1. split; [exact Hr|]. split; [exact Ho|reflexivity].
  - rewrite ov_matchesSignature_arity by (right; simpl; lia). eauto using ov_sim_refl.
Qed.

Lemma ov_call_loop_drop_empty J f r es c args :
  ov_reachable c ->
  (ov_call_loop J (r ++ (js_join "-" [], f) :: es) c args).1
  = (ov_call_loop J (r ++ es) c args).1.
Proof.
  revert c args. induction r as [|[k g] r IH]; intros c args Hc; cbn [app].
  - destruct (ov_call_loop_empty_key J f es c args Hc) as (c' & Hc' & Hs & E).
    rewrite E. apply ov_call_loop_sim; auto.
  - cbn [ov_call_loop]. destruct (String.eqb k "any"); [reflexivity|].
    pose proof (ov_matchesSignature_sim args (js_split "-" k) c c Hc Hc (ov_sim_refl c)) as (_ & _ & R & _).
    destruct (ov_matchesSignature c args (js_split "-" k)) as [[[[|]|] l1] d1]; simpl in *; auto.
Qed.

(** X11: an implementation registered with no patterns is never invoked
    by a call, and removing its entry does not change what a call does, in
    any reachable cache state: in [src/TaskProcessor.js] wherever the entry
    stands, in [src/overloader.js] whatever was registered before it and
    whatever is registered after it. *)
Theorem X11_empty_signature J f :
  (forall es1 es2 any c args, tp_reachable c ->
     (tp_call_loop J (es1 ++ (js_join "-" (map strip_ws []), f) :: es2) any c args).1
     = (tp_call_loop J (es1 ++ es2) any c args).1)
  /\ (forall r es c args, ov_reachable c ->
        (ov_call_loop J (ov_add [] f r ++ es) c args).1 = (ov_call_loop J (r ++ es) c args).1).
Proof.
  split.
  - intros es1 es2 any c args Hc. apply tp_call_loop_empty_key, tp_reachable_ok. exact Hc.
  - intros r es c args Hc. unfold ov_add. rewrite <- app_assoc. apply ov_call_loop_drop_empty, Hc.
Qed.

Lemma X11_witness :
  (tp_call_loop (fun _ => None) ([("number"%string, 1)] ++ (js_join "-" (map strip_ws []), 2) :: []) None ∅ [VStr "x"]).1
  = (tp_call_loop (fun _ => None) ([("number"%string, 1)] ++ []) None ∅ [VStr "x"]).1
  /\ (ov_call_loop (fun _ => None) (ov_add [] 2 [("string"%string, 1)] ++ [("any"%string, 3)]) ∅ [VStr "x"]).1
     = (ov_call_loop (fun _ => None) ([("string"%string, 1)] ++ [("any"%string, 3)]) ∅ [VStr "x"]).1.
Proof.
  split.
  - apply (proj1 (X11_empty_signature (fun _ => None) 2)). constructor.
  - apply (proj2 (X11_empty_signature (fun _ => None) 2)). constructor.
Defined.


Lemma count_rounds_app a b : count_rounds (a ++ b) = count_rounds a + count_rounds b.
Proof. unfold count_rounds. rewrite List.filter_app, length_app. reflexivity. Qed.

Lemma js_round_int_small y : (Z.abs y < 2 ^ 53)%Z -> js_round_int y = y.
Proof.
  intros H. unfold js_round_int.
  replace (Z.max 0 (Z.log2 (Z.abs y) - 52))%Z with 0%Z; [reflexivity|].
  destruct (Z.eq_dec (Z.abs y) 0%Z) as [E|E].
  - rewrite E. reflexivity.
  - assert (Z.log2 (Z.abs y) < 53)%Z by (apply Z.log2_lt_pow2; lia). lia.
Qed.

Lemma js_round_int_sign y :
  ((y < 0)%Z -> (js_round_int y < 0)%Z) /\ ((0 < y)%Z -> (0 < js_round_int y)%Z).
Proof.
  unfold js_round_int. set (e := Z.max 0 (Z.log2 (Z.abs y) - 52)%Z).
  destruct (Z.eqb_spec e 0%Z) as [He|He]; [split; auto|].
  assert (Hy : y <> 0%Z) by (intros ->; apply He; reflexivity).
  assert (Hl : Z.log2 (Z.abs y) = (52 + e)%Z) by lia.
  assert (Hd : (0 < 2 ^ e)%Z) by (apply Z.pow_pos_nonneg; lia).
  assert (Hb : (2 ^ 52 * 2 ^ e <= Z.abs y)%Z).
  { rewrite <- Z.pow_add_r by lia. rewrite <- Hl. apply Z.log2_spec. lia. }
  change (2 ^ 52)%Z with 4503599627370496%Z in Hb.
  set (d := (2 ^ e)%Z) in *. split; intros Hs.
  - assert (Hq : (y / d <= -2)%Z) by (apply Z.div_le_upper_bound; lia).
    destruct (2 * (y mod d) <? d)%Z, (d <? 2 * (y mod d))%Z, (Z.even (y / d)); nia.
  - assert (Hq : (2 <= y / d)%Z) by (apply Z.div_le_lower_bound; lia).
    destruct (2 * (y mod d) <? d)%Z, (d <? 2 * (y mod d))%Z, (Z.even (y / d)); nia.
Qed.

Lemma js_decrement_exact m : (1 <= m <= 2 ^ 53)%Z -> js_decrement m = (m - 1)%Z.
Proof. intros H. unfold js_decrement. apply js_round_int_small. lia. Qed.

Lemma js_decrement_zero m : (0 < m)%Z -> (js_decrement m =? 0)%Z = (m =? 1)%Z.
Proof.
  intros H. destruct (Z.eqb_spec m 1) as [->|Hm]; [reflexivity|].
  apply Z.eqb_neq. unfold js_decrement. pose proof (proj2 (js_round_int_sign (m - 1))). lia.
Qed.

Lemma js_decrement_neg m : (m < 0)%Z -> (js_decrement m < 0)%Z.
Proof. intros H. unfold js_decrement. apply js_round_int_sign. lia. Qed.

Lemma retry_loop_S {R E} (exec : @tp_state R E -> option (bool * tp_state)) f m w s :
  retry_loop exec (S f) m w s
  = if negb (m =? 0)%Z && negb (shouldStopAll s) then
      match exec s with
      | None => None
      | Some (isFulfilled, s1) =>
          if isFulfilled then Some ([ERound], s1)
          else
            let d := if negb (js_decrement m =? 0)%Z then [EDelay w] else [] in
            match retry_loop exec f (js_decrement m) w s1 with
            | Some (tr, s2) => Some (ERound :: d ++ tr, s2)
            | None => None
            end
      end
    else Some ([], s).
Proof. reflexivity. Qed.

Lemma retry_loop_bound {R E} (exec : @tp_state R E -> option (bool * tp_state)) :
  (forall s, exists b s1, exec s = Some (b, s1)) ->
  forall n w s, (Z.of_nat n <= 2 ^ 53)%Z ->
  exists tr s', retry_loop exec (S n) (Z.of_nat n) w s = Some (tr, s') /\ count_rounds tr <= n.
Proof.
  intros Hx n w. induction n as [|n IH]; intros s Hn.
  - exists [], s. split; [reflexivity|]. unfold count_rounds; simpl; lia.
  - assert (Hk1 : (Z.of_nat (S n) =? 0)%Z = false) by (apply Z.eqb_neq; lia).
    assert (Hk2 : js_decrement (Z.of_nat (S n)) = Z.of_nat n) by (rewrite js_decrement_exact; lia).
    rewrite retry_loop_S, Hk1, Hk2. cbn [negb andb].
    destruct (shouldStopAll s); cbn [negb].
    + exists [], s. split; [reflexivity|]. unfold count_rounds; simpl; lia.
    + destruct (Hx s) as (b & s1 & Hs). rewrite Hs. destruct b.
      * exists [ERound], s1. split; [reflexivity|]. unfold count_rounds; simpl; lia.
      * destruct (IH s1 ltac:(lia)) as (tr & s2 & Hl & Hc). rewrite Hl.
        eexists _, s2. split; [reflexivity|].
        change (ERound :: ?l) with ([ERound] ++ l). rewrite !count_rounds_app.
        destruct (negb (Z.of_nat n =? 0)%Z); unfold count_rounds in *; simpl; lia.
Qed.

(** X12: [runTasks] with [maxRetry = n], [0 <= n <= 2^53], finishes after
    at most [n] rounds of [executeTasksWithLimit] when every round settles;
    with [maxRetry = 0] it runs no round and resolves to empty [fulfilled]
    and [rejected] lists. *)
Theorem X12_runTasks_bound {Task R E} (exec : @tp_state R E -> option (bool * tp_state)) :
  (forall s, exists b s1, exec s = Some (b, s1)) ->
  (forall (tasks : list Task) n w, (Z.of_nat n <= 2 ^ 53)%Z -> exists tr res,
     runTasks exec (S n) tasks (Z.of_nat n) w = Some (tr, res) /\ count_rounds tr <= n)
  /\ (forall (tasks : list Task) fuel w, tasks <> [] ->
        runTasks exec (S fuel) tasks 0 w = Some ([], RunDone [] [])).
Proof.
  intros Hx. split.
  - intros tasks n w Hn. unfold runTasks. destruct (nullb tasks).
    + exists [], RunEmpty. split; [reflexivity|]. unfold count_rounds; simpl; lia.
    + destruct (retry_loop_bound exec Hx n w initializeState Hn) as (tr & s' & Hl & Hc).
      rewrite Hl. eauto.
  - intros tasks fuel w Hne. unfold runTasks. destruct tasks as [|t ts]; [congruence|]. reflexivity.
Qed.

Lemma X12_witness :
  (exists tr res, runTasks (fun s : @tp_state nat nat => Some (false, s)) 4 [tt] (Z.of_nat 3) 0
                  = Some (tr, res) /\ count_rounds tr <= 3)
  /\ runTasks (fun s : @tp_state nat nat => Some (false, s)) 1 [tt] 0 0 = Some ([], @RunDone nat nat [] []).
Proof.
  destruct (X12_runTasks_bound (Task:=unit) (fun s : @tp_state nat nat => Some (false, s))) as [H1 H2].
  - intros s. eauto.
  - split; [apply H1; apply Z.leb_le; reflexivity | apply H2; discriminate].
Defined.

Lemma retry_loop_exhaust {R E} (exec : @tp_state R E -> option (bool * tp_state)) :
  (forall s, exists s1, exec s = Some (false, s1) /\ shouldStopAll s1 = false) ->
  forall n w s, (Z.of_nat (S n) <= 2 ^ 53)%Z -> shouldStopAll s = false ->
  exists s', retry_loop exec (S (S n)) (Z.of_nat (S n)) w s
             = Some (concat (repeat [ERound; EDelay w] n) ++ [ERound], s').
Proof.
  intros Hx n w. induction n as [|n IH]; intros s Hn Hs.
  - rewrite retry_loop_S, Hs. destruct (Hx s) as (s1 & Hs1 & H2). rewrite Hs1.
    change (Z.of_nat 1) with 1%Z. cbn [negb andb Z.eqb Pos.eqb].
    replace (js_decrement 1) with 0%Z by reflexivity. simpl. eauto.
  - assert (Hk1 : (Z.of_nat (S (S n)) =? 0)%Z = false) by (apply Z.eqb_neq; lia).
    assert (Hk2 : js_decrement (Z.of_nat (S (S n))) = Z.of_nat (S n)) by (rewrite js_decrement_exact; lia).
    assert (Hk3 : (Z.of_nat (S n) =? 0)%Z = false) by (apply Z.eqb_neq; lia).
    rewrite retry_loop_S, Hk1, Hs. cbn [negb andb]. destruct (Hx s) as (s1 & Hs1 & H2).
    rewrite Hs1. cbv iota beta.
    rewrite Hk2, Hk3. destruct (IH s1 ltac:(lia) H2) as [s' Hl]. rewrite Hl. eauto.
Qed.

Lemma retry_loop_diverge {R E} (exec : @tp_state R E -> option (bool * tp_state)) :
  (forall s, exists s1, exec s = Some (false, s1) /\ shouldStopAll s1 = false) ->
  forall fuel m w s, (m < 0)%Z -> shouldStopAll s = false -> retry_loop exec fuel m w s = None.
Proof.
  intros Hx fuel. induction fuel as [|f IH]; intros m w s Hm Hs; [reflexivity|].
  assert (Hk1 : (m =? 0)%Z = false) by (apply Z.eqb_neq; lia).
  rewrite retry_loop_S, Hk1, Hs. cbn [negb andb]. destruct (Hx s) as (s1 & Hs1 & H2).
  rewrite Hs1. cbv iota beta.
  rewrite IH by (auto using js_decrement_neg). reflexivity.
Qed.

(** X13: when every round settles without completing and without the stop
    flag, [runTasks] with [maxRetry = n + 1 <= 2^53] runs exactly [n + 1]
    rounds with a wait of [waitTime] between two rounds and none after the
    last; with a negative [maxRetry] the loop never ends. *)
Theorem X13_runTasks_rounds {Task R E} (exec : @tp_state R E -> option (bool * tp_state)) :
  (forall s, exists s1, exec s = Some (false, s1) /\ shouldStopAll s1 = false) ->
  (forall (tasks : list Task) n w, tasks <> [] -> (Z.of_nat (S n) <= 2 ^ 53)%Z ->
     exists res, runTasks exec (S (S n)) tasks (Z.of_nat (S n)) w
                 = Some (concat (repeat [ERound; EDelay w] n) ++ [ERound], res))
  /\ (forall (tasks : list Task) fuel m w, tasks <> [] -> (m < 0)%Z ->
        runTasks exec fuel tasks m w = None).
Proof.
  intros Hx. split.
  - intros tasks n w Hne Hn. unfold runTasks. destruct tasks as [|t ts]; [congruence|]. simpl nullb.
    destruct (retry_loop_exhaust exec Hx n w initializeState Hn eq_refl) as [s' Hl]. rewrite Hl. eauto.
  - intros tasks fuel m w Hne Hm. unfold runTasks. destruct tasks as [|t ts]; [congruence|]. simpl nullb.
    rewrite retry_loop_diverge; auto.
Qed.

Lemma X13_witness :
  (exists res, runTasks (fun _ : @tp_state nat nat => Some (false, initializeState)) 3 [tt] 2 5
               = Some ([ERound; EDelay 5; ERound], res))
  /\ runTasks (fun _ : @tp_state nat nat => Some (false, initializeState)) 100 [tt] (-1) 0 = None.
Proof.
  pose proof (X13_runTasks_rounds (Task:=unit) (fun _ : @tp_state nat nat => Some (false, initializeState))
                (fun s => ex_intro _ initializeState (conj eq_refl eq_refl))) as [H1 H2].
  split; [apply (H1 [tt] 1 5%Z) | apply H2]; first [discriminate | lia | apply Z.leb_le; reflexivity].
Defined.

Lemma ov_parseType_brackets : ov_parseType "[]" = Some (TArrH (TPrim "" false)).
Proof. reflexivity. Qed.

Lemma tp_parseType_brackets : tp_parseType "[]" = Some (TArrH (TPrim "array" false)).
Proof. reflexivity. Qed.

Lemma ov_match_arr_prim T v mu :
  mu !! [0] = None ->
  ov_match (TArrH (TPrim T false)) [] v mu
  = match v with
    | VArr xs =>
        let xs' := if nullb xs then [VUndef] else xs in
        (Some (forallb (fun x => prim_check (ov_myTypeof x) T) xs'), VArr xs', mu)
    | _ => (Some false, v, mu)
    end.
Proof.
  intros Hmu. destruct v; try reflexivity. cbn [ov_match].
  rewrite (ov_every_pure _ (fun x => prim_check (ov_myTypeof x) T)).
  - reflexivity.
  - intros x. rewrite Hmu. reflexivity.
Qed.

Lemma forallb_false_nonnull {A} (l : list A) : nullb l = false -> forallb (fun _ => false) l = false.
Proof. destruct l; [discriminate|reflexivity]. Qed.

(** X14: the pattern ["[]"] matches, in [src/TaskProcessor.js], exactly
    the arrays whose elements are all arrays (the empty array included),
    and in [src/overloader.js] no value at all. *)
Theorem X14_brackets_pattern c c' v :
  tp_reachable c -> ov_reachable c' ->
  (tp_matchesType c v "[]").1
  = RBool (match v with
           | VArr xs => forallb (fun x => String.eqb (tp_myTypeof x) "array") xs
           | _ => false
           end)
  /\ (ov_matchesType c' v "[]").1.1 = RBool false.
Proof.
  intros Hc Hc'. split.
  - rewrite (proj1 (tp_matchesType_ok c v _ (tp_reachable_ok c Hc))).
    rewrite (tp_matchesType_fresh_parsed v "[]" _ eq_refl tp_parseType_brackets).
    rewrite tp_match_arr_name by reflexivity. destruct v as [| | | | | |[|x r]|]; reflexivity.
  - assert (Hm : forall mu, mu !! [0] = None -> (ov_match (TArrH (TPrim "" false)) [] v mu).1.1 = Some false).
    { intros mu Hmu. rewrite ov_match_arr_prim by exact Hmu.
      destruct v as [| | | | | |xs|]; try reflexivity. simpl.
      assert (Hf : forall x, prim_check (ov_myTypeof x) "" = false)
        by (intros x; apply prim_check_empty, ov_myTypeof_nonempty).
      destruct xs as [|x r]; cbn [nullb forallb fst]; rewrite Hf; reflexivity. }
    unfold ov_matchesType, ov_cached. destruct (c' !! "[]") as [[t mu]|] eqn:E.
    + destruct (ov_reachable_ok c' Hc' _ _ _ E) as (_ & Ht & Hmu).
      rewrite ov_parseType_brackets in Ht. injection Ht as <-.
      assert (mu = ∅) as ->.
      { apply (ov_mu_reach_none (TArrH (TPrim "" false)) mu); [|exact Hmu].
        intros w. rewrite ov_match_arr_prim by apply lookup_empty. destruct w; reflexivity. }
      pose proof (Hm ∅ (lookup_empty _)) as H.
      destruct (ov_match (TArrH (TPrim "" false)) [] v ∅) as [[r a] mu']. simpl in H |- *. subst r. reflexivity.
    + rewrite ov_parseType_brackets. change (is_proto_name "[]") with false. cbv iota.
      pose proof (Hm ∅ (lookup_empty _)) as H.
      destruct (ov_match (TArrH (TPrim "" false)) [] v ∅) as [[r a] mu']. simpl in H |- *. subst r. reflexivity.
Qed.

Lemma X14_witness :
  (tp_matchesType ∅ (VArr [VArr []]) "[]").1 = RBool true
  /\ (ov_matchesType ∅ (VArr [VArr []]) "[]").1.1 = RBool false.
Proof. apply (X14_brackets_pattern ∅ ∅ (VArr [VArr []])); constructor. Defined.

Lemma num_char_plain c : num_char c = true -> plain_char "," c = true.
Proof. destruct c as [[] [] [] [] [] [] [] []]; vm_compute; first [discriminate | reflexivity]. Qed.

Lemma num_plain p : is_num_lit p = true -> plain_piece "," p = true.
Proof.
  intros H. unfold plain_piece. rewrite (num_trim p H), String.eqb_refl, andb_true_r.
  eapply forallb_impl'; [exact num_char_plain|]. apply is_num_lit_chars. exact H.
Qed.


Lemma tuple_chars ps :
  Forall (fun p => is_num_lit p = true) ps ->
  forallb tuple_char (list_ascii_of_string ("[" ++ js_join "," ps ++ "]")) = true.
Proof.
  intros H. rewrite !list_ascii_of_string_app, !forallb_app. cbn [list_ascii_of_string forallb].
  replace (forallb tuple_char (list_ascii_of_string (js_join "," ps))) with true; [reflexivity|].
  symmetry. apply (forallb_impl' (fun c => num_char c || (c =? ",")%char)).
  - intros c Hc. unfold tuple_char. rewrite Hc. reflexivity.
  - apply forallb_join; [reflexivity|]. eapply Forall_impl; [exact H|]. intros p Hp. simpl in Hp.
    eapply forallb_impl'; [|exact (is_num_lit_chars p Hp)]. intros c ->. reflexivity.
Qed.

Lemma tuple_char_facts c :
  tuple_char c = true -> is_js_space c = false /\ (c =? "|")%char = false /\ (c =? "(")%char = false
                         /\ (c =? "{")%char = false.
Proof. destruct c as [[] [] [] [] [] [] [] []]; vm_compute; first [discriminate | intros; repeat split]. Qed.

Lemma tuple_trim ps :
  Forall (fun p => is_num_lit p = true) ps -> trim ("[" ++ js_join "," ps ++ "]") = ("[" ++ js_join "," ps ++ "]")%string.
Proof.
  intros H. apply trim_id. eapply forallb_impl'; [|exact (tuple_chars ps H)].
  intros c Hc. destruct (tuple_char_facts c Hc) as [-> _]. reflexivity.
Qed.

Lemma tuple_no_bar ps :
  Forall (fun p => is_num_lit p = true) ps -> includes_char "|" ("[" ++ js_join "," ps ++ "]") = false.
Proof. intros H. apply (includes_char_forallb _ _ _ (tuple_chars ps H)). reflexivity. Qed.

Lemma join_no_open ps :
  Forall (fun p => is_num_lit p = true) ps -> includes_char "[" (js_join "," ps) = false.
Proof.
  intros H. apply (includes_char_forallb (fun c => num_char c || (c =? ",")%char)); [|reflexivity].
  apply forallb_join; [reflexivity|]. eapply Forall_impl; [exact H|]. intros p Hp. simpl in Hp.
  eapply forallb_impl'; [|exact (is_num_lit_chars p Hp)]. intros c ->. reflexivity.
Qed.

Lemma tuple_not_brackets J :
  J <> ""%string -> includes_char "[" J = false -> ends_with_brackets ("[" ++ J ++ "]") = false.
Proof.
  intros Hne HJ. destruct (ends_with_brackets ("[" ++ J ++ "]")) eqn:E; auto.
  unfold ends_with_brackets in E. apply andb_prop in E as [_ E]. apply String.eqb_eq in E.
  apply (f_equal list_ascii_of_string) in E. rewrite list_substring in E.
  rewrite !list_ascii_of_string_app in E. rewrite !string_length_app in E.
  rewrite <- (length_list_ascii_of_string J) in E.
  destruct (exists_last (l:=list_ascii_of_string J)) as (l & d & Hl).
  { intros H0. apply Hne. apply string_list_inj. rewrite H0. reflexivity. }
  rewrite Hl in E. cbn [list_ascii_of_string String.length] in E. rewrite length_app in E.
  replace (1 + (length l + length [d] + 1) - 2) with (1 + length l) in E by (simpl; lia).
  rewrite <- app_assoc, app_assoc in E.
  replace (1 + length l) with (length (["["%char] ++ l)) in E by reflexivity.
  rewrite drop_app_length in E. simpl in E. injection E as Hd. subst d.
  rewrite includes_char_existsb, Hl, existsb_app in HJ. simpl in HJ. rewrite orb_true_r in HJ. discriminate.
Qed.

Lemma tuple_bounds J :
  starts_with_char "[" ("[" ++ J ++ "]") = true /\ starts_with_char "(" ("[" ++ J ++ "]") = false
  /\ ends_with_char "]" ("[" ++ J ++ "]") = true.
Proof.
  rewrite str_app_String. cbn [starts_with_char]. split; [reflexivity|split; [reflexivity|]].
  unfold ends_with_char, last_char. rewrite <- str_app_String, !list_ascii_of_string_app, app_assoc.
  change (list_ascii_of_string "]") with ["]"%char]. rewrite last_map_some_app. reflexivity.
Qed.

Lemma tuple_slice J : slice_inner ("[" ++ J ++ "]") = J.
Proof.
  apply string_list_inj. unfold slice_inner. rewrite list_substring, !string_length_app.
  rewrite !list_ascii_of_string_app. cbn [list_ascii_of_string String.length].
  replace (1 + (String.length J + 1) - 2) with (length (list_ascii_of_string J))
    by (rewrite length_list_ascii_of_string; lia).
  cbn [list_ascii_of_string app skipn]. rewrite drop_0, take_app_length. reflexivity.
Qed.

Lemma num_nonempty p : is_num_lit p = true -> p <> ""%string.
Proof. intros H ->. discriminate. Qed.

Lemma join_nonempty p ps :
  Forall (fun p => is_num_lit p = true) (p :: ps) -> js_join "," (p :: ps) <> ""%string.
Proof.
  intros H. inversion H as [|? ? Hp _]; subst. destruct ps as [|q ps]; simpl.
  - apply num_nonempty. exact Hp.
  - destruct p as [|d r]; [discriminate|]. rewrite str_app_String. discriminate.
Qed.

Lemma Forall_last_nonempty p ps :
  Forall (fun p => is_num_lit p = true) (p :: ps) -> String.eqb (List.last (p :: ps) "") "" = false.
Proof.
  revert p. induction ps as [|q ps IH]; intros p H; inversion H as [|? ? Hp Hr]; subst.
  - simpl. destruct p; [discriminate|reflexivity].
  - change (List.last (p :: q :: ps) "") with (List.last (q :: ps) ""). apply IH. exact Hr.
Qed.

Lemma tp_split_nums ps :
  ps <> [] -> Forall (fun p => is_num_lit p = true) ps -> tp_splitArrayElements (js_join "," ps) = ps.
Proof.
  intros Hne H. destruct ps as [|p ps]; [congruence|].
  unfold tp_splitArrayElements, tp_splitAny. change ","%string with (String "," "").
  rewrite (tp_split_join "," p ps []); try reflexivity.
  eapply Forall_impl; [exact H|]. intros q Hq. apply num_plain. exact Hq.
Qed.

Lemma ov_split_nums ps :
  ps <> [] -> Forall (fun p => is_num_lit p = true) ps -> ov_splitArrayElements (js_join "," ps) = ps.
Proof.
  intros Hne H. destruct ps as [|p ps]; [congruence|].
  unfold ov_splitArrayElements, ov_split. change ","%string with (String "," "").
  rewrite (ov_split_join "," p ps []); try reflexivity.
  - rewrite Forall_last_nonempty by exact H. reflexivity.
  - eapply Forall_impl; [exact H|]. intros q Hq. apply num_plain. exact Hq.
Qed.

Lemma nums_literal ps :
  Forall (fun p => is_num_lit p = true) ps ->
  forallb (fun el => is_num_lit (trim el) || is_quoted_lit (trim el)) ps = true
  /\ map lit_of_element ps = map (fun p => LNum (js_Number_lit p)) ps.
Proof.
  induction 1 as [|p ps Hp _ [IH1 IH2]]; [split; reflexivity|].
  cbn [forallb map]. rewrite IH1, IH2. unfold lit_of_element. rewrite num_trim, Hp by exact Hp.
  split; reflexivity.
Qed.

Lemma tuple_len J : String.length ("[" ++ J ++ "]") = S (S (String.length J)).
Proof. rewrite !string_length_app. simpl. lia. Qed.

Lemma tp_parseType_tuple ps :
  ps <> [] -> Forall (fun p => is_num_lit p = true) ps ->
  tp_parseType ("[" ++ js_join "," ps ++ "]") = Some (TLitArr (map (fun p => LNum (js_Number_lit p)) ps)).
Proof.
  intros Hne H. destruct (tuple_bounds (js_join "," ps)) as (Hs & Hp & He).
  assert (HJ : js_join "," ps <> ""%string) by (destruct ps; [congruence|]; apply join_nonempty; exact H).
  destruct (nums_literal ps H) as [Hl Hm].
  unfold tp_parseType. rewrite tuple_len. remember (S (String.length (js_join "," ps))) as m.
  cbn [tp_parse_fuel first_rule]. rewrite tuple_trim by exact H.
  rewrite rule_union_none by (apply tuple_no_bar; exact H).
  rewrite tp_rule_array_none by (apply tuple_not_brackets; [exact HJ | apply join_no_open; exact H]).
  unfold rule_bracket. rewrite Hs, He. simpl negb. cbv iota beta.
  rewrite tuple_slice, tp_split_nums, Hl, Hm by assumption. reflexivity.
Qed.

Lemma ov_parseType_tuple ps :
  ps <> [] -> Forall (fun p => is_num_lit p = true) ps ->
  ov_parseType ("[" ++ js_join "," ps ++ "]") = Some (TLitArr (map (fun p => LNum (js_Number_lit p)) ps)).
Proof.
  intros Hne H. destruct (tuple_bounds (js_join "," ps)) as (Hs & Hp & He).
  assert (HJ : js_join "," ps <> ""%string) by (destruct ps; [congruence|]; apply join_nonempty; exact H).
  destruct (nums_literal ps H) as [Hl Hm].
  unfold ov_parseType. rewrite tuple_len. remember (S (String.length (js_join "," ps))) as m.
  cbn [ov_parse_fuel first_rule]. rewrite tuple_trim by exact H.
  rewrite rule_union_none by (apply tuple_no_bar; exact H).
  rewrite ov_rule_array_none by (apply tuple_not_brackets; [exact HJ | apply join_no_open; exact H]).
  rewrite ov_rule_paren_none by exact Hp.
  unfold rule_bracket. rewrite Hs, He. simpl negb. cbv iota beta.
  rewrite tuple_slice, ov_split_nums, Hl, Hm by assumption. reflexivity.
Qed.

Lemma tuple_not_proto J : is_proto_name ("[" ++ J ++ "]") = false.
Proof.
  apply (is_proto_name_char "["); [|reflexivity|reflexivity].
  rewrite str_app_String. simpl. reflexivity.
Qed.

(** X15: in both files, a tuple of numeric literals [[n1,...,nk]] (k >= 1)
    matches exactly the arrays of length k whose i-th element is strictly
    equal to the number [ni]; [src/overloader.js] returns the value
    unchanged. *)
Theorem X15_num_tuple c c' v ps :
  tp_reachable c -> ov_reachable c' -> ps <> [] -> Forall (fun p => is_num_lit p = true) ps ->
  let ans := match v with
             | VArr xs => (length xs =? length ps)
                 && forallb (fun xv => strict_eq_lit xv.1 xv.2)
                      (zip xs (map (fun p => LNum (js_Number_lit p)) ps))
             | _ => false
             end in
  (tp_matchesType c v ("[" ++ js_join "," ps ++ "]")).1 = RBool ans
  /\ (ov_matchesType c' v ("[" ++ js_join "," ps ++ "]")).1 = (RBool ans, v).
Proof.
  intros Hc Hc' Hne H ans. split.
  - rewrite (proj1 (tp_matchesType_ok c v _ (tp_reachable_ok c Hc))).
    rewrite (tp_matchesType_fresh_parsed v _ _ (tuple_not_proto _) (tp_parseType_tuple ps Hne H)).
    subst ans. destruct v; try reflexivity. cbn [tp_match]. rewrite length_map.
    destruct (length xs =? length ps); reflexivity.
  - unfold ov_matchesType, ov_cached. destruct (c' !! _) as [[t mu]|] eqn:E.
    + destruct (ov_reachable_ok c' Hc' _ _ _ E) as (_ & Ht' & _).
      rewrite ov_parseType_tuple in Ht' by assumption. injection Ht' as <-.
      subst ans. destruct v; try reflexivity. cbn [ov_match]. rewrite length_map.
      destruct (length xs =? length ps); reflexivity.
    + rewrite tuple_not_proto, ov_parseType_tuple by assumption.
      subst ans. destruct v; try reflexivity. cbn [ov_match]. rewrite length_map.
      destruct (length xs =? length ps); reflexivity.
Qed.

Lemma X15_witness :
  (tp_matchesType ∅ (VArr [VNum (1%Z, 1%positive); VNum (5%Z, 2%positive)]) "[1,2.5]").1 = RBool true
  /\ (ov_matchesType ∅ (VArr [VNum (1%Z, 1%positive); VNum (5%Z, 2%positive)]) "[1,2.5]").1
     = (RBool true, VArr [VNum (1%Z, 1%positive); VNum (5%Z, 2%positive)]).
Proof.
  destruct (X15_num_tuple ∅ ∅ (VArr [VNum (1%Z, 1%positive); VNum (5%Z, 2%positive)]) ["1"; "2.5"]%string)
    as [A B]; [constructor | constructor | discriminate | repeat constructor |].
  split; [exact A | exact B].
Defined.

Lemma strip_ws_idem s : strip_ws (strip_ws s) = strip_ws s.
Proof.
  induction s as [|d r IH]; [reflexivity|]. simpl.
  destruct (is_js_space d) eqn:E; [exact IH|]. simpl. rewrite E, IH. reflexivity.
Qed.

(** X16: in [src/TaskProcessor.js], [add] ignores whitespace in the
    patterns: two registrations whose patterns differ only in whitespace
    (space, tab, line breaks, no-break space, ...) use the same key, so the second replaces the first, and registering the
    stripped patterns is the same as registering the original ones. *)
Theorem X16_tp_add_whitespace ps1 ps2 f1 f2 r :
  map strip_ws ps1 = map strip_ws ps2 ->
  tp_add ps2 f2 (tp_add ps1 f1 r) = tp_add ps2 f2 r
  /\ tp_add (map strip_ws ps2) f2 r = tp_add ps2 f2 r.
Proof.
  intros H. unfold tp_add. split.
  - rewrite H. apply assoc_set_twice.
  - rewrite map_map. f_equal. f_equal. apply map_ext. apply strip_ws_idem.
Qed.

Lemma X16_witness :
  tp_add ["number"]%string 2
    (tp_add [(" number" ++ String (ascii_of_nat 160) (String "009" ""))%string] 1 [])
  = tp_add ["number"]%string 2 []
  /\ tp_add (map strip_ws ["number"]%string) 2 [] = tp_add ["number"]%string 2 [].
Proof. apply X16_tp_add_whitespace. vm_compute. reflexivity. Defined.

(** X17: when the first round of [runTasks] settles and sets the stop
    flag (as [halt] does), no other round runs: the trace is that round,
    followed by the wait when the round did not complete and retries
    remain, and the result is read from the state that round left. *)
Theorem X17_halt_stops {Task R E} (exec : @tp_state R E -> option (bool * tp_state)) tasks fuel m w b s1 :
  tasks <> [] -> (0 < m)%Z -> exec initializeState = Some (b, s1) -> shouldStopAll s1 = true ->
  runTasks exec (S (S fuel)) (tasks : list Task) m w
  = Some (if b then [ERound] else ERound :: (if (m =? 1)%Z then [] else [EDelay w]),
          resolvePromises s1).
Proof.
  intros Hne Hm Hx Hs. unfold runTasks. destruct tasks as [|t ts]; [congruence|]. cbn [nullb].
  rewrite retry_loop_S. replace (m =? 0)%Z with false by (symmetry; apply Z.eqb_neq; lia).
  cbn [negb andb shouldStopAll initializeState]. rewrite Hx.
  destruct b; [reflexivity|].
  rewrite retry_loop_S, Hs, andb_false_r, js_decrement_zero by exact Hm.
  destruct (m =? 1)%Z; reflexivity.
Qed.

Lemma X17_witness :
  runTasks (Task:=nat) (fun _ => Some (false, mkState (R:=nat) (E:=nat) [] [(0, 7)] [] true)) 3 [0] 2%Z 5%Z
  = Some ([ERound; EDelay 5%Z], RunDone [] [7]).
Proof.
  rewrite (X17_halt_stops (fun _ => Some (false, mkState [] [(0, 7)] [] true)) [0] 1 2%Z 5%Z false
            (mkState [] [(0, 7)] [] true)); first [reflexivity | discriminate | lia].
Defined.
